(** * surma_balls: the WebGPU bouncing-ball demo of [src/gpu.ts]

    A shallow embedding of the compute kernel (WGSL [main]), of the buffers it
    is dispatched over, of the CPU side that initialises and feeds the
    particle array, of the per-frame colour update, and of the two helpers
    [randomBetween] and [addHexColor].

    Numbers are modelled as the program has them: WGSL [f32] values are IEEE
    binary32 floats and JavaScript numbers are IEEE binary64 floats, both
    taken from the standard library's executable specification [SpecFloat]
    (round to nearest, ties to even; no NaN payload). *)

From Stdlib Require Import ZArith Bool Lia String Ascii.
From Stdlib Require Import Floats.SpecFloat.
From stdpp Require Import base option list sets.

Local Open Scope Z_scope.

#[local] Set Warnings "-clear-no-such-hyp".

(** ** Floating-point formats *)

(** WGSL [f32]: binary32. *)
Module F32.
Definition prec : Z := 24.
Definition emax : Z := 128.

Abbreviation t := spec_float (only parsing).

Definition valid (x : t) : bool := valid_binary prec emax x.

Definition zero : t := S754_zero false.
Definition of_int (n : Z) : t := binary_normalize prec emax n 0 false.

Definition add (x y : t) : t := SFadd prec emax x y.
Definition mul (x y : t) : t := SFmul prec emax x y.
Definition div (x y : t) : t := SFdiv prec emax x y.

(** [x <= y] and [x >= y]; both are false as soon as one side is NaN. *)
Definition le (x y : t) : bool := SFleb x y.
Definition ge (x y : t) : bool := SFleb y x.
End F32.

(** JavaScript [number]: binary64. *)
Module F64.
Definition prec : Z := 53.
Definition emax : Z := 1024.

Abbreviation t := spec_float (only parsing).

Definition valid (x : t) : bool := valid_binary prec emax x.

Definition zero : t := S754_zero false.
Definition of_int (n : Z) : t := binary_normalize prec emax n 0 false.

Definition add (x y : t) : t := SFadd prec emax x y.
Definition sub (x y : t) : t := SFsub prec emax x y.
Definition mul (x y : t) : t := SFmul prec emax x y.
Definition div (x y : t) : t := SFdiv prec emax x y.

Definition lt (x y : t) : bool := SFltb x y.
Definition gt (x y : t) : bool := SFltb y x.
Definition ge (x y : t) : bool := SFleb y x.
(** JavaScript [===] on numbers. *)
Definition eq (x y : t) : bool := SFeqb x y.

(** Storing a number into a [Float32Array] element rounds it to binary32. *)
Definition to_f32 (x : t) : F32.t :=
  match x with
  | S754_finite s m e =>
      binary_normalize F32.prec F32.emax (cond_Zopp s (Zpos m)) e s
  | _ => x
  end.
End F64.

(** Two floats denote the same number: they are identical, or they are the
    two zeros. *)
Definition is_zero (x : spec_float) : bool :=
  match x with S754_zero _ => true | _ => false end.

Definition same_number (x y : spec_float) : Prop :=
  x = y \/ (is_zero x = true /\ is_zero y = true).

(** ** The particle record and the storage buffers *)

Record vec2 := mk_vec2 { e0 : F32.t; e1 : F32.t }.

(** WGSL [struct Ball]: [radius] at float offset 0, [position] at 2 and 3
    (a [vec2<f32>] is 8-byte aligned, so float 1 is padding), [velocity] at 4
    and 5; the array stride is six floats. *)
Record Ball := mk_Ball { radius : F32.t; position : vec2; velocity : vec2 }.

Record UniformData := mk_UniformData { canvasWidth : Z; canvasHeight : Z }.

(** A storage buffer, and a [Float32Array], as the sequence of its floats. *)
Abbreviation buffer := (list F32.t) (only parsing).

Definition stride : nat := 6.

(** WGSL [arrayLength(&buf)] for an [array<Ball>] bound to the buffer. *)
Definition arrayLength (buf : buffer) : nat := (length buf / stride)%nat.

(** Reading element [i] of an [array<Ball>]; [None] when the element is not
    inside the buffer. *)
Definition load_ball (buf : buffer) (i : nat) : option Ball :=
  r ← buf !! (stride * i)%nat;
  px ← buf !! (stride * i + 2)%nat;
  py ← buf !! (stride * i + 3)%nat;
  vx ← buf !! (stride * i + 4)%nat;
  vy ← buf !! (stride * i + 5)%nat;
  Some (mk_Ball r (mk_vec2 px py) (mk_vec2 vx vy)).

(** Writing element [i]; [None] when the element is not inside the buffer.
    The padding float is left as it was. *)
Definition store_ball (buf : buffer) (i : nat) (b : Ball) : option buffer :=
  if decide (stride * i + 5 < length buf)%nat then
    Some (<[(stride * i + 5)%nat := e1 (velocity b)]>
          (<[(stride * i + 4)%nat := e0 (velocity b)]>
           (<[(stride * i + 3)%nat := e1 (position b)]>
            (<[(stride * i + 2)%nat := e0 (position b)]>
             (<[(stride * i)%nat := radius b]> buf)))))
  else None.

(** ** The compute kernel *)

(** [const TIME_STEP: f32 = 0.016], the binary32 float nearest to 0.016. *)
Definition TIME_STEP : F32.t := S754_finite false 8589935 (-29).

(** The literal [-1] of [src_ball.velocity[k] * -1]. *)
Definition minus_one : F32.t := F32.of_int (-1).

Definition vec2_add (a b : vec2) : vec2 :=
  mk_vec2 (F32.add (e0 a) (e0 b)) (F32.add (e1 a) (e1 b)).

Definition vec2_scale (a : vec2) (k : F32.t) : vec2 :=
  mk_vec2 (F32.mul (e0 a) k) (F32.mul (e1 a) k).

Definition set_position (b : Ball) (p : vec2) : Ball :=
  mk_Ball (radius b) p (velocity b).

Definition set_velocity0 (b : Ball) (v : F32.t) : Ball :=
  mk_Ball (radius b) (position b) (mk_vec2 v (e1 (velocity b))).

Definition set_velocity1 (b : Ball) (v : F32.t) : Ball :=
  mk_Ball (radius b) (position b) (mk_vec2 (e0 (velocity b)) v).

(** The test of a reflection branch: the coordinate is at or beyond the
    extent, or at or below zero. *)
Definition crosses (p : F32.t) (extent : Z) : bool :=
  F32.ge p (F32.of_int extent) || F32.le p F32.zero.

(** The body of [main] after the bounds guard, as the sequence of
    assignments through [dst_ball]. *)
Definition step_ball (uniforms : UniformData) (src_ball : Ball) : Ball :=
  let dst := src_ball in
  let dst :=
    set_position dst (vec2_add (position dst) (vec2_scale (velocity dst) TIME_STEP)) in
  let dst :=
    if crosses (e0 (position dst)) (canvasWidth uniforms)
    then set_velocity0 dst (F32.mul (e0 (velocity src_ball)) minus_one)
    else dst in
  let dst :=
    if crosses (e1 (position dst)) (canvasHeight uniforms)
    then set_velocity1 dst (F32.mul (e1 (velocity src_ball)) minus_one)
    else dst in
  dst.

(** One invocation of [main] with [global_id.x = gid]: the new contents of
    the [output] buffer, or [None] if the invocation touches memory outside a
    buffer. *)
Definition main (uniforms : UniformData) (input : buffer) (gid : nat)
    (output : buffer) : option buffer :=
  if decide (arrayLength output <= gid)%nat then Some output
  else
    src_ball ← load_ball input gid;
    store_ball output gid (step_ball uniforms src_ball).

(** The invocations of a dispatch have no defined order; a schedule is the
    list of global ids in the order they happen to run. *)
Fixpoint run_invocations (uniforms : UniformData) (input : buffer)
    (ids : list nat) (output : buffer) : option buffer :=
  match ids with
  | [] => Some output
  | gid :: rest =>
      output' ← main uniforms input gid output;
      run_invocations uniforms input rest output'
  end.

(** [@workgroup_size(64)] *)
Definition workgroup_size : nat := 64.

(** [dispatchWorkgroups(groups)]: [groups * 64] invocations. *)
Definition dispatchWorkgroups (uniforms : UniformData) (input : buffer)
    (groups : nat) (output : buffer) : option buffer :=
  run_invocations uniforms input (seq 0 (groups * workgroup_size)) output.

(** ** The CPU side: helpers *)

(** [randomBetween(min, max)]; [r] is the value [Math.random()] returns in
    this call. *)
Definition randomBetween (r : F64.t) (min max : F64.t) : F64.t :=
  let '(min, max) := if F64.gt min max then (max, min) else (min, max) in
  F64.add (F64.mul r (F64.sub max min)) min.

Local Open Scope string_scope.

(** A function either returns a value or throws an [Error] with a message. *)
Inductive result (A : Type) : Type :=
| Return (a : A)
| Throw (message : string).
Arguments Return {A} a.
Arguments Throw {A} message.

Definition bind_result {A B} (x : result A) (k : A -> result B) : result B :=
  match x with
  | Return a => k a
  | Throw m => Throw m
  end.

(** The character class [[0-9a-f]] under the [i] flag. *)
Definition is_hex_digit (c : ascii) : bool :=
  let n := nat_of_ascii c in
  ((48 <=? n) && (n <=? 57) || (97 <=? n) && (n <=? 102)
   || (65 <=? n) && (n <=? 70))%nat.

(** The match of [/^([0-9a-f]{2})([0-9a-f]{2})([0-9a-f]{2})$/i]: the three
    captured groups, or [None] when there is no match. *)
Definition match_octets (s : string) : option (string * string * string) :=
  match s with
  | String a (String b (String c (String d (String e (String f EmptyString))))) =>
      if is_hex_digit a && is_hex_digit b && is_hex_digit c
         && is_hex_digit d && is_hex_digit e && is_hex_digit f
      then Some (String a (String b EmptyString),
                 String c (String d EmptyString),
                 String e (String f EmptyString))
      else None
  | _ => None
  end.

Definition digit_value (c : ascii) : nat :=
  let n := nat_of_ascii c in
  if (n <=? 57)%nat then (n - 48)%nat
  else if (n <=? 70)%nat then (n - 55)%nat
  else (n - 87)%nat.

(** [parseInt(s, 16)] on a string of hexadecimal digits. *)
Fixpoint parseInt16_from (acc : nat) (s : string) : nat :=
  match s with
  | EmptyString => acc
  | String c rest => parseInt16_from (16 * acc + digit_value c)%nat rest
  end.

Definition parseInt16 (s : string) : nat := parseInt16_from 0 s.

Definition hex_digit (d : nat) : ascii :=
  ascii_of_nat (if (d <? 10)%nat then 48 + d else 87 + d)%nat.

(** [n.toString(16)] for a non-negative integer: lower-case digits, no
    leading zero. *)
Fixpoint toString16_fuel (fuel n : nat) (acc : string) : string :=
  match fuel with
  | O => acc
  | S fuel =>
      let acc := String (hex_digit (n mod 16)) acc in
      if (n <? 16)%nat then acc else toString16_fuel fuel (n / 16)%nat acc
  end.

Definition toString16 (n : nat) : string := toString16_fuel (S n) n EmptyString.

(** [s.padStart(2, '0')] *)
Definition padStart2 (s : string) : string :=
  match String.length s with
  | O => "00"
  | S O => "0" ++ s
  | _ => s
  end.

(** The decimal text of the indices 1, 2, 3 of the template literal. *)
Definition octet_index (i : nat) : string :=
  String (ascii_of_nat (48 + i)) EmptyString.

(** The callback of [[1, 2, 3].map]: octet [i], where [o1] and [o2] are
    [m1[i]] and [m2[i]]. *)
Definition add_octet (i : nat) (o1 o2 : string) : result string :=
  let sum := (parseInt16 o1 + parseInt16 o2)%nat in
  if (255 <? sum)%nat
  then Throw ("octet " ++ octet_index i ++ " overflow: " ++ o1 ++ "+" ++ o2
              ++ "=" ++ toString16 sum)
  else Return (padStart2 (toString16 sum)).

Definition addHexColor (c1 c2 : string) : result string :=
  match match_octets c1, match_octets c2 with
  | Some (a1, a2, a3), Some (b1, b2, b3) =>
      bind_result (add_octet 1 a1 b1) (fun s1 =>
      bind_result (add_octet 2 a2 b2) (fun s2 =>
      bind_result (add_octet 3 a3 b3) (fun s3 =>
      Return (s1 ++ s2 ++ s3))))
  | _, _ => Throw ("invalid hex color triplet(s): " ++ c1 ++ " / " ++ c2)
  end.

Local Close Scope string_scope.

(** ** The CPU side: initial particles *)

Definition numBalls : nat := 200.

(** [numBalls * 6 * Float32Array.BYTES_PER_ELEMENT], in bytes. *)
Definition BUFFER_SIZE : nat := (numBalls * 6 * 4)%nat.

(** [new Float32Array(new ArrayBuffer(bytes))]: zero-filled. *)
Definition new_Float32Array (bytes : nat) : buffer :=
  replicate (bytes / 4)%nat F32.zero.

(** [context.canvas]: its pixel dimensions. *)
Record Canvas := mk_Canvas { width : Z; height : Z }.

(** The body of the initialisation loop at index [i]; the five calls of
    [Math.random()] it makes return [rnd k], ..., [rnd (k + 4)]. An
    assignment to a typed-array index outside the array does nothing. *)
Definition init_body (rnd : nat -> F64.t) (cv : Canvas) (i k : nat)
    (a : buffer) : buffer :=
  let a := <[(i + 0)%nat :=
      F64.to_f32 (randomBetween (rnd k) (F64.of_int 2) (F64.of_int 10))]> a in
  let a := <[(i + 1)%nat := F64.to_f32 (F64.of_int 0)]> a in
  let a := <[(i + 2)%nat :=
      F64.to_f32 (randomBetween (rnd (k + 1)%nat) (F64.of_int 0)
                    (F64.of_int (width cv)))]> a in
  let a := <[(i + 3)%nat :=
      F64.to_f32 (randomBetween (rnd (k + 2)%nat) (F64.of_int 0)
                    (F64.of_int (height cv)))]> a in
  let a := <[(i + 4)%nat :=
      F64.to_f32 (randomBetween (rnd (k + 3)%nat) (F64.of_int (-100))
                    (F64.of_int 100))]> a in
  let a := <[(i + 5)%nat :=
      F64.to_f32 (randomBetween (rnd (k + 4)%nat) (F64.of_int (-100))
                    (F64.of_int 100))]> a in
  a.

(** [for (let i = 0; i < numBalls; i += 6) { ... }], from the current [i];
    [None] when the fuel runs out before the loop ends. *)
Fixpoint init_loop (fuel : nat) (rnd : nat -> F64.t) (cv : Canvas)
    (i k : nat) (a : buffer) : option buffer :=
  match fuel with
  | O => None
  | S fuel =>
      if decide (i < numBalls)%nat
      then init_loop fuel rnd cv (i + 6)%nat (k + 5)%nat (init_body rnd cv i k a)
      else Some a
  end.

(** The initial [inputBalls]. *)
Definition init_inputBalls (rnd : nat -> F64.t) (cv : Canvas) : option buffer :=
  init_loop (S numBalls) rnd cv 0%nat 0%nat (new_Float32Array BUFFER_SIZE).

(** The particle that the initialisation loop writes in its iteration [q]. *)
Definition init_ball (rnd : nat -> F64.t) (cv : Canvas) (q : nat) : Ball :=
  mk_Ball
    (F64.to_f32 (randomBetween (rnd (5 * q)%nat) (F64.of_int 2) (F64.of_int 10)))
    (mk_vec2
       (F64.to_f32 (randomBetween (rnd (5 * q + 1)%nat) (F64.of_int 0)
                      (F64.of_int (width cv))))
       (F64.to_f32 (randomBetween (rnd (5 * q + 2)%nat) (F64.of_int 0)
                      (F64.of_int (height cv)))))
    (mk_vec2
       (F64.to_f32 (randomBetween (rnd (5 * q + 3)%nat) (F64.of_int (-100))
                      (F64.of_int 100)))
       (F64.to_f32 (randomBetween (rnd (5 * q + 4)%nat) (F64.of_int (-100))
                      (F64.of_int 100)))).

(** Storing a number into an [Int32Array] element wraps it to 32 bits. *)
Definition to_int32 (z : Z) : Z := (z + 2 ^ 31) mod 2 ^ 32 - 2 ^ 31.

(** [uniformCanvasArea], as the kernel sees it. *)
Definition init_uniforms (cv : Canvas) : UniformData :=
  mk_UniformData (to_int32 (width cv)) (to_int32 (height cv)).

(** ** The frame loop *)

(** [color], an array of three numbers, by index. *)
Record Color := mk_Color { color0 : F64.t; color1 : F64.t; color2 : F64.t }.

(** What the loop carries from one iteration to the next: the three device
    buffers, and the variables [inputBalls], [color] and [addColor]. *)
Record State := mk_State {
  input : buffer;
  output : buffer;
  stagingBuffer : buffer;
  inputBalls : buffer;
  color : Color;
  addColor : F64.t
}.

(** [device.queue.writeBuffer(buf, 0, data)]; a write larger than the buffer
    is a validation error. *)
Definition writeBuffer (buf data : buffer) : option buffer :=
  if decide (length data <= length buf)%nat
  then Some (data ++ drop (length data) buf)
  else None.

(** [copyBufferToBuffer(src, 0, dst, 0, bytes)]; a copy that does not fit
    either buffer is a validation error. *)
Definition copyBufferToBuffer (src dst : buffer) (bytes : nat) : option buffer :=
  let n := (bytes / 4)%nat in
  if decide (n <= length src /\ n <= length dst)%nat
  then Some (take n src ++ drop n dst)
  else None.

(** [getMappedRange(0, bytes)] followed by [slice(0)] and
    [new Float32Array(data)]. *)
Definition read_back (staging : buffer) (bytes : nat) : buffer :=
  take (bytes / 4)%nat staging.

(** [Math.ceil(a / b)] on non-negative integers. *)
Definition ceil_div (a b : nat) : nat := ((a + b - 1) / b)%nat.

(** The colour update at the end of an iteration. *)
Definition flip_addColor (c : Color) (add : F64.t) : F64.t :=
  if F64.ge (color1 c) (F64.of_int 255) || F64.lt (color1 c) (F64.of_int 0)
  then F64.mul add (F64.of_int (-1))
  else add.

Definition update_color (c : Color) (add : F64.t) : Color :=
  mk_Color (color0 c) (F64.add (color1 c) add) (F64.add (color2 c) add).

(** One iteration of [for (;;)]; [None] if a device operation fails. *)
Definition frame (uniforms : UniformData) (s : State) : option State :=
  input' ← writeBuffer (input s) (inputBalls s);
  output' ← dispatchWorkgroups uniforms input' (ceil_div BUFFER_SIZE 64) (output s);
  staging' ← copyBufferToBuffer output' (stagingBuffer s) BUFFER_SIZE;
  let computedOutput := read_back staging' BUFFER_SIZE in
  let addColor' := flip_addColor (color s) (addColor s) in
  let color' := update_color (color s) addColor' in
  Some (mk_State input' output' staging' computedOutput color' addColor').

(** The first [n] iterations of the loop. *)
Fixpoint frames (n : nat) (uniforms : UniformData) (s : State) : option State :=
  match n with
  | O => Some s
  | S n => s' ← frame uniforms s; frames n uniforms s'
  end.

(** The state in which the loop is entered: the device buffers are freshly
    created, [color = [255, 0, 0]] and [addColor = 0.5]. *)
Definition one_half : F64.t := F64.div (F64.of_int 1) (F64.of_int 2).

Definition initial_color : Color :=
  mk_Color (F64.of_int 255) (F64.of_int 0) (F64.of_int 0).

Definition initial_state (balls : buffer) : State :=
  mk_State (new_Float32Array BUFFER_SIZE) (new_Float32Array BUFFER_SIZE)
    (new_Float32Array BUFFER_SIZE) balls initial_color one_half.

(** The colour variables alone evolve without reference to the buffers. *)
Fixpoint color_after (n : nat) (c : Color) (add : F64.t) : Color * F64.t :=
  match n with
  | O => (c, add)
  | S n =>
      let add' := flip_addColor c add in
      color_after n (update_color c add') add'
  end.

(** Every buffer of the loop has the size it is created with. *)
Definition buffers_sized (s : State) : Prop :=
  length (input s) = (BUFFER_SIZE / 4)%nat
  /\ length (output s) = (BUFFER_SIZE / 4)%nat
  /\ length (stagingBuffer s) = (BUFFER_SIZE / 4)%nat
  /\ length (inputBalls s) = (BUFFER_SIZE / 4)%nat.

(** A coordinate that kept its value: the same float, except that a negative
    zero may have become the positive zero. *)
Definition kept (p p' : spec_float) : Prop :=
  p' = p \/ (p = S754_zero true /\ p' = S754_zero false).

(** ** Colour triplets *)

(** A colour triplet: a string that is exactly six hexadecimal digits. *)
Definition hex_triplet (s : string) : bool :=
  (String.length s =? 6)%nat && forallb is_hex_digit (list_ascii_of_string s).

(** Octet [k] (0, 1 or 2) of a triplet: its two characters, and their value. *)
Definition octet_text (s : string) (k : nat) : string :=
  substring (2 * k) 2 s.

Definition octet (s : string) (k : nat) : nat := parseInt16 (octet_text s k).

(** The two-character rendering of [n] is two hexadecimal digits that read
    back as [n]. *)
Definition renders_as_octet (n : nat) : bool :=
  match padStart2 (toString16 n) with
  | String x (String y EmptyString) =>
      is_hex_digit x && is_hex_digit y
      && (parseInt16 (String x (String y EmptyString)) =? n)%nat
  | _ => false
  end.

(** ** The renderer's heading angle *)

(** [Number.EPSILON] and [Math.PI]. *)
Definition EPSILON : F64.t := S754_finite false 4503599627370496 (-104).
Definition PI : F64.t := S754_finite false 7074237752028440 (-51).

Section Renderer.
(** [Math.atan], which the host implements. *)
Variable atan : F64.t -> F64.t.

(** The divisor of [velY / (velX === 0 ? Number.EPSILON : velX)]. *)
Definition heading_divisor (velX : F64.t) : F64.t :=
  if F64.eq velX F64.zero then EPSILON else velX.

(** The angle [c] of [renderBalls] for one particle. *)
Definition heading (velX velY : F64.t) : F64.t :=
  let c := atan (F64.div velY (heading_divisor velX)) in
  if F64.lt velX F64.zero then F64.add c PI else c.
End Renderer.

(** ** Binary64 arithmetic: values and rounding *)

(** The smaller and the larger argument, as [randomBetween] orders them. *)
Definition fmin (a b : F64.t) : F64.t := if F64.gt a b then b else a.
Definition fmax (a b : F64.t) : F64.t := if F64.gt a b then a else b.

Definition is_nan (x : spec_float) : bool :=
  match x with S754_nan => true | _ => false end.

(** A zero or a finite non-zero float. *)
Definition is_finite (x : spec_float) : bool :=
  match x with S754_zero _ | S754_finite _ _ _ => true | _ => false end.

(** The value of a binary64 float as an integer number of units of 2^-1074
    (every finite binary64 float is a multiple of it); the infinities sit at
    2^1024, above every finite value. *)
Definition scaled (x : spec_float) : Z :=
  match x with
  | S754_zero _ | S754_nan => 0
  | S754_infinity s => cond_Zopp s (2 ^ 2098)
  | S754_finite s m e => cond_Zopp s (Zpos m * 2 ^ (e + 1074))
  end.

(** The round and sticky bits [r], [s] locate a remainder [R] within a step
    of width [P]: zero, below the half, at the half, above the half. *)
Definition located (r s : bool) (R P : Z) : Prop :=
  match r, s with
  | false, false => R = 0
  | false, true => 0 < 2 * R < P
  | true, false => 2 * R = P
  | true, true => P < 2 * R < 2 * P
  end.

(** The record [mrs] is the number [M] shifted right by [k] bits. *)
Definition shifted (M k : Z) (mrs : shr_record) : Prop :=
  0 <= shr_m mrs
  /\ 2 ^ k * shr_m mrs <= M
  /\ located (shr_r mrs) (shr_s mrs) (M - 2 ^ k * shr_m mrs) (2 ^ k).

(** The mantissa [m2] chosen for a truncated mantissa [q] with remainder [R]
    in a step of width [P]: [q] up to the half, [q + 1] from the half on. *)
Definition rounded (q R P m2 : Z) : Prop :=
  (m2 = q /\ 2 * R <= P) \/ (m2 = q + 1 /\ P <= 2 * R).

(** The outcome of a rounding: a valid float of sign [s] whose magnitude, in
    units of 2^-1074, is [V]; it is infinite once [V] reaches 2^1024. *)
Definition result_is (s : bool) (z : spec_float) (V : Z) : Prop :=
  valid_binary 53 1024 z = true
  /\ ((V = 0 /\ z = S754_zero s)
      \/ (0 < V < 2 ^ 2098
          /\ exists mz ez, z = S754_finite s mz ez
                           /\ Zpos mz * 2 ^ (ez + 1074) = V)
      \/ (2 ^ 2098 <= V /\ z = S754_infinity s)).

(** The magnitudes of the valid finite floats, in units of 2^-1074. *)
Definition repr64 (Y : Z) : Prop :=
  Y = 0 \/ exists my ey, bounded 53 1024 my ey = true
                         /\ Y = Zpos my * 2 ^ (ey + 1074).

(** [V] is a rounding of the exact value [Xf], given in units of 2^-2148,
    to the grid of step 2^(E1 - 1074): [q] is the truncated mantissa, and
    the chosen mantissa is [q] below the midpoint and [q + 1] above it. *)
Definition on_grid (Xf V : Z) : Prop :=
  exists q m2 E1,
    0 <= E1 /\ 0 <= q < 2 ^ 53 /\ (0 < E1 -> 2 ^ 52 <= q)
    /\ q * 2 ^ (E1 + 1074) <= Xf < (q + 1) * 2 ^ (E1 + 1074)
    /\ rounded q (Xf - q * 2 ^ (E1 + 1074)) (2 ^ (E1 + 1074)) m2
    /\ V = m2 * 2 ^ E1.

(** Two adjacent doubles and a draw for which the result is the upper
    argument: 1, 1 + 2^-52 and 0.75. *)
Definition just_above_one : F64.t := S754_finite false 4503599627370497 (-52).
Definition three_quarters : F64.t := F64.div (F64.of_int 3) (F64.of_int 4).

(** The largest finite double. *)
Definition max_float : F64.t := S754_finite false 9007199254740991 971.

(** ** Sample data *)

Definition sample_uniforms : UniformData := mk_UniformData 100 100.

(** Two particles: one leaving through the right edge, one at rest inside. *)
Definition sample_input : list spec_float :=
  [ F32.of_int 3; F32.zero; F32.of_int 101; F32.of_int 50;
    F32.of_int 5; F32.of_int 3;
    F32.of_int 4; F32.zero; F32.of_int 20; F32.of_int 30;
    F32.zero; F32.zero ].

Definition sample_output : list spec_float := replicate 12 F32.zero.

Definition sample_ball0 : Ball :=
  mk_Ball (F32.of_int 3) (mk_vec2 (F32.of_int 101) (F32.of_int 50))
    (mk_vec2 (F32.of_int 5) (F32.of_int 3)).

Definition sample_ball1 : Ball :=
  mk_Ball (F32.of_int 3) (mk_vec2 (F32.of_int (-1)) (F32.of_int 50))
    (mk_vec2 (F32.of_int (-5)) (F32.of_int 3)).

(** A 1200-float particle array whose particle 1 rests at (20, 30). *)
Definition sample_balls : list spec_float :=
  sample_input ++ replicate 1188 F32.zero.

(** A particle that was never written: all its floats are zero. *)
Definition zero_ball : Ball :=
  mk_Ball F32.zero (mk_vec2 F32.zero F32.zero) (mk_vec2 F32.zero F32.zero).

(** The number -0.5. *)
Definition minus_one_half : F64.t := F64.div (F64.of_int (-1)) (F64.of_int 2).

(** A binary32 float so small that it has fewer than 24 significant bits; a
    device is allowed to replace such a float by zero. *)
Definition is_subnormal (x : F32.t) : bool :=
  match x with
  | S754_finite _ m _ => Zpos (digits2_pos m) <? F32.prec
  | _ => false
  end.


(** A 1200-float particle array whose particle 0 is far beyond the right
    edge of a canvas of extent 100 and moves further away. *)
Definition sample_trapped : list spec_float :=
  [ F32.of_int 3; F32.zero; F32.of_int 200; F32.of_int 50;
    F32.of_int 5; F32.of_int 3 ] ++ replicate 1194 F32.zero.

(** ** The floats of a particle record *)

(** The float that a particle puts at offset [k] of its six-float record;
    offset 1 is padding and holds none of its fields. *)
Definition ball_float (b : Ball) (k : nat) : option F32.t :=
  match k with
  | 0%nat => Some (radius b)
  | 2%nat => Some (e0 (position b))
  | 3%nat => Some (e1 (position b))
  | 4%nat => Some (e0 (velocity b))
  | 5%nat => Some (e1 (velocity b))
  | _ => None
  end.

(** The float at index [j] of the output buffer once the invocations [ids]
    have run: a field of the stepped input particle where an invocation
    stores one, the previous content everywhere else. *)
Definition dispatched_float (uniforms : UniformData) (input : buffer)
    (ids : list nat) (out : buffer) (j : nat) : option F32.t :=
  if decide ((j / stride)%nat ∈ ids /\ (j / stride < arrayLength out)%nat)
  then
    match load_ball input (j / stride)%nat with
    | Some b =>
        match ball_float (step_ball uniforms b) (j mod stride)%nat with
        | Some v => Some v
        | None => out !! j
        end
    | None => out !! j
    end
  else out !! j.

(** ** Invariants of the frame loop *)

(** The radius and the magnitudes of the velocity components of [b'] are
    those of [b], and the velocity components of [b'] are binary32 floats. *)
Definition same_speed (b b' : Ball) : Prop :=
  radius b' = radius b
  /\ SFabs (e0 (velocity b')) = SFabs (e0 (velocity b))
  /\ SFabs (e1 (velocity b')) = SFabs (e1 (velocity b))
  /\ F32.valid (e0 (velocity b')) = true
  /\ F32.valid (e1 (velocity b')) = true.

(** The checks on one state of the colour variables: red is 255, green and
    blue are equal, and green is between -0.5 and 255. *)
Definition color_in_envelope (ca : Color * F64.t) : bool :=
  F64.eq (color0 (fst ca)) (F64.of_int 255)
  && F64.eq (color1 (fst ca)) (color2 (fst ca))
  && F64.ge (color1 (fst ca)) minus_one_half
  && F64.ge (F64.of_int 255) (color1 (fst ca)).

(** The check on the colour variables of the iterations [0 .. n - 1]. *)
Fixpoint colors_in_envelope (n : nat) (c : Color) (add : F64.t) : bool :=
  match n with
  | O => true
  | S n =>
      let add' := flip_addColor c add in
      color_in_envelope (c, add)
      && colors_in_envelope n (update_color c add') add'
  end.

(** The number of iterations after which the colour variables repeat. *)
Definition color_period : nat := 1022.

(** A particle at the origin with radius 0 and no velocity, whatever the
    signs of its velocity zeros. *)
Definition at_origin (b : Ball) : Prop :=
  radius b = F32.zero
  /\ position b = mk_vec2 F32.zero F32.zero
  /\ is_zero (e0 (velocity b)) = true
  /\ is_zero (e1 (velocity b)) = true.

(** The number of calls of [Math.random()] the initialisation makes. *)
Definition init_draws : nat := 170.

(** A source of draws that returns 0.5 every time. *)
Definition constant_draws : nat -> F64.t := fun _ => one_half.

(** ** Lower-case hexadecimal digits *)

(** The character class [[0-9a-f]] without the [i] flag. *)
Definition is_lower_hex_digit (c : ascii) : bool :=
  let n := nat_of_ascii c in
  ((48 <=? n) && (n <=? 57) || (97 <=? n) && (n <=? 102))%nat.

(** The two-character rendering of [n] has no upper-case digit. *)
Definition renders_lower_case (n : nat) : bool :=
  forallb is_lower_hex_digit (list_ascii_of_string (padStart2 (toString16 n))).

(** ** The renderer *)

(** A call on the 2D context of the canvas, with its arguments. *)
Inductive Command : Type :=
| Save
| SetFillStyle (style : string)
| FillRect (x y w h : F64.t)
| ClearRect (x y w h : F64.t)
| BeginPath
| Arc (x y r startAngle endAngle : F64.t) (counterclockwise : bool)
| MoveTo (x y : F64.t)
| LineTo (x y : F64.t)
| ClosePath
| Fill
| Restore.

(** How a sequence of calls ends: every call returns, or one of them throws
    the [DOMException] named [IndexSizeError]. *)
Inductive Completion : Type :=
| Returned
| IndexSizeError.

(** The calls that throw. [context.arc] returns at once when an argument is
    infinite or NaN, and otherwise throws when the radius is negative; no
    other call made here throws. *)
Definition throws (c : Command) : bool :=
  match c with
  | Arc x y r startAngle endAngle _ =>
      is_finite x && is_finite y && is_finite r
      && is_finite startAngle && is_finite endAngle
      && F64.lt r F64.zero
  | _ => false
  end.

(** Statements that call the context one after the other: the calls made,
    the one that throws included, and how the sequence ends. Nothing is
    called after a call that throws. *)
Fixpoint perform (cs : list Command) : list Command * Completion :=
  match cs with
  | [] => ([], Returned)
  | c :: cs =>
      if throws c then ([c], IndexSizeError)
      else let '(made, completion) := perform cs in (c :: made, completion)
  end.

(** Reading a [Float32Array] element gives the double of the same value. *)
Definition of_f32 (x : F32.t) : F64.t :=
  match x with
  | S754_finite s m e =>
      binary_normalize F64.prec F64.emax (cond_Zopp s (Zpos m)) e s
  | _ => x
  end.

(** [ballData[i]] where it is used as a number: an index outside the array
    reads [undefined], which arithmetic, comparison and the canvas methods
    all convert to NaN. *)
Definition element (ballData : buffer) (i : nat) : F64.t :=
  match ballData !! i with
  | Some x => of_f32 x
  | None => S754_nan
  end.

Section RenderBalls.
(** [Math.atan], [Math.cos], [Math.sin] and [Math.sqrt], which the host
    implements. *)
Variables atan cos sin sqrt : F64.t -> F64.t.

(** The statements of the loop body of [renderBalls] at index [a]: the
    calls on the context in source order, with their arguments. Which of
    them are made is decided by [perform]. *)
Definition draw_ball (ballData : buffer) (a : nat) : list Command :=
  let radius := element ballData (a + 0) in
  let posX := element ballData (a + 2) in
  let posY := element ballData (a + 3) in
  let velX := element ballData (a + 4) in
  let velY := element ballData (a + 5) in
  let c := heading atan velX velY in
  let P := F64.add posX (F64.mul (F64.mul (cos c) (sqrt (F64.of_int 2))) radius) in
  let m := F64.add posY (F64.mul (F64.mul (sin c) (sqrt (F64.of_int 2))) radius) in
  [ BeginPath;
    Arc posX posY radius (F64.of_int 0) (F64.mul (F64.of_int 2) PI) true;
    MoveTo P m;
    Arc posX posY radius (F64.sub c (F64.div PI (F64.of_int 4)))
      (F64.add c (F64.div PI (F64.of_int 4))) true;
    LineTo P m;
    ClosePath;
    Fill ].

(** [for (let a = 0; a < ballData.length; a += 6) { ... }], from the current
    [a]: the calls made and how the loop ends; an exception thrown in the
    body ends the loop. [None] when the fuel runs out before the loop ends. *)
Fixpoint render_loop (fuel : nat) (ballData : buffer) (a : nat)
    : option (list Command * Completion) :=
  match fuel with
  | O => None
  | S fuel =>
      if decide (a < length ballData)%nat
      then
        match perform (draw_ball ballData a) with
        | (made, Returned) =>
            '(rest, completion) ← render_loop fuel ballData (a + 6)%nat;
            Some (made ++ rest, completion)
        | (made, IndexSizeError) => Some (made, IndexSizeError)
        end
      else Some ([], Returned)
  end.

(** The calls before the loop; none of them throws. *)
Definition render_prologue (cv : Canvas) (color : string) : list Command :=
  [ Save;
    SetFillStyle color;
    FillRect (F64.of_int 0) (F64.of_int 0) (F64.of_int 5) (F64.of_int 5);
    ClearRect (F64.of_int 0) (F64.of_int 0) (F64.of_int (width cv))
      (F64.of_int (height cv)) ].

(** [renderBalls(ballData, color)]: the calls it makes on the context, in
    order, and how it ends. The function has no handler, so an exception
    thrown in the loop leaves it before [context.restore()]. *)
Definition renderBalls (cv : Canvas) (ballData : buffer) (color : string)
    : option (list Command * Completion) :=
  '(paths, completion) ← render_loop (S (length ballData)) ballData 0%nat;
  match completion with
  | Returned => Some (render_prologue cv color ++ paths ++ [Restore], Returned)
  | IndexSizeError => Some (render_prologue cv color ++ paths, IndexSizeError)
  end.
End RenderBalls.

(** Record [q] of the array has a finite centre and a finite negative
    radius: the arguments for which the first [arc] of its path throws. *)
Definition negative_radius (ballData : buffer) (q : nat) : bool :=
  is_finite (element ballData (6 * q + 2))
  && is_finite (element ballData (6 * q + 3))
  && is_finite (element ballData (6 * q))
  && F64.lt (element ballData (6 * q)) F64.zero.

(** Three particles, the second with radius -3. *)
Definition sample_negative_radius : list spec_float :=
  [ F32.of_int 3; F32.zero; F32.of_int 101; F32.of_int 50;
    F32.of_int 5; F32.of_int 3;
    F32.of_int (-3); F32.zero; F32.of_int 20; F32.of_int 30;
    F32.zero; F32.zero;
    F32.of_int 4; F32.zero; F32.of_int 20; F32.of_int 30;
    F32.zero; F32.zero ].

(** * Properties *)

(** ** Buffers *)

Ltac lookup_inserts :=
  repeat first
    [ rewrite list_lookup_insert_ne by lia
    | rewrite list_lookup_insert_eq by (rewrite ?length_insert; lia) ].

Lemma arrayLength_in_range (buf : buffer) (i : nat) :
  (i < arrayLength buf)%nat <-> (stride * i + 5 < length buf)%nat.
Proof.
  unfold arrayLength, stride.
  pose proof (Nat.div_mod_eq (length buf) 6) as E.
  pose proof (Nat.mod_upper_bound (length buf) 6) as M.
  split; intros H; nia.
Qed.

Lemma load_ball_is_Some (buf : buffer) (i : nat) :
  (i < arrayLength buf)%nat -> is_Some (load_ball buf i).
Proof.
  intros H%arrayLength_in_range. unfold load_ball, stride in *.
  destruct (lookup_lt_is_Some_2 buf (6 * i)%nat) as [r ->]; [lia|].
  destruct (lookup_lt_is_Some_2 buf (6 * i + 2)%nat) as [px ->]; [lia|].
  destruct (lookup_lt_is_Some_2 buf (6 * i + 3)%nat) as [py ->]; [lia|].
  destruct (lookup_lt_is_Some_2 buf (6 * i + 4)%nat) as [vx ->]; [lia|].
  destruct (lookup_lt_is_Some_2 buf (6 * i + 5)%nat) as [vy ->]; [lia|].
  simpl. eauto.
Qed.

Lemma store_ball_length (buf buf' : buffer) (i : nat) (b : Ball) :
  store_ball buf i b = Some buf' -> length buf' = length buf.
Proof.
  unfold store_ball. case_decide; [|discriminate].
  intros [= <-]. by rewrite !length_insert.
Qed.

Lemma load_store_same (buf buf' : buffer) (i : nat) (b : Ball) :
  store_ball buf i b = Some buf' -> load_ball buf' i = Some b.
Proof.
  unfold store_ball, load_ball, stride. case_decide; [|discriminate].
  intros [= <-]. lookup_inserts. simpl.
  by destruct b as [r [px py] [vx vy]].
Qed.

Lemma load_store_other (buf buf' : buffer) (i j : nat) (b : Ball) :
  i <> j -> store_ball buf i b = Some buf' -> load_ball buf' j = load_ball buf j.
Proof.
  unfold store_ball, load_ball, stride. intros Hne. case_decide; [|discriminate].
  intros [= <-]. by lookup_inserts.
Qed.

(** ** The kernel *)

Section Kernel.
Variable uniforms : UniformData.
Variable input : buffer.

Lemma main_out_of_range (gid : nat) (out : buffer) :
  (arrayLength out <= gid)%nat -> main uniforms input gid out = Some out.
Proof. intros H. unfold main. by rewrite decide_True. Qed.

Lemma main_in_range (gid : nat) (out : buffer) (b : Ball) :
  (gid < arrayLength out)%nat ->
  load_ball input gid = Some b ->
  exists out', main uniforms input gid out = Some out'
    /\ length out' = length out
    /\ load_ball out' gid = Some (step_ball uniforms b)
    /\ forall j, j <> gid -> load_ball out' j = load_ball out j.
Proof.
  intros Hlt Hb. unfold main. rewrite decide_False by lia. rewrite Hb. simpl.
  destruct (store_ball out gid (step_ball uniforms b)) as [out'|] eqn:E.
  - exists out'. split; [done|]. split; [by eapply store_ball_length|].
    split; [by eapply load_store_same|].
    intros j Hj. eapply load_store_other; [|exact E]. congruence.
  - exfalso. unfold store_ball in E. apply arrayLength_in_range in Hlt.
    by rewrite decide_True in E.
Qed.

Lemma arrayLength_le (a b : buffer) :
  (length a <= length b)%nat -> (arrayLength a <= arrayLength b)%nat.
Proof. intros H. unfold arrayLength, stride. by apply Nat.Div0.div_le_mono. Qed.

Ltac split_decide :=
  repeat match goal with
         | |- context [decide ?P] => destruct (decide P)
         end.

Ltac absurd_schedule :=
  exfalso; destruct_and?;
  repeat match goal with
         | H : _ ∈ _ :: _ |- _ => apply elem_of_cons in H as [->|H]
         end;
  try lia;
  match goal with
  | H : ¬ (_ ∧ _) |- _ =>
      apply H; split; [first [assumption | by left | by right] | lia]
  end.

(** A schedule over an output buffer no longer than the input buffer runs to
    the end; it keeps the size of the output buffer, puts the stepped input
    particle in every slot whose id was scheduled, and leaves the others. *)
Lemma run_invocations_spec (ids : list nat) (out : buffer) :
  (length out <= length input)%nat ->
  exists out', run_invocations uniforms input ids out = Some out'
    /\ length out' = length out
    /\ forall i,
         load_ball out' i =
           if decide (i ∈ ids /\ (i < arrayLength out)%nat)
           then step_ball uniforms <$> load_ball input i
           else load_ball out i.
Proof.
  revert out. induction ids as [|gid rest IH]; intros out Hlen;
    cbn [run_invocations].
  - exists out. split; [done|]. split; [done|]. intros i.
    split_decide; [|done]. destruct_and?. by apply elem_of_nil in H.
  - destruct (decide (arrayLength out <= gid)%nat) as [Hge|Hlt].
    + rewrite main_out_of_range by done. cbn [mbind option_bind].
      destruct (IH out Hlen) as (out' & -> & Hl & Hload).
      exists out'. split; [done|]. split; [done|]. intros i. rewrite Hload.
      split_decide; try done; absurd_schedule.
    + assert (gid < arrayLength out)%nat as Hgid by lia.
      destruct (load_ball_is_Some input gid) as [b Hb].
      { pose proof (arrayLength_le out input Hlen). lia. }
      destruct (main_in_range gid out b Hgid Hb) as (o1 & -> & Hl1 & Hs & Ho).
      cbn [mbind option_bind].
      destruct (IH o1) as (out' & -> & Hl & Hload); [lia|].
      exists out'. split; [done|]. split; [lia|]. intros i. rewrite Hload.
      assert (arrayLength o1 = arrayLength out) as ->
        by (unfold arrayLength; by rewrite Hl1).
      destruct (decide (i = gid)) as [->|Hne].
      * rewrite Hs, Hb. split_decide; try done; absurd_schedule.
      * rewrite Ho by done. split_decide; try done; absurd_schedule.
Qed.

End Kernel.

Lemma run_invocations_app (uniforms : UniformData) (input : buffer)
    (ids1 ids2 : list nat) (out : buffer) :
  run_invocations uniforms input (ids1 ++ ids2) out =
    out' ← run_invocations uniforms input ids1 out;
    run_invocations uniforms input ids2 out'.
Proof.
  revert out. induction ids1 as [|gid rest IH]; intros out; [done|].
  cbn [app run_invocations].
  destruct (main uniforms input gid out) as [o1|]; [|done]. apply IH.
Qed.

Lemma run_invocations_out_of_range (uniforms : UniformData) (input : buffer)
    (ids : list nat) (out : buffer) :
  Forall (fun gid => (arrayLength out <= gid)%nat) ids ->
  run_invocations uniforms input ids out = Some out.
Proof.
  induction 1 as [|gid rest Hge _ IH]; [done|].
  cbn [run_invocations]. by rewrite main_out_of_range.
Qed.

(** The literal 0.016 denotes the correctly rounded quotient 16 / 1000. *)
Lemma TIME_STEP_value :
  TIME_STEP = F32.div (F32.of_int 16) (F32.of_int 1000).
Proof. reflexivity. Qed.

(** What [step_ball] does to each field. *)
Lemma step_ball_position (uniforms : UniformData) (b : Ball) :
  position (step_ball uniforms b) =
    vec2_add (position b) (vec2_scale (velocity b) TIME_STEP).
Proof.
  unfold step_ball. cbn [set_position position].
  repeat match goal with |- context [if ?c then _ else _] => destruct c end;
    reflexivity.
Qed.

Lemma step_ball_radius (uniforms : UniformData) (b : Ball) :
  radius (step_ball uniforms b) = radius b.
Proof.
  unfold step_ball. cbn [set_position position].
  repeat match goal with |- context [if ?c then _ else _] => destruct c end;
    reflexivity.
Qed.

(** The particle a schedule leaves in a slot it covers. *)
Lemma run_invocations_covered (uniforms : UniformData) (input output : buffer)
    (ids : list nat) (i : nat) (b : Ball) :
  (length output <= length input)%nat ->
  (i < arrayLength output)%nat ->
  load_ball input i = Some b ->
  i ∈ ids ->
  exists output',
    run_invocations uniforms input ids output = Some output'
    /\ load_ball output' i = Some (step_ball uniforms b).
Proof.
  intros Hlen Hi Hb Hin.
  destruct (run_invocations_spec uniforms input ids output Hlen)
    as (output' & Hrun & _ & Hload).
  exists output'. split; [done|]. rewrite Hload, decide_True by done.
  by rewrite Hb.
Qed.

(** C1: for every particle index [i] below the particle count, whatever
    schedule of invocations covers [i] (so whatever grid size is dispatched),
    the output particle at [i] has, on each axis, the input position plus the
    input velocity times [TIME_STEP] (the float 0.016); no hypothesis on the
    boundary is needed, so the reflection branches never touch the position. *)
Theorem kernel_integrates_position (uniforms : UniformData)
    (input output : buffer) (i : nat) (b : Ball) :
  (length output <= length input)%nat ->
  (i < arrayLength output)%nat ->
  load_ball input i = Some b ->
  TIME_STEP = F32.div (F32.of_int 16) (F32.of_int 1000)
  /\ (forall ids, i ∈ ids ->
        exists output' b',
          run_invocations uniforms input ids output = Some output'
          /\ load_ball output' i = Some b'
          /\ e0 (position b') =
               F32.add (e0 (position b)) (F32.mul (e0 (velocity b)) TIME_STEP)
          /\ e1 (position b') =
               F32.add (e1 (position b)) (F32.mul (e1 (velocity b)) TIME_STEP))
  /\ (forall groups, (i < groups * workgroup_size)%nat ->
        exists output' b',
          dispatchWorkgroups uniforms input groups output = Some output'
          /\ load_ball output' i = Some b'
          /\ e0 (position b') =
               F32.add (e0 (position b)) (F32.mul (e0 (velocity b)) TIME_STEP)
          /\ e1 (position b') =
               F32.add (e1 (position b)) (F32.mul (e1 (velocity b)) TIME_STEP)).
Proof.
  intros Hlen Hi Hb.
  assert (forall ids, i ∈ ids ->
    exists output' b',
      run_invocations uniforms input ids output = Some output'
      /\ load_ball output' i = Some b'
      /\ e0 (position b') =
           F32.add (e0 (position b)) (F32.mul (e0 (velocity b)) TIME_STEP)
      /\ e1 (position b') =
           F32.add (e1 (position b)) (F32.mul (e1 (velocity b)) TIME_STEP))
    as Hsched.
  { intros ids Hin.
    destruct (run_invocations_covered uniforms input output ids i b)
      as (output' & Hrun & Hload); try done.
    exists output', (step_ball uniforms b).
    rewrite step_ball_position. by repeat split. }
  split; [apply TIME_STEP_value|]. split; [exact Hsched|].
  intros groups Hg. apply Hsched. apply elem_of_seq. lia.
Qed.

Lemma kernel_integrates_position_witness :
  TIME_STEP = F32.div (F32.of_int 16) (F32.of_int 1000)
  /\ (forall ids, 0%nat ∈ ids ->
        exists output' b',
          run_invocations sample_uniforms sample_input ids sample_output
            = Some output'
          /\ load_ball output' 0 = Some b'
          /\ e0 (position b') =
               F32.add (F32.of_int 101) (F32.mul (F32.of_int 5) TIME_STEP)
          /\ e1 (position b') =
               F32.add (F32.of_int 50) (F32.mul (F32.of_int 3) TIME_STEP))
  /\ (forall groups, (0 < groups * workgroup_size)%nat ->
        exists output' b',
          dispatchWorkgroups sample_uniforms sample_input groups sample_output
            = Some output'
          /\ load_ball output' 0 = Some b'
          /\ e0 (position b') =
               F32.add (F32.of_int 101) (F32.mul (F32.of_int 5) TIME_STEP)
          /\ e1 (position b') =
               F32.add (F32.of_int 50) (F32.mul (F32.of_int 3) TIME_STEP)).
Proof.
  apply (kernel_integrates_position sample_uniforms sample_input sample_output
           0 sample_ball0).
  - vm_compute. lia.
  - vm_compute. lia.
  - reflexivity.
Defined.

(** C6: for every particle index below the particle count, the output slot
    at that index receives the source particle's radius unchanged, under
    every branch of the kernel and for every schedule covering the index. *)
Theorem kernel_preserves_radius (uniforms : UniformData)
    (input output : buffer) (ids : list nat) (i : nat) (b : Ball) :
  (length output <= length input)%nat ->
  (i < arrayLength output)%nat ->
  load_ball input i = Some b ->
  i ∈ ids ->
  exists output' b',
    run_invocations uniforms input ids output = Some output'
    /\ load_ball output' i = Some b'
    /\ radius b' = radius b.
Proof.
  intros Hlen Hi Hb Hin.
  destruct (run_invocations_covered uniforms input output ids i b)
    as (output' & Hrun & Hload); try done.
  exists output', (step_ball uniforms b).
  by rewrite step_ball_radius.
Qed.

Lemma kernel_preserves_radius_witness :
  exists output' b',
    run_invocations sample_uniforms sample_input [5; 1; 0; 1]%nat sample_output
      = Some output'
    /\ load_ball output' 0 = Some b'
    /\ radius b' = F32.of_int 3.
Proof.
  apply (kernel_preserves_radius sample_uniforms sample_input sample_output
           [5; 1; 0; 1]%nat 0 sample_ball0).
  - vm_compute. lia.
  - vm_compute. lia.
  - reflexivity.
  - repeat constructor.
Defined.

(** ** Reflection *)

Lemma digits2_pos_shift23 (m : positive) :
  Zpos (digits2_pos (8388608 * m)) = Zpos (digits2_pos m) + 23.
Proof.
  cbv [Pos.mul digits2_pos]. fold (digits2_pos m).
  rewrite !Pos2Z.inj_succ. lia.
Qed.

(** Multiplying a binary32 float by [-1] is exact: the product's mantissa is
    the operand's shifted left by 23 bits, and rounding shifts it back. *)
Lemma mul_minus_one_finite (s : bool) (m : positive) (e : Z) :
  bounded F32.prec F32.emax m e = true ->
  F32.mul (S754_finite s m e) minus_one = S754_finite (negb s) m e.
Proof.
  intros Hb. apply andb_prop in Hb as [Hc He].
  unfold canonical_mantissa in Hc. apply Z.eqb_eq in Hc.
  change (F32.mul (S754_finite s m e) minus_one)
    with (binary_round_aux F32.prec F32.emax (xorb s true)
            (Zpos (m * 8388608)) (e + -23) loc_Exact).
  rewrite Pos.mul_comm.
  unfold binary_round_aux, shr_fexp.
  cbn [Zdigits2]. rewrite digits2_pos_shift23.
  replace (Z.pos (digits2_pos m) + 23 + (e + -23))
    with (Z.pos (digits2_pos m) + e) by lia.
  rewrite Hc. replace (e - (e + -23)) with 23 by lia.
  cbv [Pos.mul]. cbn.
  replace (e + -23 + 23) with e by lia. rewrite Hc, Z.sub_diag. cbn.
  rewrite He. by rewrite xorb_true_r.
Qed.

Lemma mul_minus_one (v : spec_float) :
  F32.valid v = true -> F32.mul v minus_one = SFopp v.
Proof.
  destruct v as [[]|[]| |s m e]; intros Hv; try reflexivity.
  by rewrite mul_minus_one_finite.
Qed.

Lemma step_ball_velocity (uniforms : UniformData) (b : Ball) :
  let p' := vec2_add (position b) (vec2_scale (velocity b) TIME_STEP) in
  velocity (step_ball uniforms b) =
    mk_vec2
      (if crosses (e0 p') (canvasWidth uniforms)
       then F32.mul (e0 (velocity b)) minus_one else e0 (velocity b))
      (if crosses (e1 p') (canvasHeight uniforms)
       then F32.mul (e1 (velocity b)) minus_one else e1 (velocity b)).
Proof.
  intros p'. subst p'. destruct b as [r [px py] [vx vy]].
  unfold step_ball, set_position, vec2_add, vec2_scale.
  cbn [position velocity radius e0 e1].
  destruct (crosses (F32.add px (F32.mul vx TIME_STEP)) (canvasWidth uniforms));
    unfold set_velocity0; cbn [position velocity radius e0 e1];
    destruct (crosses (F32.add py (F32.mul vy TIME_STEP)) (canvasHeight uniforms));
    reflexivity.
Qed.

(** The reflection tests read the position that is stored. *)
Lemma step_ball_reflects (uniforms : UniformData) (b : Ball) :
  let b' := step_ball uniforms b in
  e0 (velocity b') =
    (if crosses (e0 (position b')) (canvasWidth uniforms)
     then F32.mul (e0 (velocity b)) minus_one else e0 (velocity b))
  /\ e1 (velocity b') =
    (if crosses (e1 (position b')) (canvasHeight uniforms)
     then F32.mul (e1 (velocity b)) minus_one else e1 (velocity b)).
Proof.
  intros b'. subst b'. rewrite step_ball_velocity, step_ball_position.
  by cbn [e0 e1].
Qed.




(** ** Over-dispatch *)

(** C4: an invocation whose global id is at or beyond the particle count
    returns at once, leaving the output buffer as it is; hence a dispatch
    whose grid covers more slots than there are particles never touches
    memory outside the buffers, keeps the size of the output buffer, and ends
    with exactly the buffer that one invocation per particle produces. The
    dispatch of the frame loop, sized from the byte size of the buffer, is
    such an over-dispatch: 4800 invocations for 200 particles. *)
Theorem over_dispatch_is_harmless (uniforms : UniformData)
    (input output : buffer) :
  (length output <= length input)%nat ->
  (forall gid, (arrayLength output <= gid)%nat ->
     main uniforms input gid output = Some output)
  /\ (forall groups, (arrayLength output <= groups * workgroup_size)%nat ->
        exists output',
          dispatchWorkgroups uniforms input groups output = Some output'
          /\ length output' = length output
          /\ run_invocations uniforms input (seq 0 (arrayLength output)) output
               = Some output')
  /\ (length output = (BUFFER_SIZE / 4)%nat ->
        arrayLength output = numBalls
        /\ (ceil_div BUFFER_SIZE 64 * workgroup_size = 4800)%nat).
Proof.
  intros Hlen. split; [intros gid Hgid; by apply main_out_of_range|]. split.
  - intros groups Hg. unfold dispatchWorkgroups.
    replace (groups * workgroup_size)%nat
      with (arrayLength output + (groups * workgroup_size - arrayLength output))%nat
      by lia.
    rewrite seq_app, run_invocations_app.
    destruct (run_invocations_spec uniforms input (seq 0 (arrayLength output))
                output Hlen) as (o1 & -> & Hl & _).
    cbn [mbind option_bind]. exists o1.
    split; [|done]. apply run_invocations_out_of_range.
    assert (arrayLength o1 = arrayLength output) as ->
      by (unfold arrayLength; congruence).
    apply Forall_forall. intros gid Hin%elem_of_seq. lia.
  - intros H. unfold arrayLength. rewrite H. split; reflexivity.
Qed.

Lemma over_dispatch_is_harmless_witness :
  (forall gid, (arrayLength (new_Float32Array BUFFER_SIZE) <= gid)%nat ->
     main sample_uniforms sample_balls gid (new_Float32Array BUFFER_SIZE)
       = Some (new_Float32Array BUFFER_SIZE))
  /\ (forall groups,
        (arrayLength (new_Float32Array BUFFER_SIZE)
           <= groups * workgroup_size)%nat ->
        exists output',
          dispatchWorkgroups sample_uniforms sample_balls groups
            (new_Float32Array BUFFER_SIZE) = Some output'
          /\ length output' = length (new_Float32Array BUFFER_SIZE)
          /\ run_invocations sample_uniforms sample_balls
               (seq 0 (arrayLength (new_Float32Array BUFFER_SIZE)))
               (new_Float32Array BUFFER_SIZE)
               = Some output')
  /\ (length (new_Float32Array BUFFER_SIZE) = (BUFFER_SIZE / 4)%nat ->
        arrayLength (new_Float32Array BUFFER_SIZE) = numBalls
        /\ (ceil_div BUFFER_SIZE 64 * workgroup_size = 4800)%nat).
Proof.
  apply (over_dispatch_is_harmless sample_uniforms sample_balls
           (new_Float32Array BUFFER_SIZE)).
  vm_compute. lia.
Defined.

(** ** The frame loop *)

Lemma buffer_floats : (BUFFER_SIZE / 4)%nat = 1200%nat.
Proof. reflexivity. Qed.

Lemma dispatch_groups : ceil_div BUFFER_SIZE 64 = 75%nat.
Proof. reflexivity. Qed.

Lemma writeBuffer_whole (buf data : list spec_float) :
  length data = length buf -> writeBuffer buf data = Some data.
Proof.
  intros H. unfold writeBuffer. rewrite decide_True by lia.
  rewrite drop_ge by lia. by rewrite app_nil_r.
Qed.

Lemma copyBufferToBuffer_whole (src dst : list spec_float) (bytes : nat) :
  length src = (bytes / 4)%nat -> length dst = (bytes / 4)%nat ->
  copyBufferToBuffer src dst bytes = Some src.
Proof.
  intros Hs Hd. unfold copyBufferToBuffer. rewrite decide_True by lia.
  rewrite take_ge, drop_ge by lia. by rewrite app_nil_r.
Qed.

(** One iteration succeeds on well-sized buffers, keeps them well-sized, and
    makes every particle of the next [inputBalls] the kernel step of the
    particle at the same index. *)
Lemma frame_spec (uniforms : UniformData) (s : State) :
  buffers_sized s ->
  exists s', frame uniforms s = Some s'
    /\ buffers_sized s'
    /\ addColor s' = flip_addColor (color s) (addColor s)
    /\ color s' = update_color (color s) (addColor s')
    /\ forall i, (i < numBalls)%nat ->
         load_ball (inputBalls s') i
           = step_ball uniforms <$> load_ball (inputBalls s) i.
Proof.
  intros (Hi & Ho & Hs & Hb). unfold frame.
  rewrite writeBuffer_whole by congruence. cbn [mbind option_bind].
  unfold dispatchWorkgroups.
  destruct (run_invocations_spec uniforms (inputBalls s)
              (seq 0 (ceil_div BUFFER_SIZE 64 * workgroup_size)) (output s))
    as (out' & -> & Hl & Hload); [lia|].
  cbn [mbind option_bind].
  rewrite copyBufferToBuffer_whole by congruence. cbn [mbind option_bind].
  eexists. split; [reflexivity|]. unfold read_back, buffers_sized.
  cbn [input output stagingBuffer inputBalls color addColor].
  rewrite take_ge by lia. split; [repeat split; congruence|].
  split; [done|]. split; [done|].
  intros i Hlt. rewrite Hload. rewrite decide_True; [done|].
  assert (arrayLength (output s) = numBalls) as ->
    by (unfold arrayLength; rewrite Ho; reflexivity).
  split; [|done]. apply elem_of_seq. rewrite dispatch_groups.
  unfold numBalls, workgroup_size in *. lia.
Qed.

Lemma kept_refl (p : spec_float) : kept p p.
Proof. by left. Qed.

Lemma kept_trans (p q r : spec_float) : kept p q -> kept q r -> kept p r.
Proof.
  intros [->|[-> ->]] [->|[? ->]]; try discriminate; unfold kept; eauto.
Qed.

Lemma kept_same_number (p p' : spec_float) : kept p p' -> same_number p p'.
Proof. intros [->|[-> ->]]; [by left|by right]. Qed.

Lemma kept_exact (p p' : spec_float) :
  kept p p' -> p <> S754_zero true -> p' = p.
Proof. intros [->|[-> ->]] H; congruence. Qed.

(** Adding the product of a zero velocity and the time step keeps a
    coordinate. *)
Lemma add_zero_velocity (p v : spec_float) :
  is_zero v = true -> kept p (F32.add p (F32.mul v TIME_STEP)).
Proof.
  destruct v as [sv| | |]; try discriminate. intros _.
  destruct p as [[]|[]| |s m e], sv; cbn; unfold kept; eauto.
Qed.

Lemma flip_zero_velocity (v : spec_float) :
  is_zero v = true -> is_zero (F32.mul v minus_one) = true.
Proof. by destruct v as [[]| | |]. Qed.

Lemma step_ball_at_rest (uniforms : UniformData) (b : Ball) :
  is_zero (e0 (velocity b)) = true ->
  is_zero (e1 (velocity b)) = true ->
  kept (e0 (position b)) (e0 (position (step_ball uniforms b)))
  /\ kept (e1 (position b)) (e1 (position (step_ball uniforms b)))
  /\ is_zero (e0 (velocity (step_ball uniforms b))) = true
  /\ is_zero (e1 (velocity (step_ball uniforms b))) = true.
Proof.
  intros H0 H1. rewrite step_ball_position, step_ball_velocity.
  cbn [vec2_add vec2_scale e0 e1].
  split; [by apply add_zero_velocity|]. split; [by apply add_zero_velocity|].
  split; match goal with |- context [if ?c then _ else _] => destruct c end;
    auto using flip_zero_velocity.
Qed.

Lemma frames_at_rest (uniforms : UniformData) (N i : nat) :
  (i < numBalls)%nat ->
  forall (s : State) (b : Ball),
    buffers_sized s ->
    load_ball (inputBalls s) i = Some b ->
    is_zero (e0 (velocity b)) = true ->
    is_zero (e1 (velocity b)) = true ->
    exists s' b',
      frames N uniforms s = Some s'
      /\ load_ball (inputBalls s') i = Some b'
      /\ kept (e0 (position b)) (e0 (position b'))
      /\ kept (e1 (position b)) (e1 (position b')).
Proof.
  intros Hi. induction N as [|N IH]; intros s b Hs Hb H0 H1.
  - exists s, b. repeat split; [done|apply kept_refl..].
  - destruct (frame_spec uniforms s Hs) as (s1 & Hf & Hs1 & _ & _ & Hload).
    destruct (step_ball_at_rest uniforms b H0 H1) as (K0 & K1 & Z0 & Z1).
    destruct (IH s1 (step_ball uniforms b)) as (s' & b' & Hfs & Hb' & K0' & K1');
      [done|by rewrite Hload, Hb|done|done|].
    exists s', b'. cbn [frames]. rewrite Hf. cbn [mbind option_bind].
    repeat split; [done|done|by eapply kept_trans..].
Qed.

(** C5: a particle whose velocity is (0, 0) keeps its position through any
    number [N] of iterations of the frame loop, each iteration's read-back
    replacing [inputBalls] wholesale: the loop runs, and on both axes the
    particle's coordinate after [N] frames is the same number as before,
    indeed the same float unless it was the negative zero. *)
Theorem resting_particle_never_moves (uniforms : UniformData) (s : State)
    (N i : nat) (b : Ball) :
  (1 <= N)%nat ->
  buffers_sized s ->
  (i < numBalls)%nat ->
  load_ball (inputBalls s) i = Some b ->
  is_zero (e0 (velocity b)) = true ->
  is_zero (e1 (velocity b)) = true ->
  exists s' b',
    frames N uniforms s = Some s'
    /\ load_ball (inputBalls s') i = Some b'
    /\ same_number (e0 (position b)) (e0 (position b'))
    /\ same_number (e1 (position b)) (e1 (position b'))
    /\ (e0 (position b) <> S754_zero true ->
        e0 (position b') = e0 (position b))
    /\ (e1 (position b) <> S754_zero true ->
        e1 (position b') = e1 (position b)).
Proof.
  intros _ Hs Hi Hb H0 H1.
  destruct (frames_at_rest uniforms N i Hi s b Hs Hb H0 H1)
    as (s' & b' & Hf & Hb' & K0 & K1).
  exists s', b'.
  repeat split; auto using kept_same_number, kept_exact.
Qed.

Lemma resting_particle_never_moves_witness :
  exists s' b',
    frames 3 (init_uniforms (mk_Canvas 1000 800)) (initial_state sample_balls)
      = Some s'
    /\ load_ball (inputBalls s') 1 = Some b'
    /\ same_number (F32.of_int 20) (e0 (position b'))
    /\ same_number (F32.of_int 30) (e1 (position b'))
    /\ (F32.of_int 20 <> S754_zero true -> e0 (position b') = F32.of_int 20)
    /\ (F32.of_int 30 <> S754_zero true -> e1 (position b') = F32.of_int 30).
Proof.
  apply (resting_particle_never_moves (init_uniforms (mk_Canvas 1000 800))
           (initial_state sample_balls) 3 1
           (mk_Ball (F32.of_int 4) (mk_vec2 (F32.of_int 20) (F32.of_int 30))
              (mk_vec2 F32.zero F32.zero))).
  - lia.
  - repeat split; reflexivity.
  - unfold numBalls. lia.
  - reflexivity.
  - reflexivity.
  - reflexivity.
Defined.

(** ** Initialisation *)

Lemma init_body_length (rnd : nat -> spec_float) (cv : Canvas) (i k : nat)
    (a : list spec_float) :
  length (init_body rnd cv i k a) = length a.
Proof. unfold init_body. by rewrite !length_insert. Qed.

Lemma init_body_beyond (rnd : nat -> spec_float) (cv : Canvas) (i k j : nat)
    (a : list spec_float) :
  (i + 5 < j)%nat -> init_body rnd cv i k a !! j = a !! j.
Proof. intros H. unfold init_body. by lookup_inserts. Qed.

(** The loop ends within its fuel, keeps the size of the array, and writes no
    float at index 204 or beyond: its last iteration is the one at [i = 198]. *)
Lemma init_loop_spec (rnd : nat -> spec_float) (cv : Canvas) (fuel : nat) :
  forall (i k : nat) (a : list spec_float),
    (numBalls - i < fuel)%nat ->
    (i mod 6 = 0)%nat ->
    exists a', init_loop fuel rnd cv i k a = Some a'
      /\ length a' = length a
      /\ forall j, (204 <= j)%nat -> a' !! j = a !! j.
Proof.
  induction fuel as [|fuel IH]; intros i k a Hfuel Hmod; cbn [init_loop].
  - exfalso. lia.
  - destruct (decide (i < numBalls)%nat) as [Hlt|Hge].
    + destruct (IH (i + 6)%nat (k + 5)%nat (init_body rnd cv i k a))
        as (a' & -> & Hl & Hj); [lia| |].
      { change 6%nat with (1 * 6)%nat at 1. by rewrite Nat.Div0.mod_add. }
      exists a'. split; [done|]. rewrite init_body_length in Hl.
      split; [done|]. intros j Hj'. rewrite Hj by done.
      apply init_body_beyond.
      pose proof (Nat.div_mod_eq i 6). unfold numBalls in Hlt. lia.
    + eauto.
Qed.

Lemma init_body_below (rnd : nat -> spec_float) (cv : Canvas) (i k j : nat)
    (a : list spec_float) :
  (j < i)%nat -> init_body rnd cv i k a !! j = a !! j.
Proof. intros H. unfold init_body. by lookup_inserts. Qed.

Lemma init_body_ball (rnd : nat -> spec_float) (cv : Canvas) (q : nat)
    (a : list spec_float) :
  (6 * q + 5 < length a)%nat ->
  load_ball (init_body rnd cv (6 * q) (5 * q) a) q = Some (init_ball rnd cv q).
Proof.
  intros H. unfold load_ball, init_body, stride.
  rewrite !Nat.add_0_r. by lookup_inserts.
Qed.

(** Iteration [q] of the loop writes particle [q]; later iterations leave it
    alone. *)
Lemma init_loop_written (rnd : nat -> spec_float) (cv : Canvas) (fuel : nat) :
  forall (q0 : nat) (a : list spec_float),
    (numBalls - 6 * q0 < fuel)%nat ->
    (numBalls + 5 < length a)%nat ->
    exists a', init_loop fuel rnd cv (6 * q0) (5 * q0) a = Some a'
      /\ length a' = length a
      /\ (forall j, (j < 6 * q0)%nat -> a' !! j = a !! j)
      /\ (forall q, (q0 <= q)%nat -> (6 * q < numBalls)%nat ->
            load_ball a' q = Some (init_ball rnd cv q)).
Proof.
  induction fuel as [|fuel IH]; intros q0 a Hfuel Hlen; cbn [init_loop].
  - exfalso. lia.
  - destruct (decide (6 * q0 < numBalls)%nat) as [Hlt|Hge].
    + replace (6 * q0 + 6)%nat with (6 * S q0)%nat by lia.
      replace (5 * q0 + 5)%nat with (5 * S q0)%nat by lia.
      destruct (IH (S q0) (init_body rnd cv (6 * q0) (5 * q0) a))
        as (a' & -> & Hl & Hbelow & Hballs);
        [lia|by rewrite init_body_length|].
      rewrite init_body_length in Hl.
      exists a'. split; [done|]. split; [done|]. split.
      * intros j Hj. rewrite Hbelow by lia. by apply init_body_below.
      * intros q Hq Hqn. destruct (decide (q = q0)) as [->|Hne].
        -- rewrite <- (init_body_ball rnd cv q0 a) by lia.
           unfold load_ball, stride. by rewrite !Hbelow by lia.
        -- apply Hballs; lia.
    + exists a. split; [done|]. split; [done|]. split; [done|].
      intros q Hq Hqn. lia.
Qed.

(** X20. The loop runs 34 times: it sets the particles 0..33, particle [q]
    from the draws [5 * q .. 5 * q + 4]. *)
Lemma init_sets_first_particles (rnd : nat -> spec_float) (cv : Canvas) :
  exists a,
    init_inputBalls rnd cv = Some a
    /\ forall q, (q < 34)%nat -> load_ball a q = Some (init_ball rnd cv q).
Proof.
  unfold init_inputBalls.
  destruct (init_loop_written rnd cv (S numBalls) 0 (new_Float32Array BUFFER_SIZE))
    as (a & Ha & _ & _ & Hb).
  - lia.
  - unfold new_Float32Array. rewrite length_replicate, buffer_floats.
    unfold numBalls. lia.
  - exists a. split; [exact Ha|]. intros q Hq. apply Hb; [lia|].
    unfold numBalls. lia.
Qed.

(** C3 fails on the code: the initialisation loop runs [i] from 0 in steps of
    six while [i < numBalls], so it fills the floats 0..203, which are the
    particles 0..33; the particles 34..199 keep the zeros of the fresh array,
    and their radius 0 is below 2. *)
Theorem init_leaves_particles_unset (rnd : nat -> spec_float) (cv : Canvas) :
  exists a,
    init_inputBalls rnd cv = Some a
    /\ length a = (BUFFER_SIZE / 4)%nat
    /\ (forall i, (34 <= i < numBalls)%nat -> load_ball a i = Some zero_ball)
    /\ F32.ge (radius zero_ball) (F32.of_int 2) = false.
Proof.
  unfold init_inputBalls.
  destruct (init_loop_spec rnd cv (S numBalls) 0 0
              (new_Float32Array BUFFER_SIZE)) as (a & -> & Hl & Hj);
    [lia|reflexivity|].
  exists a. split; [done|]. split; [by rewrite Hl|]. split; [|reflexivity].
  intros i [Hlo Hhi]. unfold load_ball, stride, numBalls in *.
  rewrite !Hj by lia. unfold new_Float32Array. rewrite buffer_floats.
  by rewrite !lookup_replicate_2 by lia.
Qed.

(** ** Colour *)

Lemma frames_color (uniforms : UniformData) (n : nat) :
  forall s, buffers_sized s ->
    exists s', frames n uniforms s = Some s'
      /\ buffers_sized s'
      /\ (color s', addColor s') = color_after n (color s) (addColor s).
Proof.
  induction n as [|n IH]; intros s Hs; cbn [frames color_after].
  - by exists s.
  - destruct (frame_spec uniforms s Hs) as (s1 & Hf & Hs1 & Ha & Hc1 & _).
    rewrite Hf. cbn [mbind option_bind].
    destruct (IH s1 Hs1) as (s' & -> & Hs' & Hc). exists s'.
    split; [done|]. split; [done|]. by rewrite Hc, Hc1, Ha.
Qed.

(** The red channel is never assigned. *)
Lemma color_after_red (n : nat) :
  forall c add, color0 (fst (color_after n c add)) = color0 c.
Proof.
  induction n as [|n IH]; intros c add; cbn [color_after]; [done|].
  by rewrite IH.
Qed.

(** C7 fails on the code: the direction is reversed when green is at or
    above 255 but only when it is strictly below 0, so on the way down the
    loop steps past 0. Started from [color = [255, 0, 0]] and
    [addColor = 0.5], the 1021st iteration leaves green and blue at -0.5,
    outside [0, 255]; red is still 255. *)
Theorem color_leaves_range (uniforms : UniformData) (balls : list spec_float) :
  length balls = (BUFFER_SIZE / 4)%nat ->
  exists s',
    frames 1021 uniforms (initial_state balls) = Some s'
    /\ color s' = mk_Color (F64.of_int 255) minus_one_half minus_one_half
    /\ F64.lt (color1 (color s')) (F64.of_int 0) = true.
Proof.
  intros Hb.
  destruct (frames_color uniforms 1021 (initial_state balls))
    as (s' & Hf & _ & Hc); [by repeat split|].
  exists s'. split; [done|].
  cbn [initial_state color addColor] in Hc.
  assert (color_after 1021 initial_color one_half
          = (mk_Color (F64.of_int 255) minus_one_half minus_one_half,
             minus_one_half)) as E by (vm_compute; reflexivity).
  rewrite E in Hc. injection Hc as -> _. split; reflexivity.
Qed.

Lemma color_leaves_range_witness :
  exists s',
    frames 1021 sample_uniforms (initial_state sample_balls) = Some s'
    /\ color s' = mk_Color (F64.of_int 255) minus_one_half minus_one_half
    /\ F64.lt (color1 (color s')) (F64.of_int 0) = true.
Proof.
  apply (color_leaves_range sample_uniforms sample_balls). reflexivity.
Defined.

(** ** Adding colour triplets *)

Section AddHexColor.
Local Open Scope string_scope.

Lemma match_octets_spec (s : string) :
  match match_octets s with
  | Some (a, b, c) =>
      hex_triplet s = true
      /\ a = octet_text s 0 /\ b = octet_text s 1 /\ c = octet_text s 2
  | None => hex_triplet s = false
  end.
Proof.
  destruct s as [|a [|b [|c [|d [|e [|f [|g s]]]]]]]; try reflexivity.
  unfold match_octets, hex_triplet.
  cbn [String.length Nat.eqb list_ascii_of_string forallb andb].
  destruct (is_hex_digit a), (is_hex_digit b), (is_hex_digit c),
    (is_hex_digit d), (is_hex_digit e), (is_hex_digit f);
    cbn [andb]; try reflexivity.
  repeat split.
Qed.

Lemma renders_as_octet_all (n : nat) :
  (n <= 255)%nat -> renders_as_octet n = true.
Proof.
  intros H.
  assert (forallb renders_as_octet (seq 0 256) = true) as A
    by (vm_compute; reflexivity).
  rewrite forallb_forall in A. apply A. apply in_seq. lia.
Qed.

Lemma render_octet (n : nat) :
  (n <= 255)%nat ->
  exists x y,
    padStart2 (toString16 n) = String x (String y EmptyString)
    /\ is_hex_digit x = true /\ is_hex_digit y = true
    /\ parseInt16 (String x (String y EmptyString)) = n.
Proof.
  intros H%renders_as_octet_all. unfold renders_as_octet in H.
  destruct (padStart2 (toString16 n)) as [|x [|y [|z r]]]; try discriminate.
  apply andb_prop in H as [H Hn]. apply andb_prop in H as [Hx Hy].
  apply Nat.eqb_eq in Hn. by exists x, y.
Qed.

(** [toString16] reads back as the number it renders, over every sum of two
    octets. *)
Lemma toString16_reads_back (n : nat) :
  (n <= 510)%nat -> parseInt16 (toString16 n) = n.
Proof.
  intros H.
  assert (forallb (fun k => parseInt16 (toString16 k) =? k)%nat (seq 0 511) = true)
    as A by (vm_compute; reflexivity).
  rewrite forallb_forall in A. apply Nat.eqb_eq, A, in_seq. lia.
Qed.

Lemma add_octet_cases (i : nat) (o1 o2 : string) :
  let sum := (parseInt16 o1 + parseInt16 o2)%nat in
  ((255 < sum)%nat
   /\ add_octet i o1 o2
      = Throw ("octet " ++ octet_index i ++ " overflow: " ++ o1 ++ "+" ++ o2
               ++ "=" ++ toString16 sum))
  \/ ((sum <= 255)%nat
      /\ add_octet i o1 o2 = Return (padStart2 (toString16 sum))).
Proof.
  intros sum. unfold add_octet. fold sum.
  destruct (255 <? sum)%nat eqn:E.
  - left. apply Nat.ltb_lt in E. by split.
  - right. apply Nat.ltb_ge in E. by split.
Qed.

Lemma joined_octets (x0 y0 x1 y1 x2 y2 : ascii) :
  let r := String x0 (String y0 EmptyString)
           ++ String x1 (String y1 EmptyString)
           ++ String x2 (String y2 EmptyString) in
  is_hex_digit x0 = true -> is_hex_digit y0 = true ->
  is_hex_digit x1 = true -> is_hex_digit y1 = true ->
  is_hex_digit x2 = true -> is_hex_digit y2 = true ->
  hex_triplet r = true
  /\ octet_text r 0 = String x0 (String y0 EmptyString)
  /\ octet_text r 1 = String x1 (String y1 EmptyString)
  /\ octet_text r 2 = String x2 (String y2 EmptyString).
Proof.
  intros r H0 H0' H1 H1' H2 H2'. subst r. unfold hex_triplet.
  cbn [append String.length Nat.eqb list_ascii_of_string forallb].
  rewrite H0, H0', H1, H1', H2, H2'. repeat split.
Qed.

(** C9: [addHexColor] throws exactly when an argument is not a string of six
    hexadecimal digits or two corresponding octets sum to more than 0xff; the
    message then carries the offending text (both arguments, or the index,
    the two octets and their sum); otherwise the result is the six-digit
    string whose octets are the sums, never a clamped value. *)
Theorem addHexColor_spec (c1 c2 : string) :
  ((exists msg, addHexColor c1 c2 = Throw msg) <->
     (hex_triplet c1 = false \/ hex_triplet c2 = false
      \/ exists k, (k < 3)%nat /\ (255 < octet c1 k + octet c2 k)%nat))
  /\ (forall msg, addHexColor c1 c2 = Throw msg ->
        ((hex_triplet c1 = false \/ hex_triplet c2 = false)
         /\ msg = "invalid hex color triplet(s): " ++ c1 ++ " / " ++ c2)
        \/ (exists k, (k < 3)%nat
              /\ (255 < octet c1 k + octet c2 k)%nat
              /\ msg = "octet " ++ octet_index (k + 1) ++ " overflow: "
                       ++ octet_text c1 k ++ "+" ++ octet_text c2 k ++ "="
                       ++ toString16 (octet c1 k + octet c2 k)))
  /\ (forall r, addHexColor c1 c2 = Return r ->
        hex_triplet r = true
        /\ forall k, (k < 3)%nat -> octet r k = (octet c1 k + octet c2 k)%nat).
Proof.
  unfold addHexColor.
  pose proof (match_octets_spec c1) as M1.
  pose proof (match_octets_spec c2) as M2.
  destruct (match_octets c1) as [[[a1 a2] a3]|];
    [destruct (match_octets c2) as [[[b1 b2] b3]|]|].
  - destruct M1 as (T1 & -> & -> & ->), M2 as (T2 & -> & -> & ->).
    fold (octet c1 0) (octet c1 1) (octet c1 2).
    destruct (add_octet_cases 1 (octet_text c1 0) (octet_text c2 0))
      as [[L0 ->]|[L0 ->]]; cbn [bind_result];
      [|destruct (add_octet_cases 2 (octet_text c1 1) (octet_text c2 1))
          as [[L1 ->]|[L1 ->]]; cbn [bind_result];
        [|destruct (add_octet_cases 3 (octet_text c1 2) (octet_text c2 2))
            as [[L2 ->]|[L2 ->]]; cbn [bind_result]]].
    + split; [split; [intros _|eauto]|split; [|discriminate]].
      * right. right. exists 0%nat. split; [lia|exact L0].
      * intros msg [= <-]. right. exists 0%nat. repeat split; [lia|exact L0].
    + split; [split; [intros _|eauto]|split; [|discriminate]].
      * right. right. exists 1%nat. split; [lia|exact L1].
      * intros msg [= <-]. right. exists 1%nat. repeat split; [lia|exact L1].
    + split; [split; [intros _|eauto]|split; [|discriminate]].
      * right. right. exists 2%nat. split; [lia|exact L2].
      * intros msg [= <-]. right. exists 2%nat. repeat split; [lia|exact L2].
    + split; [split|split; [discriminate|]].
      * intros [msg ?]. discriminate.
      * intros [?|[?|(k & Hk & Hov)]]; [congruence..|]. exfalso.
        unfold octet in Hov.
        destruct k as [|[|[|k]]]; lia.
      * intros r [= <-].
        destruct (render_octet _ L0) as (x0 & y0 & -> & Hx0 & Hy0 & P0).
        destruct (render_octet _ L1) as (x1 & y1 & -> & Hx1 & Hy1 & P1).
        destruct (render_octet _ L2) as (x2 & y2 & -> & Hx2 & Hy2 & P2).
        destruct (joined_octets x0 y0 x1 y1 x2 y2) as (T & O0 & O1 & O2);
          try done.
        split; [exact T|]. intros k Hk. unfold octet at 1.
        destruct k as [|[|[|k]]]; [rewrite O0|rewrite O1|rewrite O2|lia]; done.
  - split; [split; [intros _; by right; left|eauto]|split; [|discriminate]].
    intros msg [= <-]. left. split; [by right|done].
  - split; [split; [intros _; by left|eauto]|split; [|discriminate]].
    intros msg [= <-]. left. split; [by left|done].
Qed.

End AddHexColor.

(** ** Rounding of binary64 operations *)

(** [digits2_pos m] is the number of bits of [m]. *)
Lemma digits2_pos_bounds (m : positive) :
  2 ^ (Zpos (digits2_pos m) - 1) <= Zpos m < 2 ^ Zpos (digits2_pos m).
Proof.
  induction m as [m IH|m IH|]; cbn [digits2_pos].
  - rewrite Pos2Z.inj_succ. change (Zpos m~1) with (2 * Zpos m + 1).
    replace (Z.succ (Zpos (digits2_pos m)) - 1)
      with (Z.succ (Zpos (digits2_pos m) - 1)) by lia.
    rewrite !Z.pow_succ_r by lia.
    destruct IH. split; lia.
  - rewrite Pos2Z.inj_succ. change (Zpos m~0) with (2 * Zpos m).
    replace (Z.succ (Zpos (digits2_pos m)) - 1)
      with (Z.succ (Zpos (digits2_pos m) - 1)) by lia.
    rewrite !Z.pow_succ_r by lia.
    destruct IH. split; lia.
  - cbn. lia.
Qed.

(** One step of [shr_1] shifts by one more bit and keeps the location of the
    remainder up to date. *)
Lemma shr_1_shifted (M k : Z) (mrs : shr_record) :
  0 <= k -> shifted M k mrs -> shifted M (k + 1) (shr_1 mrs).
Proof.
  intros Hk (Hm & Hle & Hloc). unfold shifted.
  rewrite Z.pow_add_r, Z.pow_1_r by lia.
  pose proof (Z.pow_pos_nonneg 2 k ltac:(lia) Hk) as HP.
  set (P := 2 ^ k) in *. clearbody P.
  destruct mrs as [m r s]. cbn [shr_m shr_r shr_s] in *.
  destruct m as [|[p|p|]|p]; try lia;
    destruct r, s; cbn [shr_1 shr_m shr_r shr_s orb located] in *;
    lia.
Qed.

(** And so do [n] steps. *)
Lemma iter_shr_1_shifted (M : Z) (n : positive) :
  forall k mrs, 0 <= k -> shifted M k mrs ->
    shifted M (k + Zpos n) (SpecFloat.iter_pos shr_1 n mrs).
Proof.
  induction n as [n IH|n IH|]; intros k mrs Hk H; cbn [SpecFloat.iter_pos].
  - replace (k + Zpos n~1) with (k + 1 + Zpos n + Zpos n) by lia.
    apply IH; [lia|]. apply IH; [lia|]. by apply shr_1_shifted.
  - replace (k + Zpos n~0) with (k + Zpos n + Zpos n) by lia.
    apply IH; [lia|]. by apply IH.
  - by apply shr_1_shifted.
Qed.

Lemma fexp64 (x : Z) : fexp 53 1024 x = Z.max (x - 53) (-1074).
Proof. reflexivity. Qed.

Lemma Zdigits2_bounds (x : Z) :
  0 < x -> 2 ^ (Zdigits2 x - 1) <= x < 2 ^ Zdigits2 x.
Proof.
  destruct x as [|p|p]; try lia. intros _. apply digits2_pos_bounds.
Qed.

Lemma pow2_pos (k : Z) : 0 <= k -> 0 < 2 ^ k.
Proof. intros. apply Z.pow_pos_nonneg; lia. Qed.

Lemma pow2_lt_inv (a b : Z) : 0 <= b -> 2 ^ a < 2 ^ b -> a < b.
Proof. intros Hb H. apply (Z.pow_lt_mono_r_iff 2); lia. Qed.

Lemma pow2_le (a b : Z) : 0 <= a <= b -> 2 ^ a <= 2 ^ b.
Proof. intros. apply Z.pow_le_mono_r; lia. Qed.

Lemma pow2_split (a b : Z) : 0 <= a -> 0 <= b -> 2 ^ (a + b) = 2 ^ a * 2 ^ b.
Proof. intros. apply Z.pow_add_r; lia. Qed.

(** The first shift of [binary_round_aux]. *)
Lemma first_shift (m : positive) (e n : Z) :
  n = fexp 53 1024 (Zpos (digits2_pos m) + e) - e ->
  0 <= n ->
  exists q r s,
    shr_fexp 53 1024 (Zpos m) e loc_Exact = (Build_shr_record q r s, e + n)
    /\ 0 <= q /\ q * 2 ^ n <= Zpos m
    /\ located r s (Zpos m - q * 2 ^ n) (2 ^ n)
    /\ q < 2 ^ 53
    /\ (-1074 < e + n -> 2 ^ 52 <= q).
Proof.
  intros Hn Hn0. unfold shr_fexp. cbn [Zdigits2]. rewrite <- Hn.
  pose proof (digits2_pos_bounds m) as [Dlo Dhi].
  rewrite fexp64 in Hn.
  set (d := Zpos (digits2_pos m)) in *.
  assert (0 < d) as Hd by (subst d; lia).
  assert (exists q r s,
    shr (shr_record_of_loc (Z.pos m) loc_Exact) e n = (Build_shr_record q r s, e + n)
    /\ 0 <= q /\ q * 2 ^ n <= Zpos m
    /\ located r s (Zpos m - q * 2 ^ n) (2 ^ n)) as (q & r & s & -> & Hq & Hle & Hloc).
  { destruct n as [|p|p]; [| |lia].
    - exists (Zpos m), false, false. cbn [shr shr_record_of_loc located].
      rewrite Z.add_0_r, Z.pow_0_r. repeat split; lia.
    - pose proof (iter_shr_1_shifted (Zpos m) p 0
                    (Build_shr_record (Zpos m) false false)) as H.
      destruct H as (H1 & H2 & H3); [lia| |].
      { unfold shifted. cbn [shr_m shr_r shr_s located]. rewrite Z.pow_0_r. lia. }
      cbn [shr shr_record_of_loc].
      destruct (SpecFloat.iter_pos shr_1 p _) as [q r s].
      cbn [shr_m shr_r shr_s] in *. rewrite Z.add_0_l in *.
      exists q, r, s. repeat split; try lia.
      replace (q * 2 ^ Z.pos p) with (2 ^ Z.pos p * q) by lia. exact H3. }
  exists q, r, s. split; [reflexivity|]. repeat split; try assumption.
  - assert (2 ^ d <= 2 ^ (53 + n)) as H by (apply pow2_le; lia).
    rewrite pow2_split in H by lia.
    pose proof (pow2_pos n Hn0). nia.
  - intros Hnorm. assert (d - 1 = 52 + n) as E by lia.
    rewrite E, pow2_split in Dlo by lia.
    pose proof (pow2_pos n Hn0).
    assert (Zpos m < (q + 1) * 2 ^ n) as Hlt.
    { destruct r, s; cbn [located] in Hloc; lia. }
    nia.
Qed.

(** Rounding to nearest, ties to even, keeps the truncated mantissa up to
    the half and takes its successor from the half on. *)
Lemma round_nearest_even_rounded (q R P : Z) (r s : bool) :
  0 < P -> located r s R P ->
  rounded q R P
    (round_nearest_even q (loc_of_shr_record (Build_shr_record q r s))).
Proof.
  unfold rounded. destruct r, s; cbn [located loc_of_shr_record round_nearest_even];
    intros HP H; destruct (Z.even q); cbv beta iota; lia.
Qed.

(** A mantissa of at most 53 bits, of exactly 53 bits above the smallest
    exponent, is canonical. *)
Lemma canonical64 (mz : positive) (ez : Z) :
  -1074 <= ez -> Zpos mz < 2 ^ 53 -> (-1074 < ez -> 2 ^ 52 <= Zpos mz) ->
  canonical_mantissa 53 1024 mz ez = true.
Proof.
  intros He Hhi Hlo. unfold canonical_mantissa. apply Z.eqb_eq.
  rewrite fexp64. pose proof (digits2_pos_bounds mz) as [Dlo Dhi].
  set (d := Zpos (digits2_pos mz)) in *.
  assert (d - 1 < 53) by (apply pow2_lt_inv; lia).
  destruct (Z.eq_dec ez (-1074)) as [->|Hne]; [lia|].
  assert (52 < d) by (apply pow2_lt_inv; lia). lia.
Qed.

(** The final stage of [binary_round_aux]: a mantissa that fits, or the
    single carry 2^53. *)
Lemma final_stage (s : bool) (m2 e1 : Z) :
  -1074 <= e1 -> 0 <= m2 <= 2 ^ 53 -> (-1074 < e1 -> 2 ^ 52 <= m2) ->
  result_is s
    (let '(mrs'', e'') := shr_fexp 53 1024 m2 e1 loc_Exact in
     match shr_m mrs'' with
     | 0 => S754_zero s
     | Zpos m => if e'' <=? 1024 - 53 then S754_finite s m e'' else S754_infinity s
     | _ => S754_nan
     end)
    (m2 * 2 ^ (e1 + 1074)).
Proof.
  intros He [Hlo Hhi] Hnorm. unfold result_is.
  pose proof (pow2_pos (e1 + 1074) ltac:(lia)) as HP.
  destruct (Z.eq_dec m2 (2 ^ 53)) as [->|Hne].
  - (* carry *)
    unfold shr_fexp. change (Zdigits2 (2 ^ 53)) with 54.
    replace (fexp 53 1024 (54 + e1) - e1) with 1 by (rewrite fexp64; lia).
    change (2 ^ 53) with 9007199254740992.
    cbn [shr_record_of_loc shr SpecFloat.iter_pos shr_1 shr_m].
    change (1024 - 53) with 971.
    assert (2 ^ (e1 + 1 + 1074) = 2 * 2 ^ (e1 + 1074)) as E
      by (replace (e1 + 1 + 1074) with (Z.succ (e1 + 1074)) by lia;
          apply Z.pow_succ_r; lia).
    destruct (Z.leb_spec (e1 + 1) 971) as [Hfin|Hinf].
    + split.
      * cbn [valid_binary]. unfold bounded. apply andb_true_intro. split.
        -- apply canonical64; [lia|reflexivity|]. intros _. reflexivity.
        -- apply Z.leb_le. change (1024 - 53) with 971. lia.
      * right. left. split.
        -- assert (2 ^ (e1 + 1074) <= 2 ^ 2044) by (apply pow2_le; lia).
           change (2 ^ 2098) with (9007199254740992 * (2 * 2 ^ 2044)). lia.
        -- exists 4503599627370496%positive, (e1 + 1). split; [reflexivity|].
           rewrite E. lia.
    + split; [reflexivity|]. right. right. split; [|reflexivity].
      assert (2 ^ 2045 <= 2 ^ (e1 + 1074)) by (apply pow2_le; lia).
      change (2 ^ 2098) with (9007199254740992 * 2 ^ 2045). lia.
  - assert (m2 < 2 ^ 53) as Hlt by lia.
    unfold shr_fexp.
    assert (fexp 53 1024 (Zdigits2 m2 + e1) - e1 <= 0) as Hn2.
    { rewrite fexp64. destruct (Z.eq_dec m2 0) as [->|H0]; [cbn; lia|].
      pose proof (Zdigits2_bounds m2 ltac:(lia)) as [Dlo Dhi].
      assert (Zdigits2 m2 - 1 < 53) by (apply pow2_lt_inv; lia). lia. }
    assert (shr (shr_record_of_loc m2 loc_Exact) e1
              (fexp 53 1024 (Zdigits2 m2 + e1) - e1)
            = (Build_shr_record m2 false false, e1)) as ->.
    { destruct (fexp 53 1024 (Zdigits2 m2 + e1) - e1); [reflexivity|lia|reflexivity]. }
    cbn [shr_m]. change (1024 - 53) with 971.
    destruct m2 as [|mz|mz]; [|clear Hlo|lia].
    + split; [reflexivity|]. left. split; [lia|reflexivity].
    + destruct (Z.leb_spec e1 971) as [Hfin|Hinf].
      * split.
        -- cbn [valid_binary]. unfold bounded. apply andb_true_intro. split.
           ++ apply canonical64; assumption.
           ++ apply Z.leb_le. change (1024 - 53) with 971. lia.
        -- right. left. split; [|eauto].
           assert (2 ^ (e1 + 1074) <= 2 ^ 2045) by (apply pow2_le; lia).
           change (2 ^ 2098) with (2 ^ 53 * 2 ^ 2045). nia.
      * split; [reflexivity|]. right. right. split; [|reflexivity].
        assert (2 ^ 2046 <= 2 ^ (e1 + 1074)) by (apply pow2_le; lia).
        change (2 ^ 2098) with (2 ^ 52 * 2 ^ 2046).
        specialize (Hnorm ltac:(lia)). nia.
Qed.

(** [binary_round_aux] on an exact mantissa that needs a shift of [n >= 0]
    bits: the result carries the rounded mantissa at exponent [e + n]. *)
Lemma round_aux_char (s : bool) (m : positive) (e n : Z) :
  n = fexp 53 1024 (Zpos (digits2_pos m) + e) - e ->
  0 <= n ->
  exists q m2,
    0 <= q /\ q * 2 ^ n <= Zpos m < (q + 1) * 2 ^ n
    /\ rounded q (Zpos m - q * 2 ^ n) (2 ^ n) m2
    /\ q < 2 ^ 53 /\ (-1074 < e + n -> 2 ^ 52 <= q) /\ -1074 <= e + n
    /\ result_is s (binary_round_aux 53 1024 s (Zpos m) e loc_Exact)
         (m2 * 2 ^ (e + n + 1074)).
Proof.
  intros Hn Hn0.
  destruct (first_shift m e n Hn Hn0)
    as (q & r & s' & Hshr & Hq & Hle & Hloc & Hhi & Hnorm).
  pose proof (pow2_pos n Hn0) as HP.
  pose proof (round_nearest_even_rounded q _ _ r s' HP Hloc) as Hr.
  set (m2 := round_nearest_even q _) in *.
  exists q, m2.
  assert (Zpos m < (q + 1) * 2 ^ n) as Hlt
    by (destruct r, s'; cbn [located] in Hloc; lia).
  assert (-1074 <= e + n) as He1 by (rewrite Hn, fexp64; lia).
  split; [exact Hq|]. split; [split; [exact Hle|exact Hlt]|].
  split; [exact Hr|]. split; [exact Hhi|]. split; [exact Hnorm|].
  split; [exact He1|].
  unfold binary_round_aux. rewrite Hshr. cbn [shr_m]. fold m2.
  apply final_stage; [assumption| |].
  - destruct Hr as [[-> _]|[-> _]]; lia.
  - intros H. specialize (Hnorm H). destruct Hr as [[-> _]|[-> _]]; lia.
Qed.

(** What [bounded] says of a binary64 mantissa and exponent. *)
Lemma bounded64 (m : positive) (e : Z) :
  bounded 53 1024 m e = true ->
  -1074 <= e <= 971 /\ Zpos m < 2 ^ 53 /\ (-1074 < e -> 2 ^ 52 <= Zpos m).
Proof.
  intros H. apply andb_prop in H as [Hc He].
  apply Z.leb_le in He. change (1024 - 53) with 971 in He.
  unfold canonical_mantissa in Hc. apply Z.eqb_eq in Hc. rewrite fexp64 in Hc.
  pose proof (digits2_pos_bounds m) as [Dlo Dhi].
  set (d := Zpos (digits2_pos m)) in *.
  split; [lia|]. split.
  - assert (2 ^ d <= 2 ^ 53) by (apply pow2_le; lia). lia.
  - intros Hn. assert (d = 53) as E by lia. rewrite E in Dlo. exact Dlo.
Qed.

(** A rounding is at least every representable magnitude that the exact
    value is at least. *)
Lemma on_grid_lower (Xf V Y : Z) :
  on_grid Xf V -> repr64 Y -> Y * 2 ^ 1074 <= Xf -> Y <= V.
Proof.
  intros (q & m2 & E1 & HE & [Hq0 Hq] & Hnorm & [Hlo Hhi] & Hr & ->).
  rewrite (pow2_split E1 1074) in * by lia.
  pose proof (pow2_pos E1 HE) as HG.
  pose proof (pow2_pos 1074 ltac:(lia)) as HT.
  set (G := 2 ^ E1) in *. set (T := 2 ^ 1074) in *.
  assert (q <= m2) as Hqm2 by (destruct Hr as [[-> _]|[-> _]]; lia).
  assert (q * G <= m2 * G) by (apply Z.mul_le_mono_nonneg_r; lia).
  intros [->|(my & ey & Hb & ->)] Hle.
  { apply Z.mul_nonneg_nonneg; lia. }
  apply bounded64 in Hb as (Hey & Hmy & Hmyn).
  destruct (Z.le_gt_cases E1 (ey + 1074)) as [Hc|Hc].
  - assert (2 ^ (ey + 1074) = 2 ^ (ey + 1074 - E1) * G) as EB
      by (unfold G; rewrite <- pow2_split by lia; f_equal; lia).
    rewrite EB in *. clear EB.
    pose proof (pow2_pos (ey + 1074 - E1) ltac:(lia)) as HH.
    set (K := 2 ^ (ey + 1074 - E1)) in *.
    assert (Zpos my * K * (G * T) < (q + 1) * (G * T)) as H1 by lia.
    assert (Zpos my * K < q + 1) as H2
      by (apply (Z.mul_lt_mono_pos_r (G * T)); lia).
    assert (Zpos my * K * G <= q * G)
      by (apply Z.mul_le_mono_nonneg_r; lia).
    lia.
  - specialize (Hnorm ltac:(lia)).
    assert (2 ^ (53 + (ey + 1074)) <= 2 ^ (52 + E1)) as H1
      by (apply pow2_le; lia).
    rewrite (pow2_split 53), (pow2_split 52) in H1 by lia. fold G in H1.
    pose proof (pow2_pos (ey + 1074) ltac:(lia)) as HY.
    set (B := 2 ^ (ey + 1074)) in *.
    assert (Zpos my * B <= 2 ^ 53 * B) by (apply Z.mul_le_mono_nonneg_r; lia).
    assert (2 ^ 52 * G <= q * G) by (apply Z.mul_le_mono_nonneg_r; lia).
    lia.
Qed.

(** A rounding is at most every representable magnitude that the exact
    value is at most. *)
Lemma on_grid_upper (Xf V Y : Z) :
  on_grid Xf V -> 0 < Xf -> repr64 Y -> Xf <= Y * 2 ^ 1074 -> V <= Y.
Proof.
  intros (q & m2 & E1 & HE & [Hq0 Hq] & Hnorm & [Hlo Hhi] & Hr & ->) HX.
  rewrite (pow2_split E1 1074) in * by lia.
  pose proof (pow2_pos E1 HE) as HG.
  pose proof (pow2_pos 1074 ltac:(lia)) as HT.
  set (G := 2 ^ E1) in *. set (T := 2 ^ 1074) in *.
  intros [->|(my & ey & Hb & ->)] Hle; [lia|].
  apply bounded64 in Hb as (Hey & Hmy & Hmyn).
  destruct (Z.le_gt_cases E1 (ey + 1074)) as [Hc|Hc].
  - assert (2 ^ (ey + 1074) = 2 ^ (ey + 1074 - E1) * G) as EB
      by (unfold G; rewrite <- pow2_split by lia; f_equal; lia).
    rewrite EB in *. clear EB.
    pose proof (pow2_pos (ey + 1074 - E1) ltac:(lia)) as HH.
    set (K := 2 ^ (ey + 1074 - E1)) in *.
    assert (q * (G * T) <= Zpos my * K * (G * T)) as H1 by lia.
    assert (q <= Zpos my * K) as H2
      by (apply (Z.mul_le_mono_pos_r _ _ (G * T)); lia).
    assert (m2 <= Zpos my * K) as H3.
    { destruct Hr as [[-> _]|[-> Hh]]; [exact H2|].
      assert (q * (G * T) < Zpos my * K * (G * T)) as H4 by lia.
      assert (q < Zpos my * K)
        by (apply (Z.mul_lt_mono_pos_r (G * T)); lia).
      lia. }
    assert (m2 * G <= Zpos my * K * G)
      by (apply Z.mul_le_mono_nonneg_r; lia).
    lia.
  - exfalso. specialize (Hnorm ltac:(lia)).
    assert (2 ^ (53 + (ey + 1074)) <= 2 ^ (52 + E1)) as H1
      by (apply pow2_le; lia).
    rewrite (pow2_split 53), (pow2_split 52) in H1 by lia. fold G in H1.
    pose proof (pow2_pos (ey + 1074) ltac:(lia)) as HY.
    set (B := 2 ^ (ey + 1074)) in *.
    assert (q * G * T <= Zpos my * B * T) as H3 by lia.
    assert (q * G <= Zpos my * B) as H4
      by (apply (Z.mul_le_mono_pos_r _ _ T); lia).
    assert (Zpos my * B < 2 ^ 53 * B) by (apply Z.mul_lt_mono_pos_r; lia).
    assert (2 ^ 52 * G <= q * G) by (apply Z.mul_le_mono_nonneg_r; lia).
    lia.
Qed.

(** When the exact value is a multiple [X] of 2^-1074 and the rounding
    exceeds it, the rounding is the successor, on a grid of step at least
    2^-1073, of a 53-bit mantissa that does not exceed [X]. *)
Lemma on_grid_up (X V : Z) :
  on_grid (X * 2 ^ 1074) V -> X < V ->
  exists q E1, 1 <= E1 /\ 2 ^ 52 <= q < 2 ^ 53
               /\ V = (q + 1) * 2 ^ E1 /\ q * 2 ^ E1 <= X.
Proof.
  intros (q & m2 & E1 & HE & [Hq0 Hq] & Hnorm & [Hlo Hhi] & Hr & ->) HV.
  rewrite (pow2_split E1 1074) in * by lia.
  pose proof (pow2_pos E1 HE) as HG.
  pose proof (pow2_pos 1074 ltac:(lia)) as HT.
  set (G := 2 ^ E1) in *. set (T := 2 ^ 1074) in *.
  assert (q * G <= X) as HqX.
  { apply (Z.mul_le_mono_pos_r _ _ T); lia. }
  assert (m2 = q + 1 /\ G * T <= 2 * (X * T - q * (G * T))) as [-> Hhalf].
  { destruct Hr as [[-> _]|[-> Hh]]; [lia|]. split; [reflexivity|exact Hh]. }
  exists q, E1. split; [|split; [|split; [reflexivity|exact HqX]]].
  - destruct (Z.eq_dec E1 0) as [E0|]; [|lia]. exfalso.
    subst G. rewrite E0 in *. change (2 ^ 0) with 1 in *.
    assert (X < q + 1) by (apply (Z.mul_lt_mono_pos_r T); lia).
    assert (X = q) by lia. subst X. lia.
  - split; [|lia]. apply Hnorm.
    destruct (Z.eq_dec E1 0) as [E0|]; [|lia]. exfalso.
    subst G. rewrite E0 in *. change (2 ^ 0) with 1 in *.
    assert (X < q + 1) by (apply (Z.mul_lt_mono_pos_r T); lia).
    assert (X = q) by lia. subst X. lia.
Qed.

Lemma finite_magnitude (m : positive) (e : Z) :
  bounded 53 1024 m e = true -> 0 < Zpos m * 2 ^ (e + 1074) < 2 ^ 2098.
Proof.
  intros (He & Hm & _)%bounded64.
  pose proof (pow2_pos (e + 1074) ltac:(lia)).
  assert (2 ^ (e + 1074) <= 2 ^ 2045) by (apply pow2_le; lia).
  split; [lia|].
  assert (Zpos m * 2 ^ (e + 1074) < 2 ^ 53 * 2 ^ (e + 1074))
    by (apply Z.mul_lt_mono_pos_r; lia).
  change (2 ^ 2098) with (2 ^ 53 * 2 ^ 2045). lia.
Qed.

(** Among valid floats, the smaller exponent is the smaller magnitude. *)
Lemma finite_lt_of_exponent (m1 m2 : positive) (e1 e2 : Z) :
  bounded 53 1024 m1 e1 = true -> bounded 53 1024 m2 e2 = true ->
  e1 < e2 -> Zpos m1 * 2 ^ (e1 + 1074) < Zpos m2 * 2 ^ (e2 + 1074).
Proof.
  intros (He1 & Hm1 & _)%bounded64 (He2 & _ & Hm2)%bounded64 Hlt.
  specialize (Hm2 ltac:(lia)).
  pose proof (pow2_pos (e1 + 1074) ltac:(lia)) as HP.
  assert (2 ^ (1 + (e1 + 1074)) <= 2 ^ (e2 + 1074)) as H
    by (apply pow2_le; lia).
  rewrite (pow2_split 1) in H by lia. change (2 ^ 1) with 2 in H.
  set (A := 2 ^ (e1 + 1074)) in *. set (B := 2 ^ (e2 + 1074)) in *.
  assert (Zpos m1 * A < 2 ^ 53 * A) by (apply Z.mul_lt_mono_pos_r; lia).
  assert (2 ^ 52 * B <= Zpos m2 * B) by (apply Z.mul_le_mono_nonneg_r; lia).
  change (2 ^ 53) with (2 ^ 52 * 2) in *. lia.
Qed.

Lemma compare_by_cases (c : comparison) (a b : Z) :
  (c = Lt -> a < b) -> (c = Eq -> a = b) -> (c = Gt -> b < a) ->
  c = (a ?= b).
Proof.
  intros HL HE HG. symmetry. destruct c.
  - apply Z.compare_eq_iff. auto.
  - apply Z.compare_lt_iff. auto.
  - apply Z.compare_gt_iff. auto.
Qed.

Lemma compare_finite_magnitudes (m1 m2 : positive) (e1 e2 : Z) :
  bounded 53 1024 m1 e1 = true -> bounded 53 1024 m2 e2 = true ->
  match e1 ?= e2 with
  | Lt => Lt
  | Gt => Gt
  | Eq => Pos.compare_cont Eq m1 m2
  end = (Zpos m1 * 2 ^ (e1 + 1074) ?= Zpos m2 * 2 ^ (e2 + 1074)).
Proof.
  intros H1 H2. destruct (Z.compare_spec e1 e2) as [->|Hlt|Hgt].
  - pose proof (bounded64 _ _ H2) as (He & _).
    pose proof (pow2_pos (e2 + 1074) ltac:(lia)).
    change (Pos.compare_cont Eq m1 m2) with (Pos.compare m1 m2).
    destruct (Pos.compare_spec m1 m2) as [->|Hm|Hm];
      apply compare_by_cases; intros; try discriminate; try reflexivity.
    + apply Z.mul_lt_mono_pos_r; lia.
    + apply Z.mul_lt_mono_pos_r; lia.
  - apply compare_by_cases; intros; try discriminate.
    by apply finite_lt_of_exponent.
  - apply compare_by_cases; intros; try discriminate.
    apply finite_lt_of_exponent; done || lia.
Qed.

(** On valid floats other than NaN, [SFcompare] is the comparison of the
    scaled values. *)
Lemma compare_scaled (x y : spec_float) :
  valid_binary 53 1024 x = true -> valid_binary 53 1024 y = true ->
  is_nan x = false -> is_nan y = false ->
  SFcompare x y = Some (scaled x ?= scaled y).
Proof.
  intros Vx Vy Nx Ny.
  destruct x as [sx|sx| |sx mx ex], y as [sy|sy| |sy my ey];
    try discriminate; cbn [SFcompare scaled]; f_equal;
    try (pose proof (finite_magnitude _ _ Vx));
    try (pose proof (finite_magnitude _ _ Vy));
    try reflexivity;
    try solve [ destruct sx; apply compare_by_cases; intros;
                try discriminate; cbn [cond_Zopp]; lia
              | destruct sy; apply compare_by_cases; intros;
                try discriminate; cbn [cond_Zopp]; lia
              | destruct sx, sy; apply compare_by_cases; intros;
                try discriminate; cbn [cond_Zopp]; lia ].
  - cbn [valid_binary] in Vx, Vy.
    destruct sx, sy; cbn [cond_Zopp].
    + rewrite Z.compare_opp.
      rewrite <- (compare_finite_magnitudes my mx ey ex) by done.
      rewrite (Z.compare_antisym ex ey).
      destruct (ex ?= ey); cbn [CompOpp]; try reflexivity.
      change (Pos.compare_cont Eq mx my) with (Pos.compare mx my).
      change (Pos.compare_cont Eq my mx) with (Pos.compare my mx).
      by rewrite (Pos.compare_antisym mx my).
    + apply compare_by_cases; intros; try discriminate. lia.
    + apply compare_by_cases; intros; try discriminate. lia.
    + by apply compare_finite_magnitudes.
Qed.

(** ** From the rounding algorithm to the grid *)

Lemma rounded_scale (q R P m2 F : Z) :
  0 < F -> rounded q R P m2 -> rounded q (R * F) (P * F) m2.
Proof.
  intros HF [[-> H]|[-> H]]; [left|right]; split; try reflexivity.
  - replace (2 * (R * F)) with (2 * R * F) by ring.
    apply Z.mul_le_mono_nonneg_r; lia.
  - replace (2 * (R * F)) with (2 * R * F) by ring.
    apply Z.mul_le_mono_nonneg_r; lia.
Qed.

(** [binary_round_aux] rounds the exact value to its grid. *)
Lemma round_aux_on_grid (s : bool) (m : positive) (e : Z) :
  -2148 <= e ->
  0 <= fexp 53 1024 (Zpos (digits2_pos m) + e) - e ->
  exists V,
    on_grid (Zpos m * 2 ^ (e + 2148)) V
    /\ result_is s (binary_round_aux 53 1024 s (Zpos m) e loc_Exact) V.
Proof.
  intros He Hn0.
  set (n := fexp 53 1024 (Zpos (digits2_pos m) + e) - e) in *.
  destruct (round_aux_char s m e n eq_refl Hn0)
    as (q & m2 & Hq & [Hlo Hhi] & Hr & Hq53 & Hnorm & He1 & Hres).
  exists (m2 * 2 ^ (e + n + 1074)). split; [|exact Hres].
  exists q, m2, (e + n + 1074).
  pose proof (pow2_pos n Hn0) as HA.
  pose proof (pow2_pos (e + 2148) ltac:(lia)) as HF.
  assert (2 ^ (e + n + 1074 + 1074) = 2 ^ n * 2 ^ (e + 2148)) as ->
    by (rewrite <- pow2_split by lia; f_equal; lia).
  set (A := 2 ^ n) in *. set (F := 2 ^ (e + 2148)) in *.
  split; [lia|]. split; [lia|]. split; [intros; apply Hnorm; lia|].
  split; [split|split; [|reflexivity]].
  - replace (q * (A * F)) with (q * A * F) by ring.
    apply Z.mul_le_mono_nonneg_r; lia.
  - replace ((q + 1) * (A * F)) with ((q + 1) * A * F) by ring.
    apply Z.mul_lt_mono_pos_r; lia.
  - replace (Zpos m * F - q * (A * F)) with ((Zpos m - q * A) * F) by ring.
    by apply rounded_scale.
Qed.

(** Shifting a mantissa left by [d] bits. *)
Lemma iter_xO_spec (m d : positive) :
  Zpos (Pos.iter xO m d) = Zpos m * 2 ^ Zpos d
  /\ Zpos (digits2_pos (Pos.iter xO m d)) = Zpos (digits2_pos m) + Zpos d.
Proof.
  induction d as [|d [IH1 IH2]] using Pos.peano_ind.
  - cbn [Pos.iter digits2_pos]. rewrite Pos2Z.inj_succ. split; [|lia].
    change (2 ^ 1) with 2. lia.
  - rewrite Pos.iter_succ. cbn [digits2_pos].
    rewrite !Pos2Z.inj_succ, Z.pow_succ_r by lia.
    change (Zpos (Pos.iter xO m d)~0) with (2 * Zpos (Pos.iter xO m d)).
    rewrite IH1, IH2. split; lia.
Qed.

(** [binary_round] first aligns the mantissa, which keeps the value, then
    rounds it to its grid. *)
Lemma binary_round_on_grid (s : bool) (m : positive) (e : Z) :
  -2148 <= e ->
  exists V,
    on_grid (Zpos m * 2 ^ (e + 2148)) V
    /\ result_is s (binary_round 53 1024 s m e) V.
Proof.
  intros He. unfold binary_round, shl_align.
  set (e' := fexp 53 1024 (Zpos (digits2_pos m) + e)).
  assert (-1074 <= e') as He' by (subst e'; rewrite fexp64; lia).
  destruct (e' - e) as [|d|d] eqn:Hd.
  - apply round_aux_on_grid; [lia|]. fold e'. lia.
  - apply round_aux_on_grid; [lia|]. fold e'. lia.
  - destruct (iter_xO_spec m d) as [Hv Hdig].
    destruct (round_aux_on_grid s (Pos.iter xO m d) e') as (V & Hg & Hres);
      [lia| |].
    { rewrite Hdig.
      replace (Zpos (digits2_pos m) + Zpos d + e')
        with (Zpos (digits2_pos m) + e) by lia.
      fold e'. lia. }
    exists V. split; [|exact Hres].
    replace (Zpos m * 2 ^ (e + 2148))
      with (Zpos (Pos.iter xO m d) * 2 ^ (e' + 2148)); [exact Hg|].
    rewrite Hv. replace (e + 2148) with (Zpos d + (e' + 2148)) by lia.
    rewrite (pow2_split (Zpos d)) by lia. ring.
Qed.

(** ** Signed operations *)

Lemma result_is_scaled (s : bool) (z : spec_float) (V : Z) :
  0 <= V -> result_is s z V ->
  valid_binary 53 1024 z = true /\ is_nan z = false
  /\ scaled z = cond_Zopp s (Z.min V (2 ^ 2098)).
Proof.
  intros HV [Hval [[-> ->]|[[[Hlo Hhi] (mz & ez & -> & Hm)]|[Hinf ->]]]];
    (split; [exact Hval|split; [reflexivity|]]); cbn [scaled].
  - rewrite Z.min_l by lia. by destruct s.
  - rewrite Z.min_l by lia. by rewrite Hm.
  - by rewrite Z.min_r by lia.
Qed.

Lemma repr64_of_float (w : spec_float) :
  valid_binary 53 1024 w = true -> is_finite w = true -> repr64 (Z.abs (scaled w)).
Proof.
  destruct w as [s| | |s m e]; try discriminate; intros Hv _; cbn [scaled].
  - by left.
  - right. exists m, e. split; [exact Hv|].
    pose proof (finite_magnitude m e Hv). destruct s; cbn [cond_Zopp]; lia.
Qed.

Lemma scaled_finite_bound (w : spec_float) :
  valid_binary 53 1024 w = true -> is_finite w = true ->
  - 2 ^ 2098 < scaled w < 2 ^ 2098.
Proof.
  destruct w as [s| | |s m e]; try discriminate; intros Hv _; cbn [scaled].
  - lia.
  - pose proof (finite_magnitude m e Hv). destruct s; cbn [cond_Zopp]; lia.
Qed.

(** [binary_normalize] rounds the integer [M], in units of 2^e: the result
    is a valid float, it is at least every finite float that the exact value
    is at least, and at most every finite float that the exact value is at
    most. *)
Lemma normalize_sandwich (M e : Z) (sz : bool) :
  -1074 <= e ->
  let z := binary_normalize 53 1024 M e sz in
  valid_binary 53 1024 z = true /\ is_nan z = false
  /\ (forall w, valid_binary 53 1024 w = true -> is_finite w = true ->
        scaled w <= M * 2 ^ (e + 1074) -> scaled w <= scaled z)
  /\ (forall w, valid_binary 53 1024 w = true -> is_finite w = true ->
        M * 2 ^ (e + 1074) <= scaled w -> scaled z <= scaled w).
Proof.
  intros He z. subst z.
  pose proof (pow2_pos (e + 1074) ltac:(lia)) as HP.
  pose proof (pow2_pos 1074 ltac:(lia)) as HT.
  assert (forall m : positive,
            Zpos m * 2 ^ (e + 2148) = Zpos m * 2 ^ (e + 1074) * 2 ^ 1074) as Hfine.
  { intros m. replace (e + 2148) with (e + 1074 + 1074) by lia.
    rewrite (pow2_split (e + 1074)) by lia. ring. }
  destruct M as [|m|m]; cbn [binary_normalize].
  - split; [reflexivity|]. split; [reflexivity|]. cbn [scaled]. split; intros; lia.
  - destruct (binary_round_on_grid false m e) as (V & Hg & Hres); [lia|].
    assert (0 <= V) as HV.
    { apply (on_grid_lower _ _ 0 Hg); [by left|]. rewrite Hfine. nia. }
    destruct (result_is_scaled _ _ _ HV Hres) as (Hval & Hnan & Hs).
    cbn [cond_Zopp] in Hs. rewrite Hfine in Hg.
    split; [exact Hval|]. split; [exact Hnan|]. rewrite Hs. split.
    + intros w Hw Hf Hle. pose proof (scaled_finite_bound w Hw Hf).
      destruct (Z.le_gt_cases (scaled w) 0) as [Hneg|Hpos]; [lia|].
      pose proof (repr64_of_float w Hw Hf) as Hrep.
      rewrite Z.abs_eq in Hrep by lia.
      assert (scaled w <= V).
      { apply (on_grid_lower _ _ _ Hg Hrep).
        apply Z.mul_le_mono_nonneg_r; lia. }
      lia.
    + intros w Hw Hf Hle. pose proof (scaled_finite_bound w Hw Hf).
      assert (0 < Zpos m * 2 ^ (e + 1074)) by (apply Z.mul_pos_pos; lia).
      pose proof (repr64_of_float w Hw Hf) as Hrep.
      rewrite Z.abs_eq in Hrep by lia.
      assert (V <= scaled w).
      { apply (on_grid_upper _ _ _ Hg); [|exact Hrep|].
        - apply Z.mul_pos_pos; lia.
        - apply Z.mul_le_mono_nonneg_r; lia. }
      lia.
  - destruct (binary_round_on_grid true m e) as (V & Hg & Hres); [lia|].
    assert (0 <= V) as HV.
    { apply (on_grid_lower _ _ 0 Hg); [by left|]. rewrite Hfine. nia. }
    destruct (result_is_scaled _ _ _ HV Hres) as (Hval & Hnan & Hs).
    cbn [cond_Zopp] in Hs. rewrite Hfine in Hg.
    split; [exact Hval|]. split; [exact Hnan|]. rewrite Hs.
    change (Zneg m) with (- Zpos m).
    assert (0 < Zpos m * 2 ^ (e + 1074)) by (apply Z.mul_pos_pos; lia).
    split.
    + intros w Hw Hf Hle. pose proof (scaled_finite_bound w Hw Hf).
      pose proof (repr64_of_float w Hw Hf) as Hrep.
      rewrite Z.abs_neq in Hrep by lia.
      assert (V <= - scaled w).
      { apply (on_grid_upper _ _ _ Hg); [|exact Hrep|].
        - apply Z.mul_pos_pos; lia.
        - apply Z.mul_le_mono_nonneg_r; lia. }
      lia.
    + intros w Hw Hf Hle. pose proof (scaled_finite_bound w Hw Hf).
      destruct (Z.le_gt_cases 0 (scaled w)) as [Hpos|Hneg]; [lia|].
      pose proof (repr64_of_float w Hw Hf) as Hrep.
      rewrite Z.abs_neq in Hrep by lia.
      assert (- scaled w <= V).
      { apply (on_grid_lower _ _ _ Hg Hrep).
        apply Z.mul_le_mono_nonneg_r; lia. }
      lia.
Qed.

(** ** Addition, subtraction and multiplication *)

(** Aligning a mantissa to a smaller exponent keeps the value. *)
Lemma align_value (m : positive) (e ez : Z) :
  -1074 <= ez <= e ->
  Zpos (fst (shl_align m e ez)) * 2 ^ (ez + 1074) = Zpos m * 2 ^ (e + 1074).
Proof.
  intros H. unfold shl_align. destruct (ez - e) as [|d|d] eqn:Hd; cbn [fst].
  - by replace ez with e by lia.
  - lia.
  - destruct (iter_xO_spec m d) as [-> _].
    replace (e + 1074) with (Zpos d + (ez + 1074)) by lia.
    rewrite (pow2_split (Zpos d)) by lia. ring.
Qed.

Lemma finite_exponent (s : bool) (m : positive) (e : Z) :
  valid_binary 53 1024 (S754_finite s m e) = true -> -1074 <= e.
Proof. intros H%bounded64. lia. Qed.

Lemma aligned_sum (sx sy : bool) (mx my : positive) (ex ey : Z) (sgn : Z) :
  -1074 <= ex -> -1074 <= ey ->
  (cond_Zopp sx (Zpos (fst (shl_align mx ex (Z.min ex ey))))
   + sgn * cond_Zopp sy (Zpos (fst (shl_align my ey (Z.min ex ey)))))
  * 2 ^ (Z.min ex ey + 1074)
  = scaled (S754_finite sx mx ex) + sgn * scaled (S754_finite sy my ey).
Proof.
  intros Hx Hy. cbn [scaled].
  rewrite <- (align_value mx ex (Z.min ex ey)) by lia.
  rewrite <- (align_value my ey (Z.min ex ey)) by lia.
  destruct sx, sy; cbn [cond_Zopp]; ring.
Qed.

(** The sum is a valid float, at least every finite float that the exact
    sum is at least, and at most every finite float that it is at most. *)
Lemma add_sandwich (x y : spec_float) :
  valid_binary 53 1024 x = true -> valid_binary 53 1024 y = true ->
  is_finite x = true -> is_finite y = true ->
  let z := SFadd 53 1024 x y in
  valid_binary 53 1024 z = true /\ is_nan z = false
  /\ (forall w, valid_binary 53 1024 w = true -> is_finite w = true ->
        scaled w <= scaled x + scaled y -> scaled w <= scaled z)
  /\ (forall w, valid_binary 53 1024 w = true -> is_finite w = true ->
        scaled x + scaled y <= scaled w -> scaled z <= scaled w).
Proof.
  intros Vx Vy Fx Fy z. subst z.
  destruct x as [sx| | |sx mx ex], y as [sy| | |sy my ey]; try discriminate.
  - assert (exists s, SFadd 53 1024 (S754_zero sx) (S754_zero sy) = S754_zero s)
      as [s ->] by (destruct sx, sy; cbn; eauto).
    cbn [scaled valid_binary is_nan]. repeat split; intros; lia.
  - cbn [SFadd scaled]. repeat split; try done; intros; lia.
  - cbn [SFadd scaled]. repeat split; try done; intros; lia.
  - pose proof (finite_exponent _ _ _ Vx). pose proof (finite_exponent _ _ _ Vy).
    cbn [SFadd].
    destruct (normalize_sandwich
                (cond_Zopp sx (Zpos (fst (shl_align mx ex (Z.min ex ey))))
                 + cond_Zopp sy (Zpos (fst (shl_align my ey (Z.min ex ey)))))
                (Z.min ex ey) false) as (Hv & Hn & Hlo & Hhi); [lia|].
    pose proof (aligned_sum sx sy mx my ex ey 1 ltac:(lia) ltac:(lia)) as E.
    rewrite !Z.mul_1_l in E. rewrite E in Hlo, Hhi.
    repeat split; assumption.
Qed.

(** The same for the difference. *)
Lemma sub_sandwich (x y : spec_float) :
  valid_binary 53 1024 x = true -> valid_binary 53 1024 y = true ->
  is_finite x = true -> is_finite y = true ->
  let z := SFsub 53 1024 x y in
  valid_binary 53 1024 z = true /\ is_nan z = false
  /\ (forall w, valid_binary 53 1024 w = true -> is_finite w = true ->
        scaled w <= scaled x - scaled y -> scaled w <= scaled z)
  /\ (forall w, valid_binary 53 1024 w = true -> is_finite w = true ->
        scaled x - scaled y <= scaled w -> scaled z <= scaled w).
Proof.
  intros Vx Vy Fx Fy z. subst z.
  destruct x as [sx| | |sx mx ex], y as [sy| | |sy my ey]; try discriminate.
  - assert (exists s, SFsub 53 1024 (S754_zero sx) (S754_zero sy) = S754_zero s)
      as [s ->] by (destruct sx, sy; cbn; eauto).
    cbn [scaled valid_binary is_nan]. repeat split; intros; lia.
  - cbn [SFsub scaled valid_binary is_nan].
    assert (cond_Zopp (negb sy) (Zpos my * 2 ^ (ey + 1074))
            = - cond_Zopp sy (Zpos my * 2 ^ (ey + 1074))) as ->
      by (destruct sy; cbn [negb cond_Zopp]; lia).
    repeat split; try done; intros; lia.
  - cbn [SFsub scaled]. repeat split; try done; intros; lia.
  - pose proof (finite_exponent _ _ _ Vx). pose proof (finite_exponent _ _ _ Vy).
    cbn [SFsub].
    destruct (normalize_sandwich
                (cond_Zopp sx (Zpos (fst (shl_align mx ex (Z.min ex ey))))
                 - cond_Zopp sy (Zpos (fst (shl_align my ey (Z.min ex ey)))))
                (Z.min ex ey) false) as (Hv & Hn & Hlo & Hhi); [lia|].
    pose proof (aligned_sum sx sy mx my ex ey (-1) ltac:(lia) ltac:(lia)) as E.
    replace (cond_Zopp sx (Zpos (fst (shl_align mx ex (Z.min ex ey))))
             + -1 * cond_Zopp sy (Zpos (fst (shl_align my ey (Z.min ex ey)))))
      with (cond_Zopp sx (Zpos (fst (shl_align mx ex (Z.min ex ey))))
            - cond_Zopp sy (Zpos (fst (shl_align my ey (Z.min ex ey)))))
      in E by ring.
    replace (scaled (S754_finite sx mx ex) + -1 * scaled (S754_finite sy my ey))
      with (scaled (S754_finite sx mx ex) - scaled (S754_finite sy my ey))
      in E by ring.
    rewrite E in Hlo, Hhi.
    repeat split; assumption.
Qed.

(** A positive difference is either exact or lies on the grid of its exact
    value. *)
Lemma sub_exact_or_grid (x y : spec_float) :
  valid_binary 53 1024 x = true -> valid_binary 53 1024 y = true ->
  is_finite x = true -> is_finite y = true ->
  0 < scaled x - scaled y ->
  scaled (SFsub 53 1024 x y) = scaled x - scaled y
  \/ exists V, on_grid ((scaled x - scaled y) * 2 ^ 1074) V
               /\ result_is false (SFsub 53 1024 x y) V.
Proof.
  intros Vx Vy Fx Fy Hpos.
  destruct x as [sx| | |sx mx ex], y as [sy| | |sy my ey]; try discriminate.
  - left. cbn [SFsub scaled]. destruct sy; cbn [negb cond_Zopp]; lia.
  - left. cbn [SFsub scaled]. lia.
  - right.
    pose proof (finite_exponent _ _ _ Vx). pose proof (finite_exponent _ _ _ Vy).
    pose proof (aligned_sum sx sy mx my ex ey (-1) ltac:(lia) ltac:(lia)) as E.
    cbn [SFsub].
    set (M := cond_Zopp sx (Zpos (fst (shl_align mx ex (Z.min ex ey))))
              - cond_Zopp sy (Zpos (fst (shl_align my ey (Z.min ex ey))))) in *.
    replace (cond_Zopp sx (Zpos (fst (shl_align mx ex (Z.min ex ey))))
             + -1 * cond_Zopp sy (Zpos (fst (shl_align my ey (Z.min ex ey)))))
      with M in E by (subst M; ring).
    replace (scaled (S754_finite sx mx ex) + -1 * scaled (S754_finite sy my ey))
      with (scaled (S754_finite sx mx ex) - scaled (S754_finite sy my ey))
      in E by ring.
    rewrite <- E in *.
    pose proof (pow2_pos (Z.min ex ey + 1074) ltac:(lia)) as HP.
    destruct M as [|m|m]; [lia| |].
    + cbn [binary_normalize].
      destruct (binary_round_on_grid false m (Z.min ex ey)) as (V & Hg & Hres);
        [lia|].
      exists V. split; [|exact Hres].
      replace (Zpos m * 2 ^ (Z.min ex ey + 1074) * 2 ^ 1074)
        with (Zpos m * 2 ^ (Z.min ex ey + 2148)); [exact Hg|].
      replace (Z.min ex ey + 2148) with (Z.min ex ey + 1074 + 1074) by lia.
      rewrite (pow2_split (Z.min ex ey + 1074)) by lia. ring.
    + exfalso. assert (0 < Zpos m * 2 ^ (Z.min ex ey + 1074))
        by (apply Z.mul_pos_pos; lia). lia.
Qed.

(** The product of two positive valid floats is the rounding of the exact
    product to its grid. *)
Lemma mul_on_grid (mr md : positive) (er ed : Z) :
  bounded 53 1024 mr er = true -> bounded 53 1024 md ed = true ->
  exists V,
    on_grid (Zpos mr * 2 ^ (er + 1074) * (Zpos md * 2 ^ (ed + 1074))) V
    /\ result_is false
         (SFmul 53 1024 (S754_finite false mr er) (S754_finite false md ed)) V.
Proof.
  intros (Her & Hmr & Hnr)%bounded64 (Hed & Hmd & Hnd)%bounded64.
  cbn [SFmul xorb].
  destruct (round_aux_on_grid false (mr * md) (er + ed)) as (V & Hg & Hres);
    [lia| |].
  - rewrite fexp64.
    destruct (Z.le_gt_cases (er + ed) (-1074)) as [Hsub|Hnorm]; [lia|].
    pose proof (digits2_pos_bounds (mr * md)) as [_ Dhi].
    assert (2 ^ 52 <= Zpos (mr * md)) as Hprod.
    { rewrite Pos2Z.inj_mul.
      destruct (Z.eq_dec er (-1074)) as [->|Hne].
      - specialize (Hnd ltac:(lia)). nia.
      - specialize (Hnr ltac:(lia)). nia. }
    assert (52 < Zpos (digits2_pos (mr * md))) by (apply pow2_lt_inv; lia).
    lia.
  - exists V. split; [|exact Hres].
    replace (Zpos mr * 2 ^ (er + 1074) * (Zpos md * 2 ^ (ed + 1074)))
      with (Zpos (mr * md) * 2 ^ (er + ed + 2148)); [exact Hg|].
    rewrite Pos2Z.inj_mul.
    replace (er + ed + 2148) with ((er + 1074) + (ed + 1074)) by lia.
    rewrite (pow2_split (er + 1074)) by lia. ring.
Qed.

(** A valid float below one is at most the largest float below one. *)
Lemma below_one (m : positive) (e : Z) :
  bounded 53 1024 m e = true ->
  Zpos m * 2 ^ (e + 1074) < 2 ^ 1074 ->
  Zpos m * 2 ^ (e + 1074) <= (2 ^ 53 - 1) * 2 ^ 1021.
Proof.
  intros (He & Hm & Hn)%bounded64 Hlt.
  pose proof (pow2_pos (e + 1074) ltac:(lia)) as HP.
  assert (e + 1074 <= 1021) as Hle.
  { destruct (Z.le_gt_cases (e + 1074) 1021) as [|Hgt]; [assumption|exfalso].
    specialize (Hn ltac:(lia)).
    assert (2 ^ 1022 <= 2 ^ (e + 1074)) by (apply pow2_le; lia).
    assert (2 ^ 52 * 2 ^ (e + 1074) <= Zpos m * 2 ^ (e + 1074))
      by (apply Z.mul_le_mono_nonneg_r; lia).
    change (2 ^ 1074) with (2 ^ 52 * 2 ^ 1022) in Hlt. lia. }
  assert (2 ^ (e + 1074) <= 2 ^ 1021) by (apply pow2_le; lia).
  assert (Zpos m * 2 ^ (e + 1074) <= (2 ^ 53 - 1) * 2 ^ (e + 1074))
    by (apply Z.mul_le_mono_nonneg_r; lia).
  lia.
Qed.

(** An exact value strictly between a 53-bit grid point and the midpoint to
    the next is rounded down to that grid point. *)
Lemma on_grid_below (Zf V qd Ed : Z) :
  on_grid Zf V -> 1 <= Ed -> 2 ^ 52 <= qd < 2 ^ 53 ->
  qd * 2 ^ (Ed + 1074) < Zf ->
  2 * Zf < (2 * qd + 1) * 2 ^ (Ed + 1074) ->
  V = qd * 2 ^ Ed.
Proof.
  intros (q & m2 & E1 & HE & [Hq0 Hq] & Hnorm & [Hlo Hhi] & Hr & ->)
    HEd [Hqd0 Hqd] Hgt Hmid.
  pose proof (pow2_pos (E1 + 1074) ltac:(lia)) as HW.
  pose proof (pow2_pos (Ed + 1074) ltac:(lia)) as HWd.
  assert (E1 = Ed) as ->.
  { destruct (Z.lt_trichotomy E1 Ed) as [Hlt|[Heq|Hgt']]; [exfalso|exact Heq|exfalso].
    - assert (2 ^ (1 + (E1 + 1074)) <= 2 ^ (Ed + 1074)) as H
        by (apply pow2_le; lia).
      rewrite (pow2_split 1) in H by lia. change (2 ^ 1) with 2 in H.
      set (W := 2 ^ (E1 + 1074)) in *. set (Wd := 2 ^ (Ed + 1074)) in *.
      assert ((q + 1) * W <= 2 ^ 53 * W) by (apply Z.mul_le_mono_nonneg_r; lia).
      assert (2 ^ 52 * Wd <= qd * Wd) by (apply Z.mul_le_mono_nonneg_r; lia).
      change (2 ^ 53) with (2 ^ 52 * 2) in *. lia.
    - specialize (Hnorm ltac:(lia)).
      assert (2 ^ (1 + (Ed + 1074)) <= 2 ^ (E1 + 1074)) as H
        by (apply pow2_le; lia).
      rewrite (pow2_split 1) in H by lia. change (2 ^ 1) with 2 in H.
      set (W := 2 ^ (E1 + 1074)) in *. set (Wd := 2 ^ (Ed + 1074)) in *.
      assert (2 ^ 52 * W <= q * W) by (apply Z.mul_le_mono_nonneg_r; lia).
      assert ((2 * qd + 1) * Wd <= (2 * 2 ^ 53 - 1) * Wd)
        by (apply Z.mul_le_mono_nonneg_r; lia).
      change (2 ^ 53) with (2 ^ 52 * 2) in *. lia. }
  set (W := 2 ^ (Ed + 1074)) in *.
  assert (q = qd) as ->.
  { assert (q * W < (qd + 1) * W) as H1 by lia.
    assert (qd * W < (q + 1) * W) as H2 by lia.
    apply Z.mul_lt_mono_pos_r in H1, H2; lia. }
  destruct Hr as [[-> _]|[_ Hh]]; [reflexivity|lia].
Qed.

(** The product of a draw in [0, 1) and a non-negative difference [d] stays
    within [0, X] as soon as [d] is at most [X] or is the rounding up of
    [X] described by [on_grid_up]. *)
Lemma mul_bounds (r d : spec_float) (X : Z) :
  valid_binary 53 1024 r = true -> valid_binary 53 1024 d = true ->
  is_finite r = true -> is_finite d = true ->
  0 <= scaled r < 2 ^ 1074 -> 0 <= scaled d ->
  (scaled d <= X
   \/ exists q E1, 1 <= E1 /\ 2 ^ 52 <= q < 2 ^ 53
                   /\ scaled d = (q + 1) * 2 ^ E1 /\ q * 2 ^ E1 <= X) ->
  let p := SFmul 53 1024 r d in
  valid_binary 53 1024 p = true /\ is_finite p = true /\ 0 <= scaled p <= X.
Proof.
  intros Vr Vd Fr Fd [Hr0 Hr1] Hd0 Hrel p. subst p.
  assert (0 <= X) as HX.
  { destruct Hrel as [?|(q & E1 & HE & [Hq _] & _ & Hle)]; [lia|].
    pose proof (pow2_pos E1 ltac:(lia)). nia. }
  destruct r as [sr| | |sr mr er], d as [sd| | |sd md ed]; try discriminate;
    try (cbn [SFmul scaled valid_binary is_finite]; repeat split; lia || done).
  cbn [valid_binary] in Vr, Vd.
  pose proof (finite_magnitude _ _ Vr) as HR.
  pose proof (finite_magnitude _ _ Vd) as HD.
  cbn [scaled] in *.
  destruct sr; [cbn [cond_Zopp] in Hr0; lia|].
  destruct sd; [cbn [cond_Zopp] in Hd0; lia|].
  cbn [cond_Zopp] in *.
  destruct (mul_on_grid mr md er ed Vr Vd) as (V & Hg & Hres).
  set (R := Zpos mr * 2 ^ (er + 1074)) in *.
  set (D := Zpos md * 2 ^ (ed + 1074)) in *.
  pose proof (pow2_pos 1074 ltac:(lia)) as HT.
  assert (0 < R * D) as HRD by (apply Z.mul_pos_pos; lia).
  assert (0 <= V) as HV0.
  { apply (on_grid_lower _ _ 0 Hg); [by left|lia]. }
  assert (V <= D) as HVD.
  { apply (on_grid_upper _ _ _ Hg HRD).
    - right. by exists md, ed.
    - rewrite (Z.mul_comm D). apply Z.mul_le_mono_nonneg_r; lia. }
  destruct (result_is_scaled _ _ _ HV0 Hres) as (Hval & Hnan & Hs).
  cbn [cond_Zopp] in Hs. rewrite Z.min_l in Hs by lia.
  assert (is_finite (SFmul 53 1024 (S754_finite false mr er)
                       (S754_finite false md ed)) = true) as Hfin.
  { destruct Hres as [_ [[_ ->]|[[_ (mz & ez & -> & _)]|[Hinf _]]]];
      [reflexivity|reflexivity|lia]. }
  split; [exact Hval|]. split; [exact Hfin|]. rewrite Hs. split; [exact HV0|].
  destruct Hrel as [Hle|(q & E1 & HE & [Hq0 Hq1] & HDq & HqX)]; [lia|].
  pose proof (pow2_pos E1 ltac:(lia)) as HG.
  destruct (Z.le_gt_cases (R * D) (q * 2 ^ E1 * 2 ^ 1074)) as [Hlow|Hhigh].
  - assert (V <= q * 2 ^ E1); [|lia].
    apply (on_grid_upper _ _ _ Hg HRD); [|exact Hlow].
    right. exists (Z.to_pos q), (E1 - 1074).
    assert (Zpos (Z.to_pos q) = q) as Eq by (apply Z2Pos.id; lia).
    replace (E1 - 1074 + 1074) with E1 by lia. rewrite Eq.
    split; [|reflexivity].
    unfold bounded. apply andb_true_intro. split.
    + apply canonical64; rewrite ?Eq; lia.
    + apply Z.leb_le. change (1024 - 53) with 971.
      assert (E1 < 2046); [|lia]. apply pow2_lt_inv; [lia|].
      assert (2 ^ 52 * 2 ^ E1 <= q * 2 ^ E1)
        by (apply Z.mul_le_mono_nonneg_r; lia).
      change (2 ^ 2098) with (2 ^ 52 * 2 ^ 2046) in HD. lia.
  - assert (V = q * 2 ^ E1) as ->; [|exact HqX].
    apply (on_grid_below _ _ _ _ Hg HE (conj Hq0 Hq1)).
    + rewrite (pow2_split E1) by lia. lia.
    + rewrite (pow2_split E1) by lia.
      pose proof (below_one mr er Vr Hr1) as HR1. fold R in HR1.
      set (G := 2 ^ E1) in *.
      assert (R * D <= (2 ^ 53 - 1) * 2 ^ 1021 * D) as H1
        by (apply Z.mul_le_mono_nonneg_r; lia).
      change (2 ^ 1074) with (2 ^ 53 * 2 ^ 1021).
      set (c := 2 ^ 1021) in *.
      assert (0 < c * G) as HcG by (apply Z.mul_pos_pos; [reflexivity|lia]).
      assert (2 * (2 ^ 53 - 1) * (q + 1) < (2 * q + 1) * 2 ^ 53) as H2 by lia.
      apply (Z.mul_lt_mono_pos_r (c * G)) in H2; [|exact HcG].
      replace ((2 * q + 1) * (G * (2 ^ 53 * c)))
        with ((2 * q + 1) * 2 ^ 53 * (c * G)) by ring.
      replace (2 * (2 ^ 53 - 1) * (q + 1) * (c * G))
        with (2 * ((2 ^ 53 - 1) * c * ((q + 1) * G))) in H2 by ring.
      rewrite <- HDq in H2. lia.
Qed.

(** ** [randomBetween] *)

Lemma finite_not_nan (x : spec_float) : is_finite x = true -> is_nan x = false.
Proof. by destruct x. Qed.

Lemma leb_of_scaled (x y : spec_float) :
  valid_binary 53 1024 x = true -> valid_binary 53 1024 y = true ->
  is_nan x = false -> is_nan y = false ->
  scaled x <= scaled y -> SFleb x y = true.
Proof.
  intros Vx Vy Nx Ny H. unfold SFleb. rewrite compare_scaled by done.
  destruct (Z.compare_spec (scaled x) (scaled y)); try reflexivity. lia.
Qed.

Lemma ltb_scaled (x y : spec_float) :
  valid_binary 53 1024 x = true -> valid_binary 53 1024 y = true ->
  is_nan x = false -> is_nan y = false ->
  if SFltb x y then scaled x < scaled y else scaled y <= scaled x.
Proof.
  intros Vx Vy Nx Ny. unfold SFltb. rewrite compare_scaled by done.
  destruct (Z.compare_spec (scaled x) (scaled y)); lia.
Qed.

Lemma leb_scaled (x y : spec_float) :
  valid_binary 53 1024 x = true -> valid_binary 53 1024 y = true ->
  is_nan x = false -> is_nan y = false ->
  SFleb x y = true -> scaled x <= scaled y.
Proof.
  intros Vx Vy Nx Ny. unfold SFleb. rewrite compare_scaled by done.
  destruct (Z.compare_spec (scaled x) (scaled y)); try discriminate; lia.
Qed.

Lemma eqb_scaled (x y : spec_float) :
  valid_binary 53 1024 x = true -> valid_binary 53 1024 y = true ->
  is_nan x = false -> is_nan y = false ->
  SFeqb x y = true -> scaled x = scaled y.
Proof.
  intros Vx Vy Nx Ny. unfold SFeqb. rewrite compare_scaled by done.
  destruct (Z.compare_spec (scaled x) (scaled y)); try discriminate; lia.
Qed.

(** Valid finite floats of equal value are the same number. *)
Lemma scaled_inj (x y : spec_float) :
  valid_binary 53 1024 x = true -> valid_binary 53 1024 y = true ->
  is_finite x = true -> is_finite y = true ->
  scaled x = scaled y -> same_number x y.
Proof.
  intros Vx Vy Fx Fy H.
  destruct x as [sx| | |sx mx ex], y as [sy| | |sy my ey]; try discriminate;
    cbn [scaled] in H.
  - by right.
  - pose proof (finite_magnitude _ _ Vy). destruct sy; cbn [cond_Zopp] in H; lia.
  - pose proof (finite_magnitude _ _ Vx). destruct sx; cbn [cond_Zopp] in H; lia.
  - left. cbn [valid_binary] in Vx, Vy.
    pose proof (finite_magnitude _ _ Vx). pose proof (finite_magnitude _ _ Vy).
    assert (sx = sy) as -> by (destruct sx, sy; cbn [cond_Zopp] in H; lia || done).
    assert (Zpos mx * 2 ^ (ex + 1074) = Zpos my * 2 ^ (ey + 1074)) as E
      by (destruct sy; cbn [cond_Zopp] in H; lia).
    assert (ex = ey) as ->.
    { destruct (Z.lt_trichotomy ex ey) as [Hlt|[Heq|Hgt]]; [|exact Heq|].
      - pose proof (finite_lt_of_exponent mx my ex ey Vx Vy Hlt). lia.
      - pose proof (finite_lt_of_exponent my mx ey ex Vy Vx Hgt). lia. }
    pose proof (bounded64 _ _ Vy) as (He & _).
    pose proof (pow2_pos (ey + 1074) ltac:(lia)).
    apply Z.mul_cancel_r in E; [|lia]. by injection E as ->.
Qed.

Lemma scaled_one : scaled (F64.of_int 1) = 2 ^ 1074.
Proof. reflexivity. Qed.

(** The computed difference of the ordered arguments is non-negative and is
    either at most the exact difference or its rounding up. *)
Lemma difference_rounding (lo hi : spec_float) :
  valid_binary 53 1024 lo = true -> valid_binary 53 1024 hi = true ->
  is_finite lo = true -> is_finite hi = true ->
  scaled lo <= scaled hi ->
  is_finite (SFsub 53 1024 hi lo) = true ->
  let d := SFsub 53 1024 hi lo in
  let X := scaled hi - scaled lo in
  valid_binary 53 1024 d = true /\ 0 <= scaled d
  /\ (scaled d <= X
      \/ exists q E1, 1 <= E1 /\ 2 ^ 52 <= q < 2 ^ 53
                      /\ scaled d = (q + 1) * 2 ^ E1 /\ q * 2 ^ E1 <= X).
Proof.
  intros Vlo Vhi Flo Fhi Hle Fd d X. subst d X.
  destruct (sub_sandwich hi lo Vhi Vlo Fhi Flo) as (Vd & Nd & Hlow & Hupp).
  split; [exact Vd|]. split.
  { apply (Hlow (S754_zero false)); [reflexivity|reflexivity|cbn [scaled]; lia]. }
  destruct (Z.eq_dec (scaled hi - scaled lo) 0) as [E0|Hne].
  { left. rewrite E0.
    apply (Hupp (S754_zero false)); [reflexivity|reflexivity|cbn [scaled]; lia]. }
  destruct (sub_exact_or_grid hi lo Vhi Vlo Fhi Flo ltac:(lia))
    as [->|(V & Hg & Hres)]; [left; lia|].
  assert (scaled (SFsub 53 1024 hi lo) = V) as ->.
  { destruct Hres as [_ [[-> ->]|[[_ (mz & ez & -> & Hm)]|[_ Hinf]]]].
    - reflexivity.
    - exact Hm.
    - rewrite Hinf in Fd. discriminate. }
  destruct (Z.le_gt_cases V (scaled hi - scaled lo)) as [?|Hup]; [by left|].
  right. by apply on_grid_up.
Qed.

(** The amended C10: for finite arguments whose ordered difference does not
    overflow and a draw [r] with [0 <= r < 1], [randomBetween] adds the
    scaled difference to the smaller argument, having swapped the arguments
    when the first exceeds the second; the result lies between the smaller
    and the larger argument, both bounds included; and when the arguments are
    equal the result is that number. *)
Theorem randomBetween_within_bounds (r a b : spec_float) :
  F64.valid r = true -> F64.valid a = true -> F64.valid b = true ->
  is_finite r = true -> is_finite a = true -> is_finite b = true ->
  F64.ge r (F64.of_int 0) = true -> F64.lt r (F64.of_int 1) = true ->
  is_finite (F64.sub (fmax a b) (fmin a b)) = true ->
  let v := randomBetween r a b in
  v = F64.add (F64.mul r (F64.sub (fmax a b) (fmin a b))) (fmin a b)
  /\ SFleb (fmin a b) a = true /\ SFleb (fmin a b) b = true
  /\ SFleb a (fmax a b) = true /\ SFleb b (fmax a b) = true
  /\ SFleb (fmin a b) v = true /\ SFleb v (fmax a b) = true
  /\ (F64.eq a b = true -> same_number v a).
Proof.
  intros Vr Va Vb Fr Fa Fb Hr0 Hr1 Fd v.
  unfold F64.valid, F64.ge, F64.lt, F64.eq, F64.add, F64.mul, F64.sub,
    F64.prec, F64.emax in *.
  pose proof (finite_not_nan _ Fr) as Nr.
  pose proof (finite_not_nan _ Fa) as Na.
  pose proof (finite_not_nan _ Fb) as Nb.
  assert (v = SFadd 53 1024 (SFmul 53 1024 r (SFsub 53 1024 (fmax a b) (fmin a b)))
                (fmin a b)) as Ev
    by (subst v; unfold randomBetween, fmin, fmax; by destruct (F64.gt a b)).
  split; [exact Ev|].
  (* the ordered arguments *)
  assert (valid_binary 53 1024 (fmin a b) = true
          /\ valid_binary 53 1024 (fmax a b) = true
          /\ is_finite (fmin a b) = true /\ is_finite (fmax a b) = true
          /\ scaled (fmin a b) <= scaled a /\ scaled (fmin a b) <= scaled b
          /\ scaled a <= scaled (fmax a b) /\ scaled b <= scaled (fmax a b)
          /\ (scaled (fmin a b) = scaled a \/ scaled (fmin a b) = scaled b)
          /\ (scaled (fmax a b) = scaled a \/ scaled (fmax a b) = scaled b))
    as (Vlo & Vhi & Flo & Fhi & Hloa & Hlob & Hahi & Hbhi & Hlo & Hhi).
  { pose proof (ltb_scaled b a Vb Va Nb Na) as H.
    unfold fmin, fmax, F64.gt.
    destruct (SFltb b a); repeat split; try done; lia || auto. }
  pose proof (finite_not_nan _ Flo) as Nlo.
  pose proof (finite_not_nan _ Fhi) as Nhi.
  repeat (split; [by apply leb_of_scaled|]).
  (* the draw *)
  assert (0 <= scaled r < 2 ^ 1074) as Hr.
  { split.
    - by apply (leb_scaled (F64.of_int 0) r).
    - pose proof (ltb_scaled r (F64.of_int 1) Vr eq_refl Nr eq_refl) as H.
      rewrite Hr1, scaled_one in H. exact H. }
  (* difference, product, sum *)
  destruct (difference_rounding (fmin a b) (fmax a b) Vlo Vhi Flo Fhi
              ltac:(lia) Fd) as (Vd & Hd0 & Hrel).
  destruct (mul_bounds r _ _ Vr Vd Fr Fd Hr Hd0 Hrel) as (Vp & Fp & Hp0 & Hp1).
  destruct (add_sandwich _ (fmin a b) Vp Vlo Fp Flo) as (Vv & Nv & Hlow & Hupp).
  rewrite <- Ev in Vv, Nv, Hlow, Hupp.
  pose proof (Hlow (fmin a b) Vlo Flo ltac:(lia)) as Hlov.
  pose proof (Hupp (fmax a b) Vhi Fhi ltac:(lia)) as Hvhi.
  split; [by apply leb_of_scaled|]. split; [by apply leb_of_scaled|].
  intros Hab. pose proof (eqb_scaled a b Va Vb Na Nb Hab) as Eab.
  pose proof (scaled_finite_bound _ Vlo Flo).
  pose proof (scaled_finite_bound _ Vhi Fhi).
  apply scaled_inj; try done; [|lia].
  destruct v as [s|s| |s m e]; try done.
  cbn [scaled] in Hlov, Hvhi. destruct s; cbn [cond_Zopp] in *; lia.
Qed.

Lemma randomBetween_within_bounds_witness :
  let v := randomBetween three_quarters (F64.of_int (-100)) (F64.of_int 100) in
  v = F64.add (F64.mul three_quarters
                 (F64.sub (fmax (F64.of_int (-100)) (F64.of_int 100))
                    (fmin (F64.of_int (-100)) (F64.of_int 100))))
        (fmin (F64.of_int (-100)) (F64.of_int 100))
  /\ SFleb (fmin (F64.of_int (-100)) (F64.of_int 100)) (F64.of_int (-100)) = true
  /\ SFleb (fmin (F64.of_int (-100)) (F64.of_int 100)) (F64.of_int 100) = true
  /\ SFleb (F64.of_int (-100)) (fmax (F64.of_int (-100)) (F64.of_int 100)) = true
  /\ SFleb (F64.of_int 100) (fmax (F64.of_int (-100)) (F64.of_int 100)) = true
  /\ SFleb (fmin (F64.of_int (-100)) (F64.of_int 100)) v = true
  /\ SFleb v (fmax (F64.of_int (-100)) (F64.of_int 100)) = true
  /\ (F64.eq (F64.of_int (-100)) (F64.of_int 100) = true ->
      same_number v (F64.of_int (-100))).
Proof.
  apply (randomBetween_within_bounds three_quarters (F64.of_int (-100))
           (F64.of_int 100)); reflexivity.
Defined.

(** C10 as stated fails: with the adjacent doubles 1 and 1 + 2^-52 and the
    draw 0.75, the sum rounds up to the upper argument, so the result is not
    strictly below the maximum. Nor does it hold for every numeric argument:
    between the two largest finite doubles of opposite sign the difference
    overflows and the result is infinite, and a NaN argument gives NaN. *)
Lemma randomBetween_reaches_max :
  F64.valid three_quarters = true
  /\ F64.ge three_quarters (F64.of_int 0) = true
  /\ F64.lt three_quarters (F64.of_int 1) = true
  /\ F64.eq (F64.of_int 1) just_above_one = false
  /\ randomBetween three_quarters (F64.of_int 1) just_above_one = just_above_one
  /\ ~ (F64.lt (randomBetween three_quarters (F64.of_int 1) just_above_one)
          just_above_one = true)
  /\ randomBetween three_quarters (SFopp max_float) max_float
      = S754_infinity false
  /\ randomBetween three_quarters S754_nan (F64.of_int 1) = S754_nan.
Proof.
  repeat split; try (vm_compute; reflexivity).
  intros H. vm_compute in H. discriminate H.
Qed.

(** ** The renderer's heading angle *)

(** X21. The divisor is never zero, whatever [velX] is. *)
Lemma heading_divisor_nonzero (velX : spec_float) :
  F64.eq (heading_divisor velX) F64.zero = false.
Proof.
  unfold heading_divisor. destruct (F64.eq velX F64.zero) eqn:E; [reflexivity|].
  exact E.
Qed.

Section RendererProperties.
Variable atan : spec_float -> spec_float.
(** ECMAScript fixes [Math.atan(-0)] to be [-0]; its other finite values are
    left to the host. *)
Hypothesis atan_negative_zero : atan (S754_zero true) = S754_zero true.

(** For velocity (-5, 0) the quotient is -0 and [Math.PI] is added. *)
Lemma heading_leftward :
  heading atan (F64.of_int (-5)) (F64.of_int 0) = PI.
Proof.
  unfold heading.
  change (F64.div (F64.of_int 0) (heading_divisor (F64.of_int (-5))))
    with (S754_zero true).
  rewrite atan_negative_zero. reflexivity.
Qed.

(** For velocity (0, 5) the angle is whatever the host's [Math.atan] returns
    at 5 / 2^-52 = 22517998136852480. *)
Lemma heading_upward :
  heading atan (F64.of_int 0) (F64.of_int 5)
  = atan (F64.of_int 22517998136852480).
Proof. reflexivity. Qed.

End RendererProperties.

(** * Further properties *)
(** ** The dispatch, float by float *)

Lemma list_lookup_insert_at {A} (l : list A) (i j : nat) (x : A) :
  i = j -> (i < length l)%nat -> <[i:=x]> l !! j = Some x.
Proof. intros <- H. by apply list_lookup_insert_eq. Qed.

Ltac lookup_floats :=
  repeat first
    [ rewrite list_lookup_insert_ne by lia
    | rewrite list_lookup_insert_at by (rewrite ?length_insert; lia) ].

Lemma store_ball_lookup (buf buf' : list spec_float) (i : nat) (b : Ball) :
  store_ball buf i b = Some buf' ->
  forall j,
    buf' !! j =
      if decide ((j / stride)%nat = i)
      then match ball_float b (j mod stride)%nat with
           | Some v => Some v
           | None => buf !! j
           end
      else buf !! j.
Proof.
  unfold store_ball, stride. case_decide as Hlen; [|discriminate].
  intros [= <-] j.
  pose proof (Nat.div_mod_eq j 6) as Hj.
  pose proof (Nat.mod_upper_bound j 6 ltac:(lia)) as Hk.
  set (q := (j / 6)%nat) in *. set (k := (j mod 6)%nat) in *.
  clearbody q k. subst j.
  destruct (decide (q = i)) as [->|Hne].
  - destruct k as [|[|[|[|[|[|k]]]]]]; try lia; cbn [ball_float];
      by lookup_floats.
  - by lookup_floats.
Qed.

Lemma main_store (uniforms : UniformData) (input out : list spec_float)
    (gid : nat) :
  (length out <= length input)%nat -> (gid < arrayLength out)%nat ->
  exists b o1,
    load_ball input gid = Some b
    /\ main uniforms input gid out = Some o1
    /\ store_ball out gid (step_ball uniforms b) = Some o1
    /\ length o1 = length out.
Proof.
  intros Hlen Hgid.
  destruct (load_ball_is_Some input gid) as [b Hb].
  { pose proof (arrayLength_le out input Hlen). lia. }
  destruct (store_ball out gid (step_ball uniforms b)) as [o1|] eqn:Hs.
  - exists b, o1. unfold main. rewrite decide_False by lia. rewrite Hb.
    repeat split; try done. by eapply store_ball_length.
  - exfalso. unfold store_ball in Hs. apply arrayLength_in_range in Hgid.
    by rewrite decide_True in Hs.
Qed.

Ltac decide_cases :=
  repeat match goal with
         | |- context [decide ?P] => destruct (decide P)
         end.

Ltac off_schedule :=
  exfalso; destruct_and?;
  repeat match goal with
         | H : _ ∈ _ :: _ |- _ => apply elem_of_cons in H as [?|H]
         end;
  try lia;
  match goal with
  | H : ¬ (_ ∧ _) |- _ =>
      apply H; split; [rewrite ?elem_of_cons; tauto | lia]
  end.

(** Every float of the output buffer after a schedule has run. *)
Lemma run_invocations_floats (uniforms : UniformData) (input : list spec_float)
    (ids : list nat) :
  forall out : list spec_float,
    (length out <= length input)%nat ->
    exists out',
      run_invocations uniforms input ids out = Some out'
      /\ length out' = length out
      /\ forall j, out' !! j = dispatched_float uniforms input ids out j.
Proof.
  induction ids as [|gid rest IH]; intros out Hlen; cbn [run_invocations].
  - exists out. split; [done|]. split; [done|]. intros j.
    unfold dispatched_float. decide_cases; [|done].
    destruct_and?. by apply elem_of_nil in H.
  - destruct (decide (arrayLength out <= gid)%nat) as [Hge|Hlt].
    + rewrite main_out_of_range by done. cbn [mbind option_bind].
      destruct (IH out Hlen) as (out' & -> & Hl & Hf).
      exists out'. split; [done|]. split; [done|]. intros j. rewrite Hf.
      unfold dispatched_float. decide_cases; try done; off_schedule.
    + destruct (main_store uniforms input out gid Hlen ltac:(lia))
        as (b & o1 & Hb & -> & Hs & Hl1).
      cbn [mbind option_bind].
      destruct (IH o1 ltac:(lia)) as (out' & -> & Hl & Hf).
      exists out'. split; [done|]. split; [lia|]. intros j. rewrite Hf.
      pose proof (store_ball_lookup out o1 gid _ Hs j) as Ho1.
      unfold dispatched_float.
      assert (arrayLength o1 = arrayLength out) as ->
        by (unfold arrayLength; by rewrite Hl1).
      destruct (decide ((j / stride)%nat = gid)) as [Hq|Hq].
      * rewrite Hq in *. rewrite Hb.
        rewrite (decide_True (P := gid ∈ gid :: rest /\ _));
          [|split; [by left|lia]].
        destruct (ball_float (step_ball uniforms b) (j mod stride)%nat) eqn:Hbf;
          decide_cases; done.
      * rewrite Ho1. decide_cases; try done; off_schedule.
Qed.

(** ** The dispatch as a parallel computation *)

(** X1. The invocations of a dispatch may run in any order and any number
    of times: two schedules that name the same particles of the output
    buffer leave the same output buffer, because an invocation reads the
    input buffer only and writes its own record only. *)
Theorem dispatch_depends_on_scheduled_set (uniforms : UniformData)
    (input out : list spec_float) (ids1 ids2 : list nat) :
  (length out <= length input)%nat ->
  (forall gid, (gid < arrayLength out)%nat -> gid ∈ ids1 <-> gid ∈ ids2) ->
  run_invocations uniforms input ids1 out
  = run_invocations uniforms input ids2 out.
Proof.
  intros Hlen Hsame.
  destruct (run_invocations_floats uniforms input ids1 out Hlen)
    as (o1 & -> & _ & H1).
  destruct (run_invocations_floats uniforms input ids2 out Hlen)
    as (o2 & -> & _ & H2).
  f_equal. apply list_eq. intros j. rewrite H1, H2.
  unfold dispatched_float.
  destruct (decide ((j / stride < arrayLength out)%nat)) as [Hj|Hj].
  - specialize (Hsame _ Hj). decide_cases; try done; exfalso; tauto.
  - decide_cases; try done; exfalso; tauto.
Qed.

Lemma dispatch_depends_on_scheduled_set_witness :
  run_invocations sample_uniforms sample_input [0; 1; 0]%nat sample_output
  = run_invocations sample_uniforms sample_input [1; 7; 0]%nat sample_output.
Proof.
  apply (dispatch_depends_on_scheduled_set sample_uniforms sample_input
           sample_output [0; 1; 0]%nat [1; 7; 0]%nat).
  - vm_compute. lia.
  - intros gid Hgid. vm_compute in Hgid.
    rewrite !elem_of_cons, !elem_of_nil. lia.
Defined.

(** X2. A dispatch succeeds, keeps the length of the output buffer, and
    leaves every float alone that belongs to a particle no invocation was
    scheduled for, or that lies behind the last whole record. *)
Theorem dispatch_keeps_unscheduled_floats (uniforms : UniformData)
    (input out : list spec_float) (ids : list nat) :
  (length out <= length input)%nat ->
  exists out',
    run_invocations uniforms input ids out = Some out'
    /\ length out' = length out
    /\ forall j,
         (j / stride)%nat ∉ ids \/ (arrayLength out <= j / stride)%nat ->
         out' !! j = out !! j.
Proof.
  intros Hlen.
  destruct (run_invocations_floats uniforms input ids out Hlen)
    as (out' & Hrun & Hl & Hf).
  exists out'. split; [done|]. split; [done|]. intros j Hj. rewrite Hf.
  unfold dispatched_float. rewrite decide_False; [done|].
  intros [? ?]. destruct Hj; [done|lia].
Qed.

Lemma dispatch_keeps_unscheduled_floats_witness :
  exists out',
    run_invocations sample_uniforms sample_input [0]%nat sample_output
    = Some out'
    /\ length out' = length sample_output
    /\ forall j,
         (j / stride)%nat ∉ [0%nat]
         \/ (arrayLength sample_output <= j / stride)%nat ->
         out' !! j = sample_output !! j.
Proof.
  apply (dispatch_keeps_unscheduled_floats sample_uniforms sample_input
           sample_output [0]%nat).
  vm_compute. lia.
Defined.

(** X3. What the output buffer held before a dispatch does not reach a
    scheduled particle: two dispatches with the same input and schedule
    leave the same radius, position and velocity in every scheduled slot,
    whatever the two output buffers held. *)
Theorem dispatch_overwrites_scheduled_particles (uniforms : UniformData)
    (input out1 out2 : list spec_float) (ids : list nat) :
  (length out1 <= length input)%nat ->
  length out2 = length out1 ->
  exists o1 o2,
    run_invocations uniforms input ids out1 = Some o1
    /\ run_invocations uniforms input ids out2 = Some o2
    /\ forall gid, gid ∈ ids -> (gid < arrayLength out1)%nat ->
         load_ball o1 gid = load_ball o2 gid.
Proof.
  intros Hlen Hl2.
  destruct (run_invocations_spec uniforms input ids out1 Hlen)
    as (o1 & Hr1 & _ & H1).
  destruct (run_invocations_spec uniforms input ids out2 ltac:(lia))
    as (o2 & Hr2 & _ & H2).
  exists o1, o2. split; [done|]. split; [done|]. intros gid Hin Hgid.
  rewrite H1, H2.
  assert (arrayLength out2 = arrayLength out1) as ->
    by (unfold arrayLength; by rewrite Hl2).
  by rewrite !decide_True by done.
Qed.

Lemma dispatch_overwrites_scheduled_particles_witness :
  exists o1 o2,
    run_invocations sample_uniforms sample_input [1; 0]%nat sample_output
    = Some o1
    /\ run_invocations sample_uniforms sample_input [1; 0]%nat sample_input
       = Some o2
    /\ forall gid, gid ∈ [1; 0]%nat -> (gid < arrayLength sample_output)%nat ->
         load_ball o1 gid = load_ball o2 gid.
Proof.
  apply (dispatch_overwrites_scheduled_particles sample_uniforms sample_input
           sample_output sample_input [1; 0]%nat).
  - vm_compute. lia.
  - reflexivity.
Defined.

(** ** The frame loop as an iteration of the kernel *)

Lemma dispatchWorkgroups_schedule (uniforms : UniformData)
    (input out : list spec_float) (groups : nat) :
  dispatchWorkgroups uniforms input groups out
  = run_invocations uniforms input (seq 0 (groups * workgroup_size)) out.
Proof. reflexivity. Qed.

Lemma frame_buffers (uniforms : UniformData) (s : State) :
  buffers_sized s ->
  exists s', frame uniforms s = Some s'
    /\ input s' = inputBalls s
    /\ stagingBuffer s' = output s'
    /\ inputBalls s' = output s'
    /\ dispatchWorkgroups uniforms (inputBalls s) (ceil_div BUFFER_SIZE 64)
         (output s) = Some (output s').
Proof.
  intros (Hi & Ho & Hs & Hb). unfold frame.
  rewrite writeBuffer_whole by congruence. cbn [mbind option_bind].
  rewrite !dispatchWorkgroups_schedule.
  destruct (run_invocations_spec uniforms (inputBalls s)
              (seq 0 (ceil_div BUFFER_SIZE 64 * workgroup_size)) (output s))
    as (out' & Hrun & Hl & _); [lia|].
  rewrite Hrun. cbn [mbind option_bind].
  rewrite copyBufferToBuffer_whole by congruence. cbn [mbind option_bind].
  eexists. split; [reflexivity|]. unfold read_back.
  cbn [input output stagingBuffer inputBalls].
  rewrite take_ge by lia. repeat split.
Qed.

Lemma frames_particles (uniforms : UniformData) (N : nat) :
  forall s, buffers_sized s ->
    exists s', frames N uniforms s = Some s'
      /\ buffers_sized s'
      /\ forall i, (i < numBalls)%nat ->
           load_ball (inputBalls s') i
             = Nat.iter N (step_ball uniforms) <$> load_ball (inputBalls s) i.
Proof.
  induction N as [|N IH]; intros s Hs.
  - exists s. split; [done|]. split; [done|]. intros i _.
    by destruct (load_ball (inputBalls s) i).
  - destruct (frame_spec uniforms s Hs) as (s1 & Hf & Hs1 & _ & _ & Hload).
    destruct (IH s1 Hs1) as (s' & Hfs & Hs' & Hiter).
    exists s'. cbn [frames]. rewrite Hf. cbn [mbind option_bind].
    split; [done|]. split; [done|]. intros i Hi.
    rewrite Hiter, Hload by done.
    destruct (load_ball (inputBalls s) i) as [b|]; [|done].
    cbn [fmap option_fmap option_map]. by rewrite Nat.iter_succ_r.
Qed.

(** X4. The loop never stops on a device error, and after [N] iterations
    the particle array on the CPU holds, for every particle, the kernel
    step applied [N] times to the particle the loop was entered with; the
    colour variables are those of [N] colour updates. *)
Theorem frames_iterate_kernel (uniforms : UniformData) (N : nat) (s : State) :
  buffers_sized s ->
  exists s',
    frames N uniforms s = Some s'
    /\ buffers_sized s'
    /\ (forall i, (i < numBalls)%nat ->
          load_ball (inputBalls s') i
            = Nat.iter N (step_ball uniforms) <$> load_ball (inputBalls s) i)
    /\ (color s', addColor s') = color_after N (color s) (addColor s).
Proof.
  intros Hs.
  destruct (frames_particles uniforms N s Hs) as (s' & Hf & Hs' & Hp).
  destruct (frames_color uniforms N s Hs) as (s'' & Hf' & _ & Hc).
  rewrite Hf in Hf'. injection Hf' as <-. by exists s'.
Qed.

Lemma frames_iterate_kernel_witness :
  exists s',
    frames 2 sample_uniforms (initial_state sample_balls) = Some s'
    /\ buffers_sized s'
    /\ (forall i, (i < numBalls)%nat ->
          load_ball (inputBalls s') i
            = Nat.iter 2 (step_ball sample_uniforms)
                <$> load_ball (inputBalls (initial_state sample_balls)) i)
    /\ (color s', addColor s')
       = color_after 2 (color (initial_state sample_balls))
           (addColor (initial_state sample_balls)).
Proof.
  apply (frames_iterate_kernel sample_uniforms 2 (initial_state sample_balls)).
  repeat split; reflexivity.
Defined.

(** X5. One iteration moves the data without loss: the input buffer
    receives the whole particle array, and what is read back through the
    staging buffer is the whole output buffer. *)
Theorem frame_round_trip (uniforms : UniformData) (s : State) :
  buffers_sized s ->
  exists s',
    frame uniforms s = Some s'
    /\ input s' = inputBalls s
    /\ stagingBuffer s' = output s'
    /\ inputBalls s' = output s'
    /\ dispatchWorkgroups uniforms (inputBalls s) (ceil_div BUFFER_SIZE 64)
         (output s) = Some (output s').
Proof.
  intros Hs.
  destruct (frame_buffers uniforms s Hs) as (s' & Hf & Hi & Hst & Hb & Hd).
  by exists s'.
Qed.

Lemma frame_round_trip_witness :
  exists s',
    frame sample_uniforms (initial_state sample_balls) = Some s'
    /\ input s' = inputBalls (initial_state sample_balls)
    /\ stagingBuffer s' = output s'
    /\ inputBalls s' = output s'
    /\ dispatchWorkgroups sample_uniforms
         (inputBalls (initial_state sample_balls)) (ceil_div BUFFER_SIZE 64)
         (output (initial_state sample_balls)) = Some (output s').
Proof.
  apply (frame_round_trip sample_uniforms (initial_state sample_balls)).
  repeat split; reflexivity.
Defined.

(** The kernel step changes at most the sign of a velocity component. *)
Lemma SFabs_SFopp (v : spec_float) : SFabs (SFopp v) = SFabs v.
Proof. by destruct v. Qed.

Lemma valid_SFopp (v : spec_float) : F32.valid (SFopp v) = F32.valid v.
Proof. by destruct v. Qed.

Lemma step_ball_same_speed (uniforms : UniformData) (b : Ball) :
  F32.valid (e0 (velocity b)) = true ->
  F32.valid (e1 (velocity b)) = true ->
  same_speed b (step_ball uniforms b).
Proof.
  intros H0 H1. unfold same_speed.
  rewrite step_ball_radius, step_ball_velocity. cbn [e0 e1].
  rewrite !mul_minus_one by done.
  repeat match goal with |- context [if ?c then _ else _] => destruct c end;
    by rewrite ?SFabs_SFopp, ?valid_SFopp.
Qed.

Lemma iter_step_ball_same_speed (uniforms : UniformData) (N : nat) (b : Ball) :
  F32.valid (e0 (velocity b)) = true ->
  F32.valid (e1 (velocity b)) = true ->
  same_speed b (Nat.iter N (step_ball uniforms) b).
Proof.
  intros H0 H1. induction N as [|N (Hr & Ha0 & Ha1 & V0 & V1)]; [done|].
  rewrite Nat.iter_succ.
  destruct (step_ball_same_speed uniforms _ V0 V1) as (Hr' & Hb0 & Hb1 & ? & ?).
  unfold same_speed. by rewrite Hr', Hb0, Hb1.
Qed.

(** X6. No particle ever changes its size or its speed: after any number of
    iterations of the loop, a particle has the radius it started with, and
    each component of its velocity has the magnitude it started with; only
    the sign of a component can differ. *)
Theorem frames_preserve_radius_and_speed (uniforms : UniformData) (s : State)
    (N i : nat) (b : Ball) :
  buffers_sized s ->
  (i < numBalls)%nat ->
  load_ball (inputBalls s) i = Some b ->
  F32.valid (e0 (velocity b)) = true ->
  F32.valid (e1 (velocity b)) = true ->
  exists s' b',
    frames N uniforms s = Some s'
    /\ load_ball (inputBalls s') i = Some b'
    /\ radius b' = radius b
    /\ SFabs (e0 (velocity b')) = SFabs (e0 (velocity b))
    /\ SFabs (e1 (velocity b')) = SFabs (e1 (velocity b)).
Proof.
  intros Hs Hi Hb V0 V1.
  destruct (frames_particles uniforms N s Hs) as (s' & Hf & _ & Hp).
  destruct (iter_step_ball_same_speed uniforms N b V0 V1)
    as (Hr & H0 & H1 & _).
  exists s', (Nat.iter N (step_ball uniforms) b).
  split; [done|]. split; [by rewrite Hp, Hb|]. done.
Qed.

Lemma frames_preserve_radius_and_speed_witness :
  exists s' b',
    frames 3 sample_uniforms (initial_state sample_balls) = Some s'
    /\ load_ball (inputBalls s') 0 = Some b'
    /\ radius b' = radius sample_ball0
    /\ SFabs (e0 (velocity b')) = SFabs (e0 (velocity sample_ball0))
    /\ SFabs (e1 (velocity b')) = SFabs (e1 (velocity sample_ball0)).
Proof.
  apply (frames_preserve_radius_and_speed sample_uniforms
           (initial_state sample_balls) 3 0 sample_ball0).
  - repeat split; reflexivity.
  - unfold numBalls. lia.
  - reflexivity.
  - reflexivity.
  - reflexivity.
Defined.

(** X7. The kernel reverses a velocity component whenever the integrated
    coordinate is outside, whichever way the particle moves. Through the
    frame loop: when the particle read back after one iteration and the
    particle read back after the next are both outside on the x axis, the
    first iteration has negated the x velocity and the second has restored
    the original one, so the particle is not brought back. *)
Theorem two_crossings_restore_velocity (uniforms : UniformData) (s : State)
    (i : nat) (b : Ball) :
  buffers_sized s ->
  (i < numBalls)%nat ->
  load_ball (inputBalls s) i = Some b ->
  F32.valid (e0 (velocity b)) = true ->
  is_subnormal (e0 (velocity b)) = false ->
  exists s1 s2 b1 b2,
    frame uniforms s = Some s1
    /\ frame uniforms s1 = Some s2
    /\ frames 2 uniforms s = Some s2
    /\ load_ball (inputBalls s1) i = Some b1
    /\ load_ball (inputBalls s2) i = Some b2
    /\ (crosses (e0 (position b1)) (canvasWidth uniforms) = true ->
        crosses (e0 (position b2)) (canvasWidth uniforms) = true ->
        e0 (velocity b1) = SFopp (e0 (velocity b))
        /\ e0 (velocity b2) = e0 (velocity b)
        /\ is_subnormal (e0 (velocity b2)) = false).
Proof.
  intros Hs Hi Hb V N.
  destruct (frame_spec uniforms s Hs) as (s1 & Hf1 & Hs1 & _ & _ & Hl1).
  destruct (frame_spec uniforms s1 Hs1) as (s2 & Hf2 & _ & _ & _ & Hl2).
  exists s1, s2, (step_ball uniforms b),
    (step_ball uniforms (step_ball uniforms b)).
  split; [done|]. split; [done|].
  split; [cbn [frames]; rewrite Hf1; cbn [mbind option_bind]; rewrite Hf2; done|].
  split; [by rewrite Hl1, Hb|].
  split; [by rewrite Hl2, Hl1, Hb|].
  intros C1 C2.
  destruct (step_ball_reflects uniforms b) as [E1 _].
  destruct (step_ball_reflects uniforms (step_ball uniforms b)) as [E2 _].
  rewrite C1, mul_minus_one in E1 by done.
  rewrite C2, mul_minus_one in E2 by (by rewrite E1, valid_SFopp).
  split; [exact E1|]. rewrite E2, E1.
  assert (SFopp (SFopp (e0 (velocity b))) = e0 (velocity b)) as ->
    by (by destruct (e0 (velocity b)) as [[]|[]| |[] ? ?]).
  done.
Qed.

Lemma two_crossings_restore_velocity_witness :
  exists s1 s2 b1 b2,
    frame sample_uniforms (initial_state sample_trapped) = Some s1
    /\ frame sample_uniforms s1 = Some s2
    /\ frames 2 sample_uniforms (initial_state sample_trapped) = Some s2
    /\ load_ball (inputBalls s1) 0 = Some b1
    /\ load_ball (inputBalls s2) 0 = Some b2
    /\ crosses (e0 (position b1)) (canvasWidth sample_uniforms) = true
    /\ crosses (e0 (position b2)) (canvasWidth sample_uniforms) = true
    /\ e0 (velocity b1) = F32.of_int (-5)
    /\ e0 (velocity b2) = F32.of_int 5.
Proof.
  assert (buffers_sized (initial_state sample_trapped)) as Hs
    by (repeat split; reflexivity).
  destruct (two_crossings_restore_velocity sample_uniforms
              (initial_state sample_trapped) 0
              (mk_Ball (F32.of_int 3)
                 (mk_vec2 (F32.of_int 200) (F32.of_int 50))
                 (mk_vec2 (F32.of_int 5) (F32.of_int 3))))
    as (s1 & s2 & b1 & b2 & F1 & F2 & F12 & L1 & L2 & H).
  - exact Hs.
  - unfold numBalls. lia.
  - reflexivity.
  - reflexivity.
  - reflexivity.
  - destruct (frame_spec sample_uniforms _ Hs)
      as (s1' & F1' & Hs1 & _ & _ & Hl1).
    rewrite F1 in F1'. injection F1' as <-.
    destruct (frame_spec sample_uniforms _ Hs1)
      as (s2' & F2' & _ & _ & _ & Hl2).
    rewrite F2 in F2'. injection F2' as <-.
    specialize (Hl1 0%nat ltac:(unfold numBalls; lia)).
    specialize (Hl2 0%nat ltac:(unfold numBalls; lia)).
    rewrite L1 in Hl2. rewrite L2 in Hl2. rewrite L1 in Hl1.
    cbn [fmap option_fmap option_map] in Hl2. injection Hl2 as E2.
    change (load_ball (inputBalls (initial_state sample_trapped)) 0)
      with (Some (mk_Ball (F32.of_int 3)
                    (mk_vec2 (F32.of_int 200) (F32.of_int 50))
                    (mk_vec2 (F32.of_int 5) (F32.of_int 3)))) in Hl1.
    cbn [fmap option_fmap option_map] in Hl1. injection Hl1 as E1.
    subst b2. subst b1.
    exists s1, s2. do 2 eexists.
    split; [exact F1|]. split; [exact F2|]. split; [exact F12|].
    split; [exact L1|]. split; [exact L2|].
    split; [vm_compute; reflexivity|]. split; [vm_compute; reflexivity|].
    destruct H as (H1 & H2 & _); [vm_compute; reflexivity..|].
    split; [exact H1|exact H2].
Defined.

(** ** The colour cycle *)

Lemma color_after_plus (n m : nat) :
  forall c add,
    color_after (n + m) c add
    = color_after m (fst (color_after n c add)) (snd (color_after n c add)).
Proof.
  induction n as [|n IH]; intros c add; [done|].
  cbn [Nat.add color_after]. by rewrite IH.
Qed.

Lemma colors_in_envelope_at (n : nat) :
  forall k c add, (k < n)%nat ->
    colors_in_envelope n c add = true ->
    color_in_envelope (color_after k c add) = true.
Proof.
  induction n as [|n IH]; intros k c add Hk Hall; [lia|].
  cbn [colors_in_envelope] in Hall. apply andb_prop in Hall as [H0 Hall].
  destruct k as [|k]; [done|]. cbn [color_after]. apply IH; [lia|done].
Qed.

Lemma color_period_returns :
  color_after color_period initial_color one_half = (initial_color, one_half).
Proof. vm_compute. reflexivity. Qed.

Lemma color_after_mod (N : nat) :
  color_after N initial_color one_half
  = color_after (N mod color_period) initial_color one_half.
Proof.
  rewrite (Nat.div_mod_eq N color_period) at 1.
  generalize (N mod color_period)%nat as r.
  induction (N / color_period)%nat as [|q IH]; intros r.
  - by rewrite Nat.mul_0_r.
  - replace (color_period * S q + r)%nat
      with (color_period + (color_period * q + r))%nat by lia.
    rewrite color_after_plus, color_period_returns. apply IH.
Qed.

Lemma colors_in_envelope_period :
  colors_in_envelope color_period initial_color one_half = true.
Proof. vm_compute. reflexivity. Qed.

Lemma color_after_in_envelope (N : nat) :
  color_in_envelope (color_after N initial_color one_half) = true.
Proof.
  rewrite color_after_mod.
  pose proof (Nat.mod_upper_bound N color_period ltac:(discriminate)) as Hlt.
  eapply colors_in_envelope_at; [exact Hlt|].
  exact colors_in_envelope_period.
Qed.

(** X8. Entered with [color = [255, 0, 0]] and [addColor = 0.5], the colour
    variables repeat every 1022 iterations: after [N] iterations they are
    what they were after [N mod 1022]. *)
Theorem color_cycle (uniforms : UniformData) (balls : list spec_float)
    (N : nat) :
  length balls = (BUFFER_SIZE / 4)%nat ->
  exists s s',
    frames N uniforms (initial_state balls) = Some s
    /\ frames (N mod color_period) uniforms (initial_state balls) = Some s'
    /\ color s = color s' /\ addColor s = addColor s'.
Proof.
  intros Hlen.
  assert (buffers_sized (initial_state balls)) as Hs
    by (repeat split; done).
  destruct (frames_color uniforms N _ Hs) as (s & Hf & _ & Hc).
  destruct (frames_color uniforms (N mod color_period) _ Hs)
    as (s' & Hf' & _ & Hc').
  exists s, s'. split; [done|]. split; [done|].
  cbn [initial_state color addColor] in Hc, Hc'.
  rewrite color_after_mod, <- Hc' in Hc. by injection Hc.
Qed.

Lemma color_cycle_witness :
  exists s s',
    frames 1023 sample_uniforms (initial_state sample_balls) = Some s
    /\ frames (1023 mod color_period) sample_uniforms
         (initial_state sample_balls) = Some s'
    /\ color s = color s' /\ addColor s = addColor s'.
Proof.
  apply (color_cycle sample_uniforms sample_balls 1023). reflexivity.
Defined.

(** X9. However long the loop runs, red stays 255, green and blue stay
    equal, and green stays between -0.5 and 255. *)
Theorem color_stays_in_envelope (uniforms : UniformData)
    (balls : list spec_float) (N : nat) :
  length balls = (BUFFER_SIZE / 4)%nat ->
  exists s,
    frames N uniforms (initial_state balls) = Some s
    /\ color0 (color s) = F64.of_int 255
    /\ F64.eq (color1 (color s)) (color2 (color s)) = true
    /\ F64.ge (color1 (color s)) minus_one_half = true
    /\ F64.ge (F64.of_int 255) (color1 (color s)) = true.
Proof.
  intros Hlen.
  assert (buffers_sized (initial_state balls)) as Hs
    by (repeat split; done).
  destruct (frames_color uniforms N _ Hs) as (s & Hf & _ & Hc).
  exists s. split; [done|].
  cbn [initial_state color addColor] in Hc.
  pose proof (color_after_in_envelope N) as He.
  pose proof (color_after_red N initial_color one_half) as Hr.
  rewrite <- Hc in He, Hr. cbn [fst] in He, Hr.
  unfold color_in_envelope in He. cbn [fst] in He.
  apply andb_prop in He as [He H4]. apply andb_prop in He as [He H3].
  apply andb_prop in He as [_ H2]. rewrite Hr. repeat split; assumption.
Qed.

Lemma color_stays_in_envelope_witness :
  exists s,
    frames 2000 sample_uniforms (initial_state sample_balls) = Some s
    /\ color0 (color s) = F64.of_int 255
    /\ F64.eq (color1 (color s)) (color2 (color s)) = true
    /\ F64.ge (color1 (color s)) minus_one_half = true
    /\ F64.ge (F64.of_int 255) (color1 (color s)) = true.
Proof.
  apply (color_stays_in_envelope sample_uniforms sample_balls 2000).
  reflexivity.
Defined.

(** ** Initialisation and the loop together *)

Lemma init_unset_particles (rnd : nat -> spec_float) (cv : Canvas) :
  exists a,
    init_inputBalls rnd cv = Some a
    /\ length a = (BUFFER_SIZE / 4)%nat
    /\ forall i, (34 <= i < numBalls)%nat -> load_ball a i = Some zero_ball.
Proof.
  unfold init_inputBalls.
  destruct (init_loop_spec rnd cv (S numBalls) 0 0
              (new_Float32Array BUFFER_SIZE)) as (a & -> & Hl & Hj);
    [lia|reflexivity|].
  exists a. split; [done|]. split; [by rewrite Hl|].
  intros i [Hlo Hhi]. unfold load_ball, stride, numBalls in *.
  rewrite !Hj by lia. unfold new_Float32Array. rewrite buffer_floats.
  by rewrite !lookup_replicate_2 by lia.
Qed.

Lemma step_ball_at_origin (uniforms : UniformData) (b : Ball) :
  at_origin b -> at_origin (step_ball uniforms b).
Proof.
  intros (Hr & Hp & H0 & H1).
  destruct (step_ball_at_rest uniforms b H0 H1) as (K0 & K1 & Z0 & Z1).
  rewrite Hp in K0, K1. cbn [e0 e1] in K0, K1.
  apply kept_exact in K0; [|discriminate]. apply kept_exact in K1; [|discriminate].
  unfold at_origin. rewrite step_ball_radius.
  split; [done|]. split; [|done].
  destruct (position (step_ball uniforms b)) as [x y]. cbn [e0 e1] in *.
  by rewrite K0, K1.
Qed.

Lemma iter_step_ball_at_origin (uniforms : UniformData) (N : nat) (b : Ball) :
  at_origin b -> at_origin (Nat.iter N (step_ball uniforms) b).
Proof.
  intros Hb. induction N as [|N IH]; [done|].
  rewrite Nat.iter_succ. by apply step_ball_at_origin.
Qed.

(** X10. The particles the initialisation does not reach are never seen:
    whatever the draws and the canvas, after any number of iterations of
    the loop each of the particles 34..199 is at the origin with radius 0. *)
Theorem unset_particles_stay_at_origin (rnd : nat -> spec_float) (cv : Canvas)
    (uniforms : UniformData) (N i : nat) :
  (34 <= i < numBalls)%nat ->
  exists a s' b',
    init_inputBalls rnd cv = Some a
    /\ frames N uniforms (initial_state a) = Some s'
    /\ load_ball (inputBalls s') i = Some b'
    /\ radius b' = F32.zero
    /\ position b' = mk_vec2 F32.zero F32.zero.
Proof.
  intros Hi.
  destruct (init_unset_particles rnd cv) as (a & Ha & Hl & Hz).
  assert (buffers_sized (initial_state a)) as Hs by (repeat split; done).
  destruct (frames_particles uniforms N _ Hs) as (s' & Hf & _ & Hp).
  destruct (iter_step_ball_at_origin uniforms N zero_ball) as (Hr & Hpos & _).
  { repeat split. }
  exists a, s', (Nat.iter N (step_ball uniforms) zero_ball).
  split; [done|]. split; [done|]. split; [|exact (conj Hr Hpos)].
  rewrite Hp by lia. cbn [initial_state inputBalls]. by rewrite Hz.
Qed.

Lemma unset_particles_stay_at_origin_witness :
  exists a s' b',
    init_inputBalls constant_draws (mk_Canvas 1000 800) = Some a
    /\ frames 5 (init_uniforms (mk_Canvas 1000 800)) (initial_state a) = Some s'
    /\ load_ball (inputBalls s') 34 = Some b'
    /\ radius b' = F32.zero
    /\ position b' = mk_vec2 F32.zero F32.zero.
Proof.
  apply (unset_particles_stay_at_origin constant_draws (mk_Canvas 1000 800)
           (init_uniforms (mk_Canvas 1000 800)) 5 34).
  unfold numBalls. lia.
Defined.

Lemma init_body_draws (rnd rnd' : nat -> spec_float) (cv : Canvas) (i k : nat)
    (a : list spec_float) :
  (forall j, (k <= j < k + 5)%nat -> rnd j = rnd' j) ->
  init_body rnd cv i k a = init_body rnd' cv i k a.
Proof.
  intros H. unfold init_body.
  by rewrite (H k), (H (k + 1)%nat), (H (k + 2)%nat), (H (k + 3)%nat),
    (H (k + 4)%nat) by lia.
Qed.

Lemma init_loop_draws (rnd rnd' : nat -> spec_float) (cv : Canvas)
    (fuel : nat) :
  (forall j, (j < init_draws)%nat -> rnd j = rnd' j) ->
  forall (q : nat) (a : list spec_float),
    init_loop fuel rnd cv (6 * q) (5 * q) a
    = init_loop fuel rnd' cv (6 * q) (5 * q) a.
Proof.
  intros H. induction fuel as [|fuel IH]; intros q a; [done|].
  cbn [init_loop]. destruct (decide (6 * q < numBalls)%nat) as [Hlt|]; [|done].
  rewrite (init_body_draws rnd rnd').
  - replace (6 * q + 6)%nat with (6 * S q)%nat by lia.
    replace (5 * q + 5)%nat with (5 * S q)%nat by lia. apply IH.
  - intros j Hj. apply H. unfold numBalls, init_draws in *. lia.
Qed.

(** X11. The initial particles depend on the first 170 results of
    [Math.random()] only: two sources of draws that agree on the draws
    0..169 give the same array. *)
Theorem init_uses_170_draws (rnd rnd' : nat -> spec_float) (cv : Canvas) :
  (forall j, (j < init_draws)%nat -> rnd j = rnd' j) ->
  init_inputBalls rnd cv = init_inputBalls rnd' cv.
Proof.
  intros H. unfold init_inputBalls.
  apply (init_loop_draws rnd rnd' cv (S numBalls) H 0).
Qed.

Lemma init_uses_170_draws_witness :
  init_inputBalls constant_draws (mk_Canvas 1000 800)
  = init_inputBalls
      (fun j => if decide (j < init_draws)%nat then one_half else F64.zero)
      (mk_Canvas 1000 800).
Proof.
  apply (init_uses_170_draws constant_draws
           (fun j => if decide (j < init_draws)%nat then one_half else F64.zero)
           (mk_Canvas 1000 800)).
  intros j Hj. unfold constant_draws. by rewrite decide_True.
Defined.

(** ** More on [randomBetween] *)

Lemma SFltb_asym (a b : spec_float) : SFltb a b = true -> SFltb b a = false.
Proof.
  unfold SFltb, SFcompare.
  destruct a as [sa|sa| |sa ma ea], b as [sb|sb| |sb mb eb];
    try discriminate; try reflexivity;
    try (destruct sa; try discriminate; try reflexivity;
         destruct sb; discriminate || reflexivity).
  intros H. destruct sa, sb; cbn in *; try done;
    rewrite (Z.compare_antisym ea eb); destruct (ea ?= eb); cbn in *;
    try done;
    change (PosDef.Pos.compare_cont Eq mb ma) with (Pos.compare mb ma);
    change (PosDef.Pos.compare_cont Eq ma mb) with (Pos.compare ma mb) in H;
    rewrite (Pos.compare_antisym ma mb); destruct (ma ?= mb)%positive;
    cbn in *; done.
Qed.

(** X12. When one argument is greater than the other, the order in which
    the two are passed makes no difference. *)
Theorem randomBetween_argument_order (r a b : spec_float) :
  F64.gt a b = true \/ F64.gt b a = true ->
  randomBetween r a b = randomBetween r b a.
Proof.
  unfold randomBetween, F64.gt.
  intros [H|H]; rewrite H; by rewrite (SFltb_asym _ _ H).
Qed.

Lemma randomBetween_argument_order_witness :
  randomBetween three_quarters (F64.of_int 10) (F64.of_int 2)
  = randomBetween three_quarters (F64.of_int 2) (F64.of_int 10).
Proof.
  apply (randomBetween_argument_order three_quarters (F64.of_int 10)
           (F64.of_int 2)).
  left. reflexivity.
Defined.

(** X13. [Math.random()] can return 0; the result is then the smaller
    argument, provided the difference of the arguments does not overflow:
    the same float, or a zero when the smaller argument is a zero. *)
Theorem randomBetween_zero_draw (a b : spec_float) :
  is_finite a = true -> is_finite b = true ->
  is_finite (F64.sub (fmax a b) (fmin a b)) = true ->
  same_number (randomBetween (F64.of_int 0) a b) (fmin a b).
Proof.
  intros Fa Fb Fd.
  assert (randomBetween (F64.of_int 0) a b
          = F64.add (F64.mul (F64.of_int 0) (F64.sub (fmax a b) (fmin a b)))
              (fmin a b)) as ->
    by (unfold randomBetween, fmin, fmax; by destruct (F64.gt a b)).
  assert (is_finite (fmin a b) = true) as Flo
    by (unfold fmin; by destruct (F64.gt a b)).
  change (F64.of_int 0) with (S754_zero false).
  destruct (F64.sub (fmax a b) (fmin a b)) as [sd| | |sd md ed];
    try discriminate;
    destruct (fmin a b) as [[]| | |s m e]; try discriminate;
    destruct sd; try (by right); by left.
Qed.

Lemma randomBetween_zero_draw_witness :
  same_number (randomBetween (F64.of_int 0) (F64.of_int 10) (F64.of_int 2))
    (fmin (F64.of_int 10) (F64.of_int 2)).
Proof.
  apply (randomBetween_zero_draw (F64.of_int 10) (F64.of_int 2));
    reflexivity.
Defined.

(** ** More on [addHexColor] *)

Section AddHexColorOrder.
Local Open Scope string_scope.

Lemma add_octet_comm (i : nat) (o1 o2 : string) (r : string) :
  add_octet i o1 o2 = Return r -> add_octet i o2 o1 = Return r.
Proof.
  unfold add_octet. rewrite (Nat.add_comm (parseInt16 o2)).
  by destruct (255 <? parseInt16 o1 + parseInt16 o2)%nat.
Qed.

Lemma addHexColor_comm_return (c1 c2 r : string) :
  addHexColor c1 c2 = Return r -> addHexColor c2 c1 = Return r.
Proof.
  unfold addHexColor.
  destruct (match_octets c1) as [[[a1 a2] a3]|]; [|discriminate].
  destruct (match_octets c2) as [[[b1 b2] b3]|]; [|discriminate].
  destruct (add_octet 1 a1 b1) as [s1|] eqn:E1; [|discriminate].
  destruct (add_octet 2 a2 b2) as [s2|] eqn:E2; [|discriminate].
  destruct (add_octet 3 a3 b3) as [s3|] eqn:E3; [|discriminate].
  cbn [bind_result].
  by rewrite (add_octet_comm _ _ _ _ E1), (add_octet_comm _ _ _ _ E2),
    (add_octet_comm _ _ _ _ E3).
Qed.

(** X14. Where [addHexColor] returns, it is commutative: swapping the
    arguments gives the same string; and it throws for the one order
    exactly when it throws for the other. *)
Theorem addHexColor_commutes (c1 c2 : string) :
  (forall r, addHexColor c1 c2 = Return r <-> addHexColor c2 c1 = Return r)
  /\ ((exists msg, addHexColor c1 c2 = Throw msg)
      <-> (exists msg, addHexColor c2 c1 = Throw msg)).
Proof.
  split; [split; apply addHexColor_comm_return|].
  split; intros [msg H].
  - destruct (addHexColor c2 c1) as [r|msg'] eqn:E; [|by exists msg'].
    apply addHexColor_comm_return in E. congruence.
  - destruct (addHexColor c1 c2) as [r|msg'] eqn:E; [|by exists msg'].
    apply addHexColor_comm_return in E. congruence.
Qed.

(** X15. The order of the checks: an argument that is not a triplet is
    reported before any overflow is looked for, and of several overflowing
    octets the first one is reported. *)
Theorem addHexColor_first_error (c1 c2 : string) :
  (hex_triplet c1 = false \/ hex_triplet c2 = false ->
   addHexColor c1 c2
   = Throw ("invalid hex color triplet(s): " ++ c1 ++ " / " ++ c2))
  /\ (forall k,
        hex_triplet c1 = true -> hex_triplet c2 = true ->
        (k < 3)%nat ->
        (255 < octet c1 k + octet c2 k)%nat ->
        (forall j, (j < k)%nat -> (octet c1 j + octet c2 j <= 255)%nat) ->
        addHexColor c1 c2
        = Throw ("octet " ++ octet_index (k + 1) ++ " overflow: "
                 ++ octet_text c1 k ++ "+" ++ octet_text c2 k ++ "="
                 ++ toString16 (octet c1 k + octet c2 k))).
Proof.
  unfold addHexColor.
  pose proof (match_octets_spec c1) as M1.
  pose proof (match_octets_spec c2) as M2.
  destruct (match_octets c1) as [[[a1 a2] a3]|];
    [destruct (match_octets c2) as [[[b1 b2] b3]|]|].
  - destruct M1 as (T1 & -> & -> & ->), M2 as (T2 & -> & -> & ->).
    split; [intros [?|?]; congruence|].
    intros k _ _ Hk Hov Hfirst. unfold octet in *.
    destruct (add_octet_cases 1 (octet_text c1 0) (octet_text c2 0))
      as [[L0 ->]|[L0 ->]]; cbn [bind_result].
    { destruct k as [|k]; [done|]. specialize (Hfirst 0%nat). lia. }
    destruct (add_octet_cases 2 (octet_text c1 1) (octet_text c2 1))
      as [[L1 ->]|[L1 ->]]; cbn [bind_result].
    { destruct k as [|[|k]]; [lia|done|]. specialize (Hfirst 1%nat). lia. }
    destruct (add_octet_cases 3 (octet_text c1 2) (octet_text c2 2))
      as [[L2 ->]|[L2 ->]]; cbn [bind_result].
    { destruct k as [|[|[|k]]]; [lia|lia|done|lia]. }
    destruct k as [|[|[|k]]]; lia.
  - split; [done|]. intros; congruence.
  - split; [by destruct (match_octets c2) as [[[? ?] ?]|]|].
    intros; congruence.
Qed.

Lemma addHexColor_first_error_witness :
  addHexColor "12345" "000000"
  = Throw "invalid hex color triplet(s): 12345 / 000000"
  /\ addHexColor "00ffff" "000102" = Throw "octet 2 overflow: ff+01=100".
Proof.
  split.
  - apply (proj1 (addHexColor_first_error "12345" "000000")).
    left. reflexivity.
  - apply (proj2 (addHexColor_first_error "00ffff" "000102") 1%nat).
    + reflexivity.
    + reflexivity.
    + lia.
    + vm_compute. lia.
    + intros j Hj. assert (j = 0%nat) as -> by lia. vm_compute. lia.
Defined.

Lemma renders_lower_case_all (n : nat) :
  (n <= 255)%nat -> renders_lower_case n = true.
Proof.
  intros H.
  assert (forallb renders_lower_case (seq 0 256) = true) as A
    by (vm_compute; reflexivity).
  rewrite forallb_forall in A. apply A. apply in_seq. lia.
Qed.

Lemma forallb_list_ascii_app (f : ascii -> bool) (s1 s2 : string) :
  forallb f (list_ascii_of_string (s1 ++ s2))
  = forallb f (list_ascii_of_string s1) && forallb f (list_ascii_of_string s2).
Proof.
  induction s1 as [|c s1 IH]; [done|].
  cbn [append list_ascii_of_string forallb]. by rewrite IH, andb_assoc.
Qed.

(** X16. The result is in lower case whatever the case of the arguments:
    every character of a returned string is one of [0-9a-f]. *)
Theorem addHexColor_returns_lower_case (c1 c2 r : string) :
  addHexColor c1 c2 = Return r ->
  forallb is_lower_hex_digit (list_ascii_of_string r) = true.
Proof.
  unfold addHexColor.
  destruct (match_octets c1) as [[[a1 a2] a3]|]; [|discriminate].
  destruct (match_octets c2) as [[[b1 b2] b3]|]; [|discriminate].
  destruct (add_octet_cases 1 a1 b1) as [[_ ->]|[L0 ->]]; [discriminate|].
  destruct (add_octet_cases 2 a2 b2) as [[_ ->]|[L1 ->]]; [discriminate|].
  destruct (add_octet_cases 3 a3 b3) as [[_ ->]|[L2 ->]]; [discriminate|].
  cbn [bind_result]. intros [= <-].
  rewrite !forallb_list_ascii_app.
  pose proof (renders_lower_case_all _ L0) as H0.
  pose proof (renders_lower_case_all _ L1) as H1.
  pose proof (renders_lower_case_all _ L2) as H2.
  unfold renders_lower_case in *. by rewrite H0, H1, H2.
Qed.

Lemma addHexColor_returns_lower_case_witness :
  forallb is_lower_hex_digit (list_ascii_of_string "abcdef") = true.
Proof.
  apply (addHexColor_returns_lower_case "ABCDEF" "000000" "abcdef").
  reflexivity.
Defined.

End AddHexColorOrder.

(** ** The renderer *)

Lemma join_blocks_length {A} (f : nat -> list A) :
  (forall k, length (f k) = 7%nat) ->
  forall m s, length (mjoin (f <$> seq s m)) = (7 * m)%nat.
Proof.
  intros Hf. induction m as [|m IH]; intros s; [done|].
  cbn [seq]. rewrite fmap_cons.
  change (mjoin (?x :: ?l)) with (x ++ mjoin l).
  rewrite length_app, Hf, IH. lia.
Qed.

Lemma drop_blocks {A} (f : nat -> list A) :
  (forall k, length (f k) = 7%nat) ->
  forall q m s, (q <= m)%nat ->
    drop (7 * q) (mjoin (f <$> seq s m)) = mjoin (f <$> seq (s + q) (m - q)).
Proof.
  intros Hf. induction q as [|q IH]; intros m s Hq.
  - by rewrite Nat.mul_0_r, Nat.add_0_r, Nat.sub_0_r.
  - destruct m as [|m]; [lia|]. cbn [seq]. rewrite fmap_cons.
    change (mjoin (?x :: ?l)) with (x ++ mjoin l).
    replace (7 * S q)%nat with (7 + 7 * q)%nat by lia.
    rewrite <- drop_drop, drop_app_length' by done.
    rewrite IH by lia. do 3 f_equal; lia.
Qed.

Lemma first_true (p : nat -> bool) (n : nat) :
  (forall q, (q < n)%nat -> p q = false)
  \/ (exists q0, (q0 < n)%nat /\ p q0 = true
                 /\ forall k, (k < q0)%nat -> p k = false).
Proof.
  induction n as [|n [IH|(q0 & Hq0 & Ht & Hf)]].
  - left. intros q Hq. lia.
  - destruct (p n) eqn:E.
    + right. exists n. split; [lia|]. split; [exact E|]. exact IH.
    + left. intros q Hq. destruct (decide (q = n)) as [->|]; [exact E|].
      apply IH. lia.
  - right. exists q0. split; [lia|]. by split.
Qed.

Section RenderBallsProperties.
Variables atan cos sin sqrt : spec_float -> spec_float.

Lemma ceil_div_6 (n q : nat) : (6 * q < n)%nat <-> (q < ceil_div n 6)%nat.
Proof.
  unfold ceil_div.
  pose proof (Nat.div_mod_eq (n + 6 - 1) 6).
  pose proof (Nat.mod_upper_bound (n + 6 - 1) 6 ltac:(lia)). lia.
Qed.

Lemma draw_ball_length (ballData : list spec_float) (a : nat) :
  length (draw_ball atan cos sin sqrt ballData a) = 7%nat.
Proof. reflexivity. Qed.

(** The first [arc] of a path decides: unless it throws, no call of the
    path throws. *)
Lemma perform_draw_ball (ballData : list spec_float) (q : nat) :
  perform (draw_ball atan cos sin sqrt ballData (6 * q))
  = if negative_radius ballData q
    then ([BeginPath;
           Arc (element ballData (6 * q + 2)) (element ballData (6 * q + 3))
             (element ballData (6 * q)) (F64.of_int 0)
             (F64.mul (F64.of_int 2) PI) true],
          IndexSizeError)
    else (draw_ball atan cos sin sqrt ballData (6 * q), Returned).
Proof.
  unfold draw_ball, negative_radius. rewrite Nat.add_0_r.
  cbn [perform throws].
  change (is_finite (F64.of_int 0)) with true.
  change (is_finite (F64.mul (F64.of_int 2) PI)) with true.
  destruct (is_finite (element ballData (6 * q + 2)));
    destruct (is_finite (element ballData (6 * q + 3)));
    destruct (is_finite (element ballData (6 * q)));
    destruct (F64.lt (element ballData (6 * q)) F64.zero);
    cbn [andb]; rewrite ?andb_false_r; reflexivity.
Qed.

Lemma render_loop_returns (ballData : list spec_float) (fuel : nat) :
  forall q,
    (length ballData - 6 * q < fuel)%nat ->
    (forall k, (q <= k < ceil_div (length ballData) 6)%nat ->
       negative_radius ballData k = false) ->
    render_loop atan cos sin sqrt fuel ballData (6 * q)
    = Some (mjoin ((fun k => draw_ball atan cos sin sqrt ballData (6 * k))
                     <$> seq q (ceil_div (length ballData) 6 - q)),
            Returned).
Proof.
  induction fuel as [|fuel IH]; intros q Hfuel Hok; [lia|].
  cbn [render_loop].
  pose proof (ceil_div_6 (length ballData) q) as Hq.
  destruct (decide (6 * q < length ballData)%nat) as [Hlt|Hge].
  - rewrite perform_draw_ball, Hok by lia.
    replace (6 * q + 6)%nat with (6 * S q)%nat by lia.
    rewrite IH by (lia || (intros k Hk; apply Hok; lia)).
    cbn [mbind option_bind].
    replace (ceil_div (length ballData) 6 - q)%nat
      with (S (ceil_div (length ballData) 6 - S q)) by lia.
    done.
  - replace (ceil_div (length ballData) 6 - q)%nat with 0%nat by lia. done.
Qed.

Lemma render_loop_throws (ballData : list spec_float) (q0 : nat) (fuel : nat) :
  (q0 < ceil_div (length ballData) 6)%nat ->
  negative_radius ballData q0 = true ->
  forall q,
    (length ballData - 6 * q < fuel)%nat ->
    (q <= q0)%nat ->
    (forall k, (q <= k < q0)%nat -> negative_radius ballData k = false) ->
    render_loop atan cos sin sqrt fuel ballData (6 * q)
    = Some (mjoin ((fun k => draw_ball atan cos sin sqrt ballData (6 * k))
                     <$> seq q (q0 - q))
            ++ [BeginPath;
                Arc (element ballData (6 * q0 + 2))
                  (element ballData (6 * q0 + 3))
                  (element ballData (6 * q0)) (F64.of_int 0)
                  (F64.mul (F64.of_int 2) PI) true],
            IndexSizeError).
Proof.
  intros Hq0 Hneg.
  induction fuel as [|fuel IH]; intros q Hfuel Hle Hok; [lia|].
  cbn [render_loop].
  pose proof (ceil_div_6 (length ballData) q) as Hq.
  rewrite decide_True by lia. rewrite perform_draw_ball.
  destruct (decide (q = q0)) as [->|Hne].
  - rewrite Hneg, Nat.sub_diag. done.
  - rewrite Hok by lia.
    replace (6 * q + 6)%nat with (6 * S q)%nat by lia.
    rewrite IH by (lia || (intros k Hk; apply Hok; lia)).
    cbn [mbind option_bind].
    replace (q0 - q)%nat with (S (q0 - S q)) by lia.
    done.
Qed.

Lemma draw_ball_no_restore (ballData : list spec_float) (a : nat) :
  Restore ∉ draw_ball atan cos sin sqrt ballData a.
Proof.
  unfold draw_ball. rewrite !not_elem_of_cons. repeat split; try discriminate.
  apply not_elem_of_nil.
Qed.

(** X17. [renderBalls] always ends. It first calls [save], sets the fill
    style, and calls [fillRect(0, 0, 5, 5)] and [clearRect(0, 0, width,
    height)]. Then, record by record in the order of the array (a last
    incomplete record included), it makes the seven calls of one path, as
    long as no record has a finite centre and a finite negative radius. If
    there is no such record it returns after a last call of [restore]. If
    there is one, the first [arc] of the first such record throws
    [IndexSizeError]: that call is the last one made, and [restore] is
    never called. *)
Theorem renderBalls_trace (cv : Canvas) (ballData : list spec_float)
    (color : string) :
  let n := ceil_div (length ballData) 6 in
  exists calls completion,
    renderBalls atan cos sin sqrt cv ballData color = Some (calls, completion)
    /\ take 4 calls
       = [ Save;
           SetFillStyle color;
           FillRect (F64.of_int 0) (F64.of_int 0) (F64.of_int 5) (F64.of_int 5);
           ClearRect (F64.of_int 0) (F64.of_int 0) (F64.of_int (width cv))
             (F64.of_int (height cv)) ]
    /\ (forall q,
          (q < n)%nat ->
          (forall k, (k <= q)%nat -> negative_radius ballData k = false) ->
          let radius := element ballData (6 * q) in
          let posX := element ballData (6 * q + 2) in
          let posY := element ballData (6 * q + 3) in
          let velX := element ballData (6 * q + 4) in
          let velY := element ballData (6 * q + 5) in
          let c := heading atan velX velY in
          let P :=
            F64.add posX
              (F64.mul (F64.mul (cos c) (sqrt (F64.of_int 2))) radius) in
          let m :=
            F64.add posY
              (F64.mul (F64.mul (sin c) (sqrt (F64.of_int 2))) radius) in
          take 7 (drop (4 + 7 * q) calls)
          = [ BeginPath;
              Arc posX posY radius (F64.of_int 0) (F64.mul (F64.of_int 2) PI)
                true;
              MoveTo P m;
              Arc posX posY radius (F64.sub c (F64.div PI (F64.of_int 4)))
                (F64.add c (F64.div PI (F64.of_int 4))) true;
              LineTo P m;
              ClosePath;
              Fill ])
    /\ ((forall q, (q < n)%nat -> negative_radius ballData q = false) ->
        completion = Returned
        /\ length calls = (5 + 7 * n)%nat
        /\ drop (4 + 7 * n) calls = [Restore])
    /\ (forall q,
          (q < n)%nat ->
          negative_radius ballData q = true ->
          (forall k, (k < q)%nat -> negative_radius ballData k = false) ->
          completion = IndexSizeError
          /\ length calls = (6 + 7 * q)%nat
          /\ drop (4 + 7 * q) calls
             = [ BeginPath;
                 Arc (element ballData (6 * q + 2))
                   (element ballData (6 * q + 3))
                   (element ballData (6 * q)) (F64.of_int 0)
                   (F64.mul (F64.of_int 2) PI) true ]
          /\ Restore ∉ calls).
Proof.
  intros n. unfold renderBalls.
  set (block := fun k => draw_ball atan cos sin sqrt ballData (6 * k)).
  assert (forall k, length (block k) = 7%nat) as Hblock by done.
  assert (forall q (rest tail : list Command) (m s : nat),
            (q < m)%nat ->
            take 7 (drop (4 + 7 * q)
                      (render_prologue cv color
                       ++ (mjoin (block <$> seq 0 m) ++ rest) ++ tail))
            = block q) as Hpath.
  { intros q rest tail m s Hq.
    change (drop (4 + 7 * q) (render_prologue cv color ++ ?l))
      with (drop (7 * q) l).
    rewrite <- app_assoc.
    rewrite drop_app_le by (rewrite join_blocks_length by done; lia).
    rewrite drop_blocks by (done || lia).
    replace (m - q)%nat with (S (m - S q)) by lia.
    cbn [seq]. rewrite fmap_cons.
    change (mjoin (?x :: ?l)) with (x ++ mjoin l).
    rewrite <- app_assoc. by rewrite take_app_length'. }
  assert (forall q, block q
            = draw_ball atan cos sin sqrt ballData (6 * q)) as Hb by done.
  destruct (first_true (negative_radius ballData) n)
    as [Hok|(q0 & Hq0 & Hneg & Hbefore)].
  - pose proof (render_loop_returns ballData (S (length ballData)) 0
                  ltac:(lia) ltac:(intros k Hk; apply Hok; lia)) as Hloop.
    rewrite Nat.mul_0_r, Nat.sub_0_r in Hloop. rewrite Hloop.
    cbn [mbind option_bind]. fold block. fold n.
    eexists _, _. split; [reflexivity|]. split; [reflexivity|].
    split; [|split].
    + intros q Hq _.
      rewrite <- (app_nil_r (mjoin (block <$> seq 0 n))) at 1.
      rewrite (Hpath q [] [Restore] n 0%nat Hq).
      unfold block, draw_ball. by rewrite Nat.add_0_r.
    + intros _. split; [done|]. split.
      * rewrite !length_app, join_blocks_length by done.
        unfold render_prologue. cbn [length]. lia.
      * change (drop (4 + 7 * n) (render_prologue cv color ++ ?l))
          with (drop (7 * n) l).
        by rewrite drop_app_length' by (by rewrite join_blocks_length).
    + intros q Hq Hq' _. rewrite Hok in Hq' by done. discriminate.
  - pose proof (render_loop_throws ballData q0 (S (length ballData))
                  Hq0 Hneg 0 ltac:(lia) ltac:(lia)
                  ltac:(intros k Hk; apply Hbefore; lia)) as Hloop.
    rewrite Nat.mul_0_r, Nat.sub_0_r in Hloop. rewrite Hloop.
    cbn [mbind option_bind]. fold block.
    eexists _, _. split; [reflexivity|]. split; [reflexivity|].
    split; [|split].
    + intros q Hq Hall.
      assert (q < q0)%nat as Hlt.
      { destruct (decide (q < q0)%nat) as [|Hge]; [done|].
        rewrite Hall in Hneg by lia. discriminate. }
      rewrite <- (app_nil_r (_ ++ [BeginPath; _])).
      rewrite (Hpath q _ [] q0 0%nat Hlt).
      unfold block, draw_ball. by rewrite Nat.add_0_r.
    + intros Hall. rewrite Hall in Hneg by done. discriminate.
    + intros q Hq Hq' Hfirst.
      assert (q = q0) as ->.
      { destruct (Nat.lt_trichotomy q q0) as [Hlt|[Heq|Hgt]]; [|done|].
        - rewrite Hbefore in Hq' by done. discriminate.
        - rewrite Hfirst in Hneg by done. discriminate. }
      split; [done|]. split; [|split].
      * rewrite !length_app, join_blocks_length by done.
        unfold render_prologue. cbn [length]. lia.
      * change (drop (4 + 7 * q0) (render_prologue cv color ++ ?l))
          with (drop (7 * q0) l).
        by rewrite drop_app_length' by (by rewrite join_blocks_length).
      * rewrite !not_elem_of_app. split; [|split].
        -- unfold render_prologue. rewrite !not_elem_of_cons.
           repeat split; try discriminate. apply not_elem_of_nil.
        -- intros (l & Hin & Hl)%list_elem_of_join.
           apply list_elem_of_fmap in Hl as (k & -> & _).
           by apply draw_ball_no_restore in Hin.
        -- rewrite !not_elem_of_cons. repeat split; try discriminate.
           apply not_elem_of_nil.
Qed.

Lemma element_agree (d1 d2 : list spec_float) (q k : nat) :
  (forall j, (j mod 6 <> 1)%nat -> d1 !! j = d2 !! j) ->
  (k < 6)%nat -> k <> 1%nat ->
  element d1 (6 * q + k) = element d2 (6 * q + k).
Proof.
  intros H Hk Hk1. unfold element. rewrite H; [done|].
  rewrite Nat.add_comm, Nat.mul_comm, Nat.Div0.mod_add.
  by rewrite Nat.mod_small.
Qed.

Lemma render_loop_agree (d1 d2 : list spec_float) (fuel : nat) :
  length d1 = length d2 ->
  (forall j, (j mod 6 <> 1)%nat -> d1 !! j = d2 !! j) ->
  forall q,
    render_loop atan cos sin sqrt fuel d1 (6 * q)
    = render_loop atan cos sin sqrt fuel d2 (6 * q).
Proof.
  intros Hlen H. induction fuel as [|fuel IH]; intros q; [done|].
  cbn [render_loop]. rewrite Hlen.
  assert (draw_ball atan cos sin sqrt d1 (6 * q)
          = draw_ball atan cos sin sqrt d2 (6 * q)) as ->
    by (unfold draw_ball; by rewrite !(element_agree d1 d2 q) by (done || lia)).
  replace (6 * q + 6)%nat with (6 * S q)%nat by lia. by rewrite IH.
Qed.

(** X18. The renderer never reads the padding float of a record: two
    arrays of the same length that differ in padding floats only are
    drawn by the same calls. *)
Theorem renderBalls_ignores_padding (cv : Canvas)
    (d1 d2 : list spec_float) (color : string) :
  length d1 = length d2 ->
  (forall j, (j mod 6 <> 1)%nat -> d1 !! j = d2 !! j) ->
  renderBalls atan cos sin sqrt cv d1 color
  = renderBalls atan cos sin sqrt cv d2 color.
Proof.
  intros Hlen H. unfold renderBalls.
  pose proof (render_loop_agree d1 d2 (S (length d1)) Hlen H 0) as E.
  rewrite Nat.mul_0_r in E. by rewrite E, Hlen.
Qed.

End RenderBallsProperties.

Lemma renderBalls_trace_witness :
  (exists calls,
     renderBalls (fun x => x) (fun x => x) (fun x => x) (fun x => x)
       (mk_Canvas 1000 800) sample_input "rgb(255, 0, 0)"
     = Some (calls, Returned)
     /\ length calls = 19%nat
     /\ drop 18 calls = [Restore])
  /\ (exists calls,
        renderBalls (fun x => x) (fun x => x) (fun x => x) (fun x => x)
          (mk_Canvas 1000 800) sample_negative_radius "rgb(255, 0, 0)"
        = Some (calls, IndexSizeError)
        /\ length calls = 13%nat
        /\ Restore ∉ calls).
Proof.
  split.
  - destruct (renderBalls_trace (fun x => x) (fun x => x) (fun x => x)
                (fun x => x) (mk_Canvas 1000 800) sample_input
                "rgb(255, 0, 0)")
      as (calls & completion & Hrun & _ & _ & Hret & _).
    destruct Hret as (-> & Hlen & Hlast).
    { intros q Hq. destruct q as [|[|q]]; [reflexivity|reflexivity|].
      vm_compute in Hq. lia. }
    exists calls. split; [exact Hrun|]. split; [exact Hlen|exact Hlast].
  - destruct (renderBalls_trace (fun x => x) (fun x => x) (fun x => x)
                (fun x => x) (mk_Canvas 1000 800) sample_negative_radius
                "rgb(255, 0, 0)")
      as (calls & completion & Hrun & _ & _ & _ & Hthrow).
    destruct (Hthrow 1%nat) as (-> & Hlen & _ & Hno).
    { vm_compute. lia. }
    { reflexivity. }
    { intros k Hk. assert (k = 0%nat) as -> by lia. reflexivity. }
    exists calls. split; [exact Hrun|]. split; [exact Hlen|exact Hno].
Defined.

Lemma renderBalls_ignores_padding_witness :
  renderBalls (fun x => x) (fun x => x) (fun x => x) (fun x => x)
    (mk_Canvas 1000 800) sample_input "rgb(255, 0, 0)"
  = renderBalls (fun x => x) (fun x => x) (fun x => x) (fun x => x)
      (mk_Canvas 1000 800) (<[1%nat := F32.of_int 7]> sample_input)
      "rgb(255, 0, 0)".
Proof.
  apply (renderBalls_ignores_padding (fun x => x) (fun x => x) (fun x => x)
           (fun x => x) (mk_Canvas 1000 800) sample_input
           (<[1%nat := F32.of_int 7]> sample_input) "rgb(255, 0, 0)").
  - reflexivity.
  - intros j Hj. destruct (decide (j = 1%nat)) as [->|Hne]; [done|].
    by rewrite list_lookup_insert_ne.
Defined.

(** ** The uniforms *)

(** X19. For a canvas whose width and height fit a signed 32-bit integer,
    the bounds the kernel reflects at are the canvas's own width and
    height: storing them into the [Int32Array] changes nothing. *)
Theorem init_uniforms_exact (cv : Canvas) :
  - 2 ^ 31 <= width cv < 2 ^ 31 ->
  - 2 ^ 31 <= height cv < 2 ^ 31 ->
  init_uniforms cv = mk_UniformData (width cv) (height cv).
Proof.
  intros Hw Hh. unfold init_uniforms, to_int32.
  rewrite !Z.mod_small by lia. f_equal; lia.
Qed.

Lemma init_uniforms_exact_witness :
  init_uniforms (mk_Canvas 1000 800) = mk_UniformData 1000 800.
Proof.
  apply (init_uniforms_exact (mk_Canvas 1000 800)); cbn [width height]; lia.
Defined.
